(** * phpserialize: the consumers of [consume.go]

    A shallow embedding of the recursive-descent decoder of the PHP
    [serialize()] wire format, and the properties its specification
    states about it.

    Conventions of the embedding.

    - A [[]byte] buffer and a Go [string] are both [list byte]; a buffer's
      capacity equals its length.
    - Go's [int] is the 64-bit one.  Offsets are [Z]: the error sentinel
      [-1] is an ordinary value of the type.  The sums are written
      without wrap-around, which no run can tell apart: every sum but
      one adds a constant of at most 4 to an offset that is [-1] or at
      most a few bytes past the end of the buffer or of its decoded
      text; the one left, [offset+length] in [consumeStringRealPart],
      has a [length] that [Atoi] kept within 64 bits, and when it leaves
      the range of the decoded text the slice expression panics, wrapped
      or not.
    - A Go function that returns [(value, newOffset, err)] returns the
      triple [(value, newOffset, err)] with [err : option error]; [None]
      is Go's [nil] error.
    - A run-time panic (index or slice out of range, a [reflect] accessor
      applied to the wrong kind) is the outcome [Panic]; [Diverge] is
      the recursion of the object consumer running out of fuel, which
      [consumeObject] never does ([consumeObject_returns]). *)

From Stdlib Require Import ZArith List Lia Bool.
From Stdlib Require Import Strings.Byte Strings.String.
From Stdlib Require Import Floats.PrimFloat Floats.SpecFloat Floats.FloatOps.
Import ListNotations.
Open Scope Z_scope.

(** ** Bytes, indexing and slicing *)

Definition bytes (s : string) : list byte := list_byte_of_string s.

(** Payloads are written with an apostrophe where the wire has a double
    quote; [wire] puts the double quotes (byte 0x22) back. *)
Definition wire (s : string) : list byte :=
  map (fun b => if Byte.eqb b "'"%byte then x22 else b) (bytes s).

Definition len (data : list byte) : Z := Z.of_nat (List.length data).

Inductive panic : Type :=
| IndexOutOfRange
| SliceBoundsOutOfRange
| ReflectPanic
| HelperPanic.

Inductive go (A : Type) : Type :=
| Ret (a : A)
| Panic (p : panic)
| Diverge.

Arguments Ret {A} a.
Arguments Panic {A} p.
Arguments Diverge {A}.

Definition bind {A B : Type} (c : go A) (k : A -> go B) : go B :=
  match c with
  | Ret a => k a
  | Panic p => Panic p
  | Diverge => Diverge
  end.

Notation "x <- c ;; k" := (bind c (fun x => k))
  (at level 61, c at next level, right associativity).
Notation "' p <- c ;; k" := (bind c (fun x => match x with p => k end))
  (at level 61, p pattern, c at next level, right associativity).

(** [data[i]] *)
Definition index (data : list byte) (i : Z) : go byte :=
  if (0 <=? i) && (i <? len data)
  then Ret (nth (Z.to_nat i) data x00)
  else Panic IndexOutOfRange.

(** [data[lo:hi]] *)
Definition slice (data : list byte) (lo hi : Z) : go (list byte) :=
  if (0 <=? lo) && (lo <=? hi) && (hi <=? len data)
  then Ret (firstn (Z.to_nat (hi - lo)) (skipn (Z.to_nat lo) data))
  else Panic SliceBoundsOutOfRange.

(** [data[lo:]] *)
Definition slice_from (data : list byte) (lo : Z) : go (list byte) :=
  slice data lo (len data).

(** A helper of the package that either returns or panics. *)
Definition lift {A : Type} (r : option A) : go A :=
  match r with
  | Some a => Ret a
  | None => Panic HelperPanic
  end.

(** ** Errors *)

Inductive numErr : Type := ErrSyntax | ErrRange.

Inductive error : Type :=
| errorString (msg : list byte)                 (* errors.New(msg) *)
| NumError (Func Num : list byte) (Err : numErr) (* *strconv.NumError *).

(** ** strconv.Atoi

    An optional sign, then one or more decimal digits; the digits are read
    left to right as [ParseUint] does (base 10, 64 bits), so a range error
    is reported as soon as the running value leaves the unsigned range and
    a syntax error as soon as a byte is not a digit.  [Atoi]'s fast path
    for short inputs returns the same results. *)

Definition digit (c : byte) : option Z :=
  let n := Z.of_N (Byte.to_N c) in
  if (48 <=? n) && (n <=? 57) then Some (n - 48) else None.

Definition maxUint64 : Z := 2 ^ 64 - 1.

Fixpoint parseDigits (s : list byte) (n : Z) : Z + numErr :=
  match s with
  | [] => inl n
  | c :: s' =>
      match digit c with
      | None => inr ErrSyntax
      | Some d =>
          if (maxUint64 / 10 + 1 <=? n) || (maxUint64 <? n * 10 + d)
          then inr ErrRange
          else parseDigits s' (n * 10 + d)
      end
  end.

Definition parseUint (s : list byte) : Z + numErr :=
  match s with
  | [] => inr ErrSyntax
  | _ => parseDigits s 0
  end.

Definition Atoi (s : list byte) : Z * option error :=
  let fail k := Some (NumError (bytes "Atoi") s k) in
  match s with
  | [] => (0, fail ErrSyntax)
  | c :: s' =>
      let neg := Byte.eqb c "-"%byte in
      let digits := if neg || Byte.eqb c "+"%byte then s' else s in
      match parseUint digits with
      | inr ErrSyntax => (0, fail ErrSyntax)
      | inr ErrRange => ((if neg then - 2 ^ 63 else 2 ^ 63 - 1), fail ErrRange)
      | inl un =>
          if negb neg && (2 ^ 63 <=? un) then (2 ^ 63 - 1, fail ErrRange)
          else if neg && (2 ^ 63 <? un) then (- 2 ^ 63, fail ErrRange)
          else ((if neg then - un else un), None)
      end
  end.

(** ** The helpers [consume.go] calls but does not define *)

(** Modelled from the spec: [checkType] is not in [consume.go].  Section
    4.2 step 1 validates that [buffer[offset]] is the expected tag
    character; an offset outside the buffer has no tag and is rejected.
    The byte after the tag is not examined here: the null literal [N;]
    (section 6) passes the same test and has no [:]. *)
Definition checkType (data : list byte) (typeCharacter : byte) (offset : Z)
  : bool :=
  (0 <=? offset) && (offset <? len data)
  && Byte.eqb (nth (Z.to_nat offset) data x00) typeCharacter.

(** Modelled from the spec: [findByte] is not in [consume.go].  Section
    4.1: scan forward for the first occurrence of the byte at or after
    the offset; a negative sentinel, not a failure, when there is none.
    The spec does not say what an offset before the buffer gives: the
    model answers the sentinel there, and what is proved of the scan
    itself is stated from offset 0 on. *)
Fixpoint findFrom (l : list byte) (lookingFor : byte) (pos : Z) : Z :=
  match l with
  | [] => -1
  | c :: l' =>
      if Byte.eqb c lookingFor then pos else findFrom l' lookingFor (pos + 1)
  end.

Definition findByte (data : list byte) (lookingFor : byte) (offset : Z) : Z :=
  if (0 <=? offset) && (offset <? len data)
  then findFrom (skipn (Z.to_nat offset) data) lookingFor offset
  else -1.

(** The remaining collaborators are taken as parameters: [strconv]'s
    [ParseFloat(s, 64)], the package's raw-byte-to-text decoder and its
    key normaliser.  The two package helpers may panic ([None]).
    Of [ParseFloat] only one fact is used: the empty literal is a syntax
    error. *)
Record Externals : Type := {
  ParseFloat : list byte -> float * option error;
  DecodePHPString : list byte -> option (list byte);
  upperCaseFirstLetter : list byte -> option (list byte);
  (* strconv.ParseFloat rejects the empty literal *)
  ParseFloat_empty : snd (ParseFloat []) <> None
}.

(** ** Scalar and text consumers *)

Section Consumers.

Variable E : Externals.

Definition consumeStringUntilByte (data : list byte) (lookingFor : byte)
  (offset : Z) : go (list byte * Z) :=
  let newOffset := findByte data lookingFor offset in
  if newOffset <? 0 then Ret ([], -1)
  else
    s <- slice data offset newOffset ;;
    Ret (s, newOffset).

Definition consumeInt (data : list byte) (offset : Z)
  : go (Z * Z * option error) :=
  if negb (checkType data "i" offset)
  then Ret (0, -1, Some (errorString (bytes "not an integer")))
  else
    '(alphaNumber, newOffset) <- consumeStringUntilByte data ";" (offset + 2) ;;
    match Atoi alphaNumber with
    | (_, Some err) => Ret (0, -1, Some err)
    | (i, None) => Ret (i, newOffset + 1, None)
    end.

Definition consumeFloat (data : list byte) (offset : Z)
  : go (float * Z * option error) :=
  if negb (checkType data "d" offset)
  then Ret (0%float, -1, Some (errorString (bytes "not a float")))
  else
    '(alphaNumber, newOffset) <- consumeStringUntilByte data ";" (offset + 2) ;;
    match ParseFloat E alphaNumber with
    | (_, Some err) => Ret (0%float, -1, Some err)
    | (v, None) => Ret (v, newOffset + 1, None)
    end.

Definition consumeIntPart (data : list byte) (offset : Z)
  : go (Z * Z * option error) :=
  '(rawValue, newOffset) <- consumeStringUntilByte data ":" offset ;;
  match Atoi rawValue with
  | (_, Some err) => Ret (0, -1, Some err)
  | (value, None) => Ret (value, newOffset + 1, None)
  end.

Definition consumeStringRealPart (data : list byte) (offset : Z)
  : go (list byte * Z * option error) :=
  '(length, newOffset, err) <- consumeIntPart data offset ;;
  match err with
  | Some e => Ret ([], -1, Some e)
  | None =>
      let offset := newOffset + 1 in
      s <- lift (DecodePHPString E data) ;;
      sub <- slice s offset (offset + length) ;;
      Ret (sub, offset + length + 2, None)
  end.

Definition consumeString (data : list byte) (offset : Z)
  : go (list byte * Z * option error) :=
  if negb (checkType data "s" offset)
  then Ret ([], -1, Some (errorString (bytes "not a string")))
  else consumeStringRealPart data (offset + 2).

(** The dynamically typed result of [consumeNext] ([interface{}]). *)
Inductive decoded : Type :=
| DNil
| DBool (b : bool)
| DInt (n : Z)
| DFloat (f : float)
| DString (s : list byte).

Definition consumeNil (data : list byte) (offset : Z)
  : go (decoded * Z * option error) :=
  if negb (checkType data "N" offset)
  then Ret (DNil, -1, Some (errorString (bytes "not null")))
  else Ret (DNil, offset + 2, None).

Definition consumeBool (data : list byte) (offset : Z)
  : go (bool * Z * option error) :=
  if negb (checkType data "b" offset)
  then Ret (false, -1, Some (errorString (bytes "not a boolean")))
  else
    c <- index data (offset + 2) ;;
    Ret (Byte.eqb c "1", offset + 4, None).

(** Boxing a consumer's typed result into [interface{}], as the [return]
    statements of [consumeNext] do. *)
Definition boxed {A : Type} (box : A -> decoded)
  (r : go (A * Z * option error)) : go (decoded * Z * option error) :=
  '(a, newOffset, err) <- r ;; Ret (box a, newOffset, err).

Definition consumeNext (data : list byte) (offset : Z)
  : go (decoded * Z * option error) :=
  if len data <=? offset
  then Ret (DNil, -1, Some (errorString (bytes "corrupt")))
  else
    tag <- index data offset ;;
    if Byte.eqb tag "b" then boxed DBool (consumeBool data offset)
    else if Byte.eqb tag "d" then boxed DFloat (consumeFloat data offset)
    else if Byte.eqb tag "i" then boxed DInt (consumeInt data offset)
    else if Byte.eqb tag "s" then boxed DString (consumeString data offset)
    else if Byte.eqb tag "N" then consumeNil data offset
    else
      tail <- slice_from data offset ;;
      Ret (DNil, -1,
           Some (errorString (bytes "can not consume type: " ++ tail))).

End Consumers.

(** ** The destination record, as [reflect] sees it

    A destination is the value a pointer handed to [consumeObject] points
    to.  Struct fields are exported and not embedded; a field is found by
    its name and written in place.  Kinds no decoded value can be
    assigned to (pointers, slices, maps, named string or bool types, ...)
    are [VOther]. *)

Inductive IntKind : Type := Int | Int8 | Int16 | Int32 | Int64.
Inductive UintKind : Type := Uint | Uint8 | Uint16 | Uint32 | Uint64 | Uintptr.
Inductive FloatKind : Type := Float32 | Float64.

#[warnings="-register-all"]
Inductive gval : Type :=
| VInt (k : IntKind) (n : Z)
| VUint (k : UintKind) (n : Z)
| VFloat (k : FloatKind) (f : float)
| VBool (b : bool)
| VString (s : list byte)
| VIface (x : decoded)                       (* interface{}; DNil is nil *)
| VStruct (fields : list (list byte * gval))
| VOther.

(** [type dummyObject struct{}]: the destination with no field. *)
Definition dummyObject : gval := VStruct [].

Definition bytes_eqb (a b : list byte) : bool :=
  if list_eq_dec Byte.byte_eq_dec a b then true else false.

Fixpoint lookupField (fs : list (list byte * gval)) (name : list byte)
  : option gval :=
  match fs with
  | [] => None
  | (n, f) :: fs' => if bytes_eqb n name then Some f else lookupField fs' name
  end.

Fixpoint storeField (fs : list (list byte * gval)) (name : list byte)
  (x : gval) : list (list byte * gval) :=
  match fs with
  | [] => []
  | (n, f) :: fs' =>
      if bytes_eqb n name then (n, x) :: fs'
      else (n, f) :: storeField fs' name x
  end.

(** [reflect.ValueOf(v).Elem().FieldByName(name)]: [None] is the invalid
    [Value] of a name the struct does not have; a destination that is not
    a struct makes [FieldByName] panic. *)
Definition FieldByName (v : gval) (name : list byte) : go (option gval) :=
  match v with
  | VStruct fs => Ret (lookupField fs name)
  | _ => Panic ReflectPanic
  end.

(** Writing through the field's address. *)
Definition store (v : gval) (name : list byte) (x : gval) : gval :=
  match v with
  | VStruct fs => VStruct (storeField fs name x)
  | _ => v
  end.

Definition bits (k : IntKind) : Z :=
  match k with
  | Int | Int64 => 64
  | Int8 => 8
  | Int16 => 16
  | Int32 => 32
  end.

(** The conversion [SetInt] applies: the low [w] bits, signed. *)
Definition wrapInt (w x : Z) : Z :=
  (x + 2 ^ (w - 1)) mod 2 ^ w - 2 ^ (w - 1).

(** The conversion [SetFloat] applies to a [float32] field: rounding to
    24 bits of precision, to nearest even. *)
Definition float32 (x : float) : float :=
  match Prim2SF x with
  | S754_finite s m e =>
      SF2Prim (binary_normalize 24 128 (if s then Z.neg m else Z.pos m) e s)
  | _ => x
  end.

(** [setField(field, reflect.ValueOf(value))].  [value.Int()],
    [value.Uint()] and [value.Float()] panic unless the value has an
    integer, unsigned or float kind, and no decoded value has an unsigned
    kind; [field.Set] panics on the invalid [Value] of nil and on a value
    whose type is not assignable to the field's. *)
Definition setField (field : gval) (value : decoded) : go gval :=
  match field, value with
  | VInt k _, DInt n => Ret (VInt k (wrapInt (bits k) n))
  | VFloat Float32 _, DFloat x => Ret (VFloat Float32 (float32 x))
  | VFloat Float64 _, DFloat x => Ret (VFloat Float64 x)
  | VBool _, DBool b => Ret (VBool b)
  | VString _, DString s => Ret (VString s)
  | VIface _, DNil => Panic ReflectPanic
  | VIface _, d => Ret (VIface d)
  | _, _ => Panic ReflectPanic
  end.

(** ** The object consumer

    [consumeObject] calls itself for a nested object and loops over the
    pairs; both are driven by [fuel], one unit per call and per pair.
    [elements] is the [for] loop from iteration [i] on.  The destination
    is threaded through: the result carries it as it is when the call
    returns, also on an error return, where the writes made so far
    remain. *)

Section ObjectConsumer.

Variable E : Externals.

Fixpoint consumeObjectFuel (fuel : nat) (data : list byte) (offset : Z)
  (v : gval) {struct fuel} : go (gval * Z * option error) :=
  match fuel with
  | O => Diverge
  | S fuel' =>
      if negb (checkType data "O" offset)
      then Ret (v, -1, Some (errorString (bytes "not an object")))
      else
        '(_, offset, err) <- consumeStringRealPart E data (offset + 2) ;;
        match err with
        | Some e => Ret (v, -1, Some e)
        | None =>
            '(length, offset, err) <- consumeIntPart data offset ;;
            match err with
            | Some e => Ret (v, -1, Some e)
            | None => elements fuel' data 0 length (offset + 1) v
            end
        end
  end

with elements (fuel : nat) (data : list byte) (i length offset : Z)
  (v : gval) {struct fuel} : go (gval * Z * option error) :=
  match fuel with
  | O => Diverge
  | S fuel' =>
      if i <? length then
        '(key, offset, err) <- consumeString E data offset ;;
        match err with
        | Some e => Ret (v, -1, Some e)
        | None =>
            name <- lift (upperCaseFirstLetter E key) ;;
            field <- FieldByName v name ;;
            tag <- index data offset ;;
            if Byte.eqb tag "O" then
              let subV :=
                match field with Some f => f | None => dummyObject end in
              '(subV', offset, err) <- consumeObjectFuel fuel' data offset subV ;;
              let v :=
                match field with Some _ => store v name subV' | None => v end in
              match err with
              | Some e => Ret (v, -1, Some e)
              | None => elements fuel' data (i + 1) length offset v
              end
            else
              '(value, offset, err) <- consumeNext E data offset ;;
              match err with
              | Some e => Ret (v, -1, Some e)
              | None =>
                  match field with
                  | Some f =>
                      f' <- setField f value ;;
                      elements fuel' data (i + 1) length offset (store v name f')
                  | None => elements fuel' data (i + 1) length offset v
                  end
              end
        end
      else Ret (v, offset + 1, None)
  end.

(** Every pair takes at least one byte, so one unit of fuel per byte of
    the buffer, and one more, is enough ([consumeObject_returns]). *)
Definition consumeObject (data : list byte) (offset : Z) (v : gval)
  : go (gval * Z * option error) :=
  consumeObjectFuel (S (List.length data)) data offset v.

End ObjectConsumer.

(** ** Reference instances of the parameters *)

(** Modelled from the spec: [DecodePHPString] is not in [consume.go].
    Section 4.3 only says that it decodes the whole buffer into text; on a
    payload without escape sequences the text is the buffer itself, and
    this instance is used on such payloads only. *)
Definition plainDecode (data : list byte) : option (list byte) := Some data.

(** Modelled from the spec: [upperCaseFirstLetter] is not in
    [consume.go].  Section 4.5 step 5b: the first character capitalised. *)
Definition capitalise (key : list byte) : option (list byte) :=
  match key with
  | [] => Some []
  | c :: rest =>
      let n := Byte.to_N c in
      if ((97 <=? n) && (n <=? 122))%N
      then match Byte.of_N (n - 32) with
           | Some c' => Some (c' :: rest)
           | None => Some key
           end
      else Some key
  end.

(** [strconv.ParseFloat] on the plain decimal literals [digits] and
    [digits.digits] with an optional sign, where the digits without the
    point are below [2^53] and at most 22 follow the point: there both
    the digits and the power of ten are floats, and the nearest float to
    the literal is their quotient, rounded once.  Any other input is
    answered with a syntax error; this instance is used on literals of
    that shape, and on the empty literal, only. *)
Fixpoint decimalDigits (s : list byte) (m : Z) (frac : option Z)
  : option (Z * Z) :=
  match s with
  | [] => Some (m, match frac with Some k => k | None => 0 end)
  | c :: s' =>
      if Byte.eqb c "." then
        match frac with
        | None => decimalDigits s' m (Some 0)
        | Some _ => None
        end
      else
        match digit c with
        | None => None
        | Some d =>
            decimalDigits s' (m * 10 + d)
              (match frac with Some k => Some (k + 1) | None => None end)
        end
  end.

Definition floatOfZ (n : Z) : float :=
  match n with
  | Z0 => 0%float
  | Zpos p => SF2Prim (binary_normalize 53 1024 (Zpos p) 0 false)
  | Zneg p => SF2Prim (binary_normalize 53 1024 (Zneg p) 0 true)
  end.

Definition decimalFloat (s : list byte) : float * option error :=
  let fail := (0%float, Some (NumError (bytes "ParseFloat") s ErrSyntax)) in
  match s with
  | [] => fail
  | c :: s' =>
      let neg := Byte.eqb c "-" in
      let body := if neg || Byte.eqb c "+" then s' else s in
      match body with
      | [] => fail
      | _ =>
          match decimalDigits body 0 None with
          | Some (m, k) =>
              if (m <? 2 ^ 53) && (k <=? 22) then
                let x := (floatOfZ m / floatOfZ (10 ^ k))%float in
                ((if neg then (- x)%float else x), None)
              else fail
          | None => fail
          end
      end
  end.

Definition reference : Externals :=
  {| ParseFloat := decimalFloat;
     DecodePHPString := plainDecode;
     upperCaseFirstLetter := capitalise;
     ParseFloat_empty := ltac:(discriminate) |}.

(** Modelled from the spec: a [DecodePHPString] for payloads with escape
    sequences.  Sections 4.3 and 9 let the decoded text be shorter than
    the buffer; this instance undoes backslash escapes, dropping each
    backslash and keeping the byte after it. *)
Fixpoint unescape (data : list byte) : list byte :=
  match data with
  | [] => []
  | c :: rest =>
      if Byte.eqb c x5c then
        match rest with
        | [] => []
        | c' :: rest' => c' :: unescape rest'
        end
      else c :: unescape rest
  end.

Definition escaping : Externals :=
  {| ParseFloat := decimalFloat;
     DecodePHPString := fun data => Some (unescape data);
     upperCaseFirstLetter := capitalise;
     ParseFloat_empty := ltac:(discriminate) |}.

(** ** Consumers as one family

    [run] gives the offset and error a consumer returns, whatever the
    type of its value. *)

Inductive consumer : Type :=
| CNil | CBool | CInt | CFloat | CString | CNext | CIntPart
| CStringRealPart
| CObject (v : gval).

Definition outcome {A : Type} (r : go (A * Z * option error))
  : go (Z * option error) :=
  '(_, newOffset, err) <- r ;; Ret (newOffset, err).

Definition run (E : Externals) (c : consumer) (data : list byte) (offset : Z)
  : go (Z * option error) :=
  match c with
  | CNil => outcome (consumeNil data offset)
  | CBool => outcome (consumeBool data offset)
  | CInt => outcome (consumeInt data offset)
  | CFloat => outcome (consumeFloat E data offset)
  | CString => outcome (consumeString E data offset)
  | CNext => outcome (consumeNext E data offset)
  | CIntPart => outcome (consumeIntPart data offset)
  | CStringRealPart => outcome (consumeStringRealPart E data offset)
  | CObject v => outcome (consumeObject E data offset v)
  end.

(** ** The vocabulary of the properties *)

(** [sound_result]: with an error the offset is the sentinel; without
    one the consumer started inside the buffer and moved forward. *)
Definition sound_result (data : list byte) (offset newOffset : Z)
  (err : option error) : Prop :=
  match err with
  | Some _ => newOffset = -1
  | None => 0 <= offset < len data /\ offset < newOffset
  end.

(** With an error the offset is the sentinel; without one it is past the
    starting offset. *)
Definition forward (offset newOffset : Z) (err : option error) : Prop :=
  match err with
  | Some _ => newOffset = -1
  | None => offset < newOffset
  end.

(** What [elements] does with the value of a pair whose key has been
    read: [field] is the result of the field lookup, [offset] the offset
    after the key. *)
Definition pairValue (E : Externals) (fuel : nat) (data : list byte) (i length offset : Z)
  (v : gval) (name : list byte) (field : option gval)
  : go (gval * Z * option error) :=
  tag <- index data offset ;;
  if Byte.eqb tag "O" then
    let subV := match field with Some f => f | None => dummyObject end in
    '(subV', offset, err) <- consumeObjectFuel E fuel data offset subV ;;
    let v := match field with Some _ => store v name subV' | None => v end in
    match err with
    | Some e => Ret (v, -1, Some e)
    | None => elements E fuel data (i + 1) length offset v
    end
  else
    '(value, offset, err) <- consumeNext E data offset ;;
    match err with
    | Some e => Ret (v, -1, Some e)
    | None =>
        match field with
        | Some f =>
            f' <- setField f value ;;
            elements E fuel data (i + 1) length offset (store v name f')
        | None => elements E fuel data (i + 1) length offset v
        end
    end.

(** The pairs of field and decoded value [setField] can store. *)
Definition storable (field : gval) (value : decoded) : bool :=
  match field, value with
  | VInt _ _, DInt _ => true
  | VFloat _ _, DFloat _ => true
  | VBool _, DBool _ => true
  | VString _, DString _ => true
  | VIface _, (DBool _ | DInt _ | DFloat _ | DString _) => true
  | _, _ => false
  end.

(** The payload of the [Person] example. *)
Definition person_payload : list byte :=
  wire "O:6:'Person':2:{s:4:'Name';s:3:'Bob';s:3:'Age';i:30;}".

(** [narrower v' v]: [v'] is [v] with some fields left out, at any
    depth. *)
#[warnings="-register-all"]
Inductive narrower : gval -> gval -> Prop :=
| narrower_same v : narrower v v
| narrower_struct fs' fs :
    (forall name f', lookupField fs' name = Some f' ->
       exists f, lookupField fs name = Some f /\ narrower f' f) ->
    narrower (VStruct fs') (VStruct fs).

(** [v'] takes the place of [v]: it is narrower, or the discard sink. *)
Definition stands_for (v' v : gval) : Prop :=
  narrower v' v \/ v' = dummyObject.

Fixpoint withoutField (fs : list (list byte * gval)) (name : list byte)
  : list (list byte * gval) :=
  match fs with
  | [] => []
  | (n, f) :: fs' =>
      if bytes_eqb n name then withoutField fs' name
      else (n, f) :: withoutField fs' name
  end.

(** How the results of two runs are related, given how the destinations
    were. *)
Definition kept (v' v r' r : gval) : Prop :=
  (narrower v' v -> narrower r' r) /\ (v' = dummyObject -> r' = dummyObject).

(** [within hi i]: position [i] is below the bound [hi], if there is
    one. *)
Definition within (hi : option Z) (i : Z) : Prop :=
  match hi with
  | Some h => i < h
  | None => True
  end.

(** Two byte sequences of one length that agree from [lo] on, up to the
    bound. *)
Definition agree (lo : Z) (hi : option Z) (a b : list byte) : Prop :=
  len a = len b
  /\ forall i, lo <= i -> within hi i ->
       nth (Z.to_nat i) a x00 = nth (Z.to_nat i) b x00.

(** The same for the decoded texts of two buffers; the decoder panics on
    both or on neither. *)
Definition agree_text (lo : Z) (hi : option Z) (t t' : option (list byte))
  : Prop :=
  match t, t' with
  | Some a, Some b => agree lo hi a b
  | None, None => True
  | _, _ => False
  end.

(** A result that, if there is a bound, is a success with an offset not
    beyond it. *)
Definition reaches {A : Type} (hi : option Z) (r : go (A * Z * option error))
  : Prop :=
  match hi with
  | None => True
  | Some h =>
      match r with
      | Ret (_, o, None) => o <= h
      | _ => False
      end
  end.

(** Where the opening brace is expected: the offset after the count
    field of a header that parses. *)
Definition openBrace (E : Externals) (data : list byte) (offset : Z)
  : option Z :=
  if checkType data "O" offset then
    match consumeStringRealPart E data (offset + 2) with
    | Ret (_, o1, None) =>
        match consumeIntPart data o1 with
        | Ret (_, o2, None) => Some o2
        | _ => None
        end
    | _ => None
    end
  else None.

(** Where the closing brace is expected: the last offset a successful
    call steps over. *)
Definition closeBrace (E : Externals) (data : list byte) (offset : Z)
  (v : gval) : option Z :=
  match consumeObject E data offset v with
  | Ret (_, o, None) => Some (o - 1)
  | _ => None
  end.

(** [a] and [a'] have one length and differ at most at the two brace
    positions of the object node of [data] at [offset]. *)
Definition differ_at_braces (E : Externals) (data : list byte) (offset : Z)
  (v : gval) (a a' : list byte) : Prop :=
  len a = len a'
  /\ forall i, 0 <= i ->
       nth (Z.to_nat i) a x00 <> nth (Z.to_nat i) a' x00 ->
       openBrace E data offset = Some i \/ closeBrace E data offset v = Some i.

(** [differ_at_braces], decided position by position. *)
Definition at_position (p : option Z) (i : Z) : bool :=
  match p with
  | Some q => q =? i
  | None => false
  end.

Definition differ_at_bracesb (E : Externals) (data : list byte) (offset : Z)
  (v : gval) (a a' : list byte) : bool :=
  (len a =? len a')
  && forallb
       (fun k =>
          Byte.eqb (nth k a x00) (nth k a' x00)
          || at_position (openBrace E data offset) (Z.of_nat k)
          || at_position (closeBrace E data offset v) (Z.of_nat k))
       (seq 0 (List.length a)).

(** ** Literals and positions, for the properties of the consumers *)

(** A string of decimal digits and the number it writes. *)
Definition allDigits (ds : list byte) : bool :=
  forallb (fun c => match digit c with Some _ => true | None => false end) ds.

Fixpoint decimalValue (ds : list byte) (acc : Z) : Z :=
  match ds with
  | [] => acc
  | c :: ds' =>
      decimalValue ds' (acc * 10 + match digit c with Some d => d | None => 0 end)
  end.

(** A consumer's result seen from [k] bytes further left: a returned
    offset moves by [k]; the sentinel of an error and a panic stay. *)
Definition shift {A : Type} (k : Z) (r : go (A * Z * option error))
  : go (A * Z * option error) :=
  match r with
  | Ret (x, o, None) => Ret (x, o + k, None)
  | _ => r
  end.

(** The decoded text of a buffer behind a prefix is the decoded text of
    the buffer behind a text as long as the prefix; the decoder panics
    on both or on neither. *)
Definition decodes_alike (E : Externals) (pre data : list byte) : Prop :=
  match DecodePHPString E data, DecodePHPString E (pre ++ data) with
  | Some t, Some t2 => exists pre', t2 = pre' ++ t /\ len pre' = len pre
  | None, None => True
  | _, _ => False
  end.

(** The decimal notation of an integer: a minus sign if it is negative,
    then its digits, without leading zeros.  Twenty digits cover the
    64-bit range. *)
Definition digitByte (d : Z) : byte :=
  match Byte.of_N (Z.to_N (48 + d)) with
  | Some b => b
  | None => x00
  end.

Fixpoint digitsOf (fuel : nat) (n : Z) : list byte :=
  match fuel with
  | O => []
  | S fuel' =>
      if n <? 10 then [digitByte n]
      else digitsOf fuel' (n / 10) ++ [digitByte (n mod 10)]
  end.

Definition itoa (n : Z) : list byte :=
  if n <? 0 then "-"%byte :: digitsOf 20 (- n) else digitsOf 20 n.

(** Two byte sequences of one length that agree at every position
    outside [[lo, hi)]. *)
Definition agree_outside (lo hi : Z) (a b : list byte) : Prop :=
  len a = len b
  /\ forall i, 0 <= i -> ~ (lo <= i < hi) ->
       nth (Z.to_nat i) a x00 = nth (Z.to_nat i) b x00.

(** Two destinations of one type: the same kinds, and for records the
    same field names in the same order, whatever the values. *)
Inductive sameShape : gval -> gval -> Prop :=
| shape_int k n m : sameShape (VInt k n) (VInt k m)
| shape_uint k n m : sameShape (VUint k n) (VUint k m)
| shape_float k x y : sameShape (VFloat k x) (VFloat k y)
| shape_bool a b : sameShape (VBool a) (VBool b)
| shape_string s t : sameShape (VString s) (VString t)
| shape_iface x y : sameShape (VIface x) (VIface y)
| shape_struct fs fs' :
    sameFields fs fs' -> sameShape (VStruct fs) (VStruct fs')
| shape_other : sameShape VOther VOther

with sameFields
  : list (list byte * gval) -> list (list byte * gval) -> Prop :=
| fields_nil : sameFields [] []
| fields_cons name f f' fs fs' :
    sameShape f f' -> sameFields fs fs' ->
    sameFields ((name, f) :: fs) ((name, f') :: fs').

(** Two outcomes of the object consumer that differ at most in the
    values its destination holds. *)
Definition alike (r1 r2 : go (gval * Z * option error)) : Prop :=
  match r1, r2 with
  | Ret (a, o, e), Ret (a', o', e') => sameShape a a' /\ o = o' /\ e = e'
  | Panic p, Panic p' => p = p'
  | Diverge, Diverge => True
  | _, _ => False
  end.

(** * Properties *)

(** ** The monad and the buffer primitives *)

Lemma bind_Ret {A B : Type} (c : go A) (k : A -> go B) (r : B) :
  bind c k = Ret r -> exists a, c = Ret a /\ k a = Ret r.
Proof.
  destruct c as [a | p | ]; simpl; intros H; try discriminate.
  exists a; split; [reflexivity | exact H].
Qed.

Lemma outcome_Ret {A : Type} (r : go (A * Z * option error)) o e :
  outcome r = Ret (o, e) -> exists a, r = Ret (a, o, e).
Proof.
  unfold outcome; intros H; apply bind_Ret in H.
  destruct H as [[[a o'] e'] [Hr H]]; inversion H; subst; eauto.
Qed.

Lemma slice_Ret data lo hi s :
  slice data lo hi = Ret s ->
  0 <= lo <= hi /\ hi <= len data
  /\ s = firstn (Z.to_nat (hi - lo)) (skipn (Z.to_nat lo) data).
Proof.
  unfold slice.
  destruct (0 <=? lo) eqn:H1, (lo <=? hi) eqn:H2, (hi <=? len data) eqn:H3;
    simpl; intros H; inversion H; subst.
  repeat split; try reflexivity; lia.
Qed.

Lemma index_Ret data i c :
  index data i = Ret c ->
  0 <= i < len data /\ c = nth (Z.to_nat i) data x00.
Proof.
  unfold index.
  destruct (0 <=? i) eqn:H1, (i <? len data) eqn:H2;
    simpl; intros H; inversion H; subst.
  repeat split; try reflexivity; lia.
Qed.

Lemma index_in_range data i :
  0 <= i < len data -> index data i = Ret (nth (Z.to_nat i) data x00).
Proof.
  intros H; unfold index.
  destruct (0 <=? i) eqn:H1, (i <? len data) eqn:H2; simpl; try reflexivity; lia.
Qed.

Lemma byte_eqb_eq (a b : byte) : Byte.eqb a b = true <-> a = b.
Proof.
  split.
  - apply Byte.byte_dec_bl.
  - apply Byte.byte_dec_lb.
Qed.

Lemma byte_eqb_neq (a b : byte) : Byte.eqb a b = false <-> a <> b.
Proof.
  split.
  - intros H Heq; apply byte_eqb_eq in Heq; congruence.
  - intros H; destruct (Byte.eqb a b) eqn:Hab; [ | reflexivity].
    apply byte_eqb_eq in Hab; contradiction.
Qed.

Lemma checkType_true data c offset :
  checkType data c offset = true ->
  0 <= offset < len data /\ nth (Z.to_nat offset) data x00 = c.
Proof.
  unfold checkType; intros H.
  apply andb_prop in H; destruct H as [H H3].
  apply andb_prop in H; destruct H as [H1 H2].
  apply byte_eqb_eq in H3; split; [lia | exact H3].
Qed.

Lemma checkType_tag data c offset :
  0 <= offset < len data -> nth (Z.to_nat offset) data x00 = c ->
  checkType data c offset = true.
Proof.
  intros H Hc; unfold checkType.
  apply andb_true_intro; split; [apply andb_true_intro; split | ];
    [lia | lia | now apply byte_eqb_eq].
Qed.

(** [findFrom] returns the sentinel, or the position of the first
    occurrence. *)
Lemma findFrom_spec l b pos :
  0 <= pos ->
  let r := findFrom l b pos in
  (r = -1 /\ forall i, (i < List.length l)%nat -> nth i l x00 <> b)
  \/ (pos <= r < pos + Z.of_nat (List.length l)
      /\ nth (Z.to_nat (r - pos)) l x00 = b
      /\ forall i, (i < Z.to_nat (r - pos))%nat -> nth i l x00 <> b).
Proof.
  revert pos; induction l as [ | c l IH]; intros pos Hpos; simpl.
  - left; split; [reflexivity | intros i Hi; inversion Hi].
  - destruct (Byte.eqb c b) eqn:Hcb.
    + right. split; [lia | ].
      rewrite Z.sub_diag; simpl; split; [now apply byte_eqb_eq | ].
      intros i Hi; inversion Hi.
    + apply byte_eqb_neq in Hcb.
      destruct (IH (pos + 1) ltac:(lia)) as [[Hr Hall] | [Hr [Hat Hbefore]]].
      * left; split; [exact Hr | ].
        intros [ | i] Hi; simpl; [exact Hcb | apply Hall; lia].
      * right.
        assert (Hk : Z.to_nat (findFrom l b (pos + 1) - pos)
                     = S (Z.to_nat (findFrom l b (pos + 1) - (pos + 1))))
          by lia.
        rewrite Hk; simpl. split; [lia | split; [exact Hat | ]].
        intros [ | i] Hi; [exact Hcb | apply Hbefore; lia].
Qed.

Lemma findByte_spec data b offset :
  let r := findByte data b offset in
  (r = -1
   /\ (0 <= offset ->
       forall i, offset <= i < len data -> nth (Z.to_nat i) data x00 <> b))
  \/ (0 <= offset <= r /\ r < len data
      /\ nth (Z.to_nat r) data x00 = b
      /\ forall i, offset <= i < r -> nth (Z.to_nat i) data x00 <> b).
Proof.
  unfold findByte.
  destruct (0 <=? offset) eqn:H0; simpl;
    [ | left; split; [reflexivity | lia]].
  destruct (offset <? len data) eqn:H1; simpl;
    [ | left; split; [reflexivity | lia]].
  apply Z.leb_le in H0; apply Z.ltb_lt in H1. unfold len in *.
  pose proof (findFrom_spec (skipn (Z.to_nat offset) data) b offset H0) as H.
  simpl in H. rewrite length_skipn in H.
  destruct H as [[Hr Hall] | [Hr [Hat Hbefore]]].
  - left; split; [exact Hr | ]. intros _ i Hi.
    specialize (Hall (Z.to_nat (i - offset)) ltac:(lia)).
    rewrite nth_skipn in Hall.
    replace (Z.to_nat offset + Z.to_nat (i - offset))%nat
      with (Z.to_nat i) in Hall by lia.
    exact Hall.
  - right. rewrite nth_skipn in Hat.
    replace (Z.to_nat offset + Z.to_nat (findFrom (skipn (Z.to_nat offset) data) b offset - offset))%nat
      with (Z.to_nat (findFrom (skipn (Z.to_nat offset) data) b offset)) in Hat by lia.
    repeat split; try lia; try exact Hat.
    intros i Hi.
    specialize (Hbefore (Z.to_nat (i - offset)) ltac:(lia)).
    rewrite nth_skipn in Hbefore.
    replace (Z.to_nat offset + Z.to_nat (i - offset))%nat
      with (Z.to_nat i) in Hbefore by lia.
    exact Hbefore.
Qed.

Ltac inv_bind H :=
  let a := fresh "a" in
  let Ha := fresh "Ha" in
  apply bind_Ret in H; destruct H as [a [Ha H]].

Ltac inv_Ret H := inversion H; subst; clear H.

Lemma Atoi_nil : Atoi [] = (0, Some (NumError (bytes "Atoi") [] ErrSyntax)).
Proof. reflexivity. Qed.

Lemma consumeStringUntilByte_Ret data b offset s n :
  consumeStringUntilByte data b offset = Ret (s, n) ->
  (n = -1 /\ s = [])
  \/ (0 <= offset <= n /\ n < len data /\ n = findByte data b offset
      /\ slice data offset n = Ret s).
Proof.
  unfold consumeStringUntilByte.
  destruct (findByte data b offset <? 0) eqn:Hneg.
  - intros H; inv_Ret H; left; split; reflexivity.
  - intros H; inv_bind H. inv_Ret H.
    apply Z.ltb_ge in Hneg.
    pose proof (findByte_spec data b offset) as Hf; simpl in Hf.
    destruct Hf as [[Hr _] | [H1 [H2 _]]]; [lia | ].
    right; repeat split; try lia; exact Ha.
Qed.

Lemma consumeIntPart_sound data offset x o e :
  consumeIntPart data offset = Ret (x, o, e) -> sound_result data offset o e.
Proof.
  unfold consumeIntPart; intros H; inv_bind H.
  destruct a as [rawValue newOffset].
  apply consumeStringUntilByte_Ret in Ha.
  destruct Ha as [[Hn Hs] | [H1 [H2 _]]].
  - subst; rewrite Atoi_nil in H; inv_Ret H; reflexivity.
  - destruct (Atoi rawValue) as [value [err | ]]; inv_Ret H; simpl; lia.
Qed.

Lemma consumeIntPart_ok data offset x o :
  consumeIntPart data offset = Ret (x, o, None) ->
  0 <= offset < o /\ o <= len data
  /\ findByte data ":" offset = o - 1
  /\ exists rawValue, slice data offset (o - 1) = Ret rawValue
                      /\ Atoi rawValue = (x, None).
Proof.
  unfold consumeIntPart; intros H; inv_bind H.
  destruct a as [rawValue newOffset].
  apply consumeStringUntilByte_Ret in Ha.
  destruct Ha as [[Hn Hs] | [H1 [H2 [H3 H4]]]].
  - subst; rewrite Atoi_nil in H; inv_Ret H.
  - destruct (Atoi rawValue) as [value [err | ]] eqn:HA; inv_Ret H.
    rewrite !Z.add_simpl_r.
    repeat split; try lia. exists rawValue; split; [exact H4 | exact HA].
Qed.

Section ConsumerFacts.

Variable E : Externals.

Lemma consumeStringRealPart_ok data offset s o :
  consumeStringRealPart E data offset = Ret (s, o, None) ->
  exists length newOffset text,
    consumeIntPart data offset = Ret (length, newOffset, None)
    /\ DecodePHPString E data = Some text
    /\ slice text (newOffset + 1) (newOffset + 1 + length) = Ret s
    /\ o = newOffset + 1 + length + 2.
Proof.
  unfold consumeStringRealPart; intros H.
  destruct (consumeIntPart data offset)
    as [[[length newOffset] [e | ]] | p | ] eqn:Hi; simpl in H;
    try discriminate.
  destruct (DecodePHPString E data) as [text | ] eqn:Hd; simpl in H;
    try discriminate.
  destruct (slice text (newOffset + 1) (newOffset + 1 + length))
    as [sub | p | ] eqn:Hs; simpl in H; try discriminate.
  inv_Ret H. exists length, newOffset, text; repeat split; assumption.
Qed.

Lemma consumeStringRealPart_sound data offset s o e :
  consumeStringRealPart E data offset = Ret (s, o, e) ->
  sound_result data offset o e.
Proof.
  destruct e as [e | ]; intros H.
  - unfold consumeStringRealPart in H.
    destruct (consumeIntPart data offset)
      as [[[length newOffset] [e' | ]] | p | ] eqn:Hi; simpl in H;
      try discriminate.
    + inv_Ret H; reflexivity.
    + destruct (DecodePHPString E data) as [text | ]; simpl in H;
        try discriminate.
      destruct (slice text (newOffset + 1) (newOffset + 1 + length));
        simpl in H; discriminate.
  - apply consumeStringRealPart_ok in H.
    destruct H as [length [newOffset [text [Hi [_ [Hs Ho]]]]]].
    apply consumeIntPart_ok in Hi. apply slice_Ret in Hs. simpl; lia.
Qed.

Lemma consumeString_sound data offset s o e :
  consumeString E data offset = Ret (s, o, e) -> sound_result data offset o e.
Proof.
  unfold consumeString.
  destruct (checkType data "s" offset) eqn:Hc; simpl; intros H.
  - apply checkType_true in Hc.
    apply consumeStringRealPart_sound in H.
    destruct e; simpl in *; lia.
  - inv_Ret H; reflexivity.
Qed.

Lemma consumeNil_sound data offset x o e :
  consumeNil data offset = Ret (x, o, e) -> sound_result data offset o e.
Proof.
  unfold consumeNil.
  destruct (checkType data "N" offset) eqn:Hc; simpl; intros H; inv_Ret H.
  - apply checkType_true in Hc; simpl; lia.
  - reflexivity.
Qed.

Lemma consumeBool_sound data offset x o e :
  consumeBool data offset = Ret (x, o, e) -> sound_result data offset o e.
Proof.
  unfold consumeBool.
  destruct (checkType data "b" offset) eqn:Hc; simpl; intros H.
  - inv_bind H; inv_Ret H. apply checkType_true in Hc; simpl; lia.
  - inv_Ret H; reflexivity.
Qed.

Lemma consumeInt_sound data offset x o e :
  consumeInt data offset = Ret (x, o, e) -> sound_result data offset o e.
Proof.
  unfold consumeInt.
  destruct (checkType data "i" offset) eqn:Hc; simpl; intros H.
  - inv_bind H. destruct a as [alphaNumber newOffset].
    apply checkType_true in Hc.
    apply consumeStringUntilByte_Ret in Ha.
    destruct Ha as [[Hn Hs] | [H1 [H2 _]]].
    + subst; rewrite Atoi_nil in H; inv_Ret H; reflexivity.
    + destruct (Atoi alphaNumber) as [i [err | ]]; inv_Ret H; simpl; lia.
  - inv_Ret H; reflexivity.
Qed.

Lemma consumeFloat_sound data offset x o e :
  consumeFloat E data offset = Ret (x, o, e) -> sound_result data offset o e.
Proof.
  unfold consumeFloat.
  destruct (checkType data "d" offset) eqn:Hc; simpl; intros H.
  - inv_bind H. destruct a as [alphaNumber newOffset].
    apply checkType_true in Hc.
    apply consumeStringUntilByte_Ret in Ha.
    destruct Ha as [[Hn Hs] | [H1 [H2 _]]].
    + subst. pose proof (ParseFloat_empty E) as Hnil.
      destruct (ParseFloat E []) as [v [err | ]]; inv_Ret H; simpl.
      * reflexivity.
      * now elim Hnil.
    + destruct (ParseFloat E alphaNumber) as [v [err | ]]; inv_Ret H; simpl; lia.
  - inv_Ret H; reflexivity.
Qed.

(** None of the consumers without recursion can run out of fuel. *)
Ltac case_match :=
  match goal with
  | |- context [match ?x with _ => _ end] => destruct x eqn:?; simpl
  | |- context [if ?x then _ else _] => destruct x eqn:?; simpl
  end.

Lemma bind_halts {A B : Type} (c : go A) (k : A -> go B) :
  c <> Diverge -> (forall a, c = Ret a -> k a <> Diverge) ->
  bind c k <> Diverge.
Proof.
  destruct c as [a | p | ]; simpl; intros Hc Hk;
    [now apply Hk | discriminate | contradiction].
Qed.

Lemma slice_halts data lo hi : slice data lo hi <> Diverge.
Proof. unfold slice; case_match; discriminate. Qed.

Lemma index_halts data i : index data i <> Diverge.
Proof. unfold index; case_match; discriminate. Qed.

Lemma lift_halts {A : Type} (r : option A) : lift r <> Diverge.
Proof. destruct r; discriminate. Qed.

Lemma consumeStringUntilByte_halts data b offset :
  consumeStringUntilByte data b offset <> Diverge.
Proof.
  unfold consumeStringUntilByte. case_match; [discriminate | ].
  apply bind_halts; [apply slice_halts | discriminate].
Qed.

Lemma consumeIntPart_halts data offset : consumeIntPart data offset <> Diverge.
Proof.
  unfold consumeIntPart.
  apply bind_halts; [apply consumeStringUntilByte_halts | ].
  intros [rawValue newOffset] _.
  destruct (Atoi rawValue) as [x [e | ]]; discriminate.
Qed.

Lemma consumeStringRealPart_halts data offset :
  consumeStringRealPart E data offset <> Diverge.
Proof.
  unfold consumeStringRealPart.
  apply bind_halts; [apply consumeIntPart_halts | ].
  intros [[length newOffset] [e | ]] _; [discriminate | ].
  apply bind_halts; [apply lift_halts | intros text _].
  apply bind_halts; [apply slice_halts | discriminate].
Qed.

Lemma consumeString_halts data offset : consumeString E data offset <> Diverge.
Proof.
  unfold consumeString; case_match;
    [discriminate | apply consumeStringRealPart_halts].
Qed.

Lemma consumeNil_halts data offset : consumeNil data offset <> Diverge.
Proof. unfold consumeNil; case_match; discriminate. Qed.

Lemma consumeBool_halts data offset : consumeBool data offset <> Diverge.
Proof.
  unfold consumeBool; case_match; [discriminate | ].
  apply bind_halts; [apply index_halts | discriminate].
Qed.

Lemma consumeInt_halts data offset : consumeInt data offset <> Diverge.
Proof.
  unfold consumeInt; case_match; [discriminate | ].
  apply bind_halts; [apply consumeStringUntilByte_halts | ].
  intros [alphaNumber newOffset] _.
  destruct (Atoi alphaNumber) as [x [e | ]]; discriminate.
Qed.

Lemma consumeFloat_halts data offset : consumeFloat E data offset <> Diverge.
Proof.
  unfold consumeFloat; case_match; [discriminate | ].
  apply bind_halts; [apply consumeStringUntilByte_halts | ].
  intros [alphaNumber newOffset] _.
  destruct (ParseFloat E alphaNumber) as [x [e | ]]; discriminate.
Qed.

Lemma boxed_halts {A : Type} (box : A -> decoded) r :
  r <> Diverge -> boxed box r <> Diverge.
Proof.
  intros Hr; unfold boxed; apply bind_halts; [exact Hr | ].
  intros [[a o] e] _; discriminate.
Qed.

Lemma consumeNext_halts data offset : consumeNext E data offset <> Diverge.
Proof.
  unfold consumeNext; case_match; [discriminate | ].
  apply bind_halts; [apply index_halts | intros tag _].
  repeat case_match;
    try (apply boxed_halts);
    auto using consumeBool_halts, consumeFloat_halts, consumeInt_halts,
      consumeString_halts, consumeNil_halts.
  apply bind_halts; [apply slice_halts | discriminate].
Qed.

Lemma setField_halts f value : setField f value <> Diverge.
Proof.
  destruct f as [k n | k n | [ | ] x | b | s | x | fs | ], value;
    simpl; discriminate.
Qed.

Lemma boxed_sound {A : Type} (box : A -> decoded) r data offset x o e :
  (forall a o' e', r = Ret (a, o', e') -> sound_result data offset o' e') ->
  boxed box r = Ret (x, o, e) -> sound_result data offset o e.
Proof.
  intros Hr H; unfold boxed in H.
  destruct r as [[[a o'] e'] | p | ]; simpl in H; try discriminate.
  inv_Ret H. eapply Hr; reflexivity.
Qed.

Lemma consumeNext_sound data offset x o e :
  consumeNext E data offset = Ret (x, o, e) -> sound_result data offset o e.
Proof.
  unfold consumeNext.
  destruct (len data <=? offset); [intros H; inv_Ret H; reflexivity | ].
  destruct (index data offset) as [tag | p | ]; simpl; try discriminate.
  destruct (Byte.eqb tag "b");
    [apply boxed_sound; intros a o' e'; apply consumeBool_sound | ].
  destruct (Byte.eqb tag "d");
    [apply boxed_sound; intros a o' e'; apply consumeFloat_sound | ].
  destruct (Byte.eqb tag "i");
    [apply boxed_sound; intros a o' e'; apply consumeInt_sound | ].
  destruct (Byte.eqb tag "s");
    [apply boxed_sound; intros a o' e'; apply consumeString_sound | ].
  destruct (Byte.eqb tag "N"); [apply consumeNil_sound | ].
  destruct (slice_from data offset); simpl; intros H; inv_Ret H; reflexivity.
Qed.

(** The two recursive functions, one step unfolded. *)
Lemma consumeObjectFuel_S fuel data offset v :
  consumeObjectFuel E (S fuel) data offset v =
  if negb (checkType data "O" offset)
  then Ret (v, -1, Some (errorString (bytes "not an object")))
  else
    '(_, offset, err) <- consumeStringRealPart E data (offset + 2) ;;
    match err with
    | Some e => Ret (v, -1, Some e)
    | None =>
        '(length, offset, err) <- consumeIntPart data offset ;;
        match err with
        | Some e => Ret (v, -1, Some e)
        | None => elements E fuel data 0 length (offset + 1) v
        end
    end.
Proof. reflexivity. Qed.

Lemma elements_S fuel data i length offset v :
  elements E (S fuel) data i length offset v =
  if i <? length then
    '(key, offset, err) <- consumeString E data offset ;;
    match err with
    | Some e => Ret (v, -1, Some e)
    | None =>
        name <- lift (upperCaseFirstLetter E key) ;;
        field <- FieldByName v name ;;
        pairValue E fuel data i length offset v name field
    end
  else Ret (v, offset + 1, None).
Proof. reflexivity. Qed.

Lemma sound_forward data offset o e :
  sound_result data offset o e -> forward offset o e.
Proof. destruct e; simpl; [auto | lia]. Qed.

Lemma object_forward fuel :
  (forall data offset v v' o e,
      consumeObjectFuel E fuel data offset v = Ret (v', o, e) ->
      sound_result data offset o e)
  /\ (forall data i length offset v v' o e,
         elements E fuel data i length offset v = Ret (v', o, e) ->
         forward offset o e).
Proof.
  induction fuel as [ | fuel [IHo IHe]]; [split; intros; discriminate | ].
  split.
  - intros data offset v v' o e; rewrite consumeObjectFuel_S.
    destruct (checkType data "O" offset) eqn:Hc; simpl;
      [ | intros H; inv_Ret H; reflexivity].
    apply checkType_true in Hc.
    destruct (consumeStringRealPart E data (offset + 2))
      as [[[cls o1] [e1 | ]] | p | ] eqn:Hcls; simpl; try discriminate;
      [intros H; inv_Ret H; reflexivity | ].
    apply consumeStringRealPart_sound in Hcls; simpl in Hcls.
    destruct (consumeIntPart data o1)
      as [[[length o2] [e2 | ]] | p | ] eqn:Hcnt; simpl; try discriminate;
      [intros H; inv_Ret H; reflexivity | ].
    apply consumeIntPart_sound in Hcnt; simpl in Hcnt.
    intros H; apply IHe in H. destruct e; simpl in *; lia.
  - intros data i length offset v v' o e; rewrite elements_S.
    destruct (i <? length); [ | intros H; inv_Ret H; simpl; lia].
    destruct (consumeString E data offset)
      as [[[key o1] [e1 | ]] | p | ] eqn:Hkey; simpl; try discriminate;
      [intros H; inv_Ret H; reflexivity | ].
    apply consumeString_sound in Hkey; simpl in Hkey.
    destruct (upperCaseFirstLetter E key) as [name | ]; simpl;
      try discriminate.
    destruct (FieldByName v name) as [field | p | ]; simpl; try discriminate.
    unfold pairValue.
    destruct (index data o1) as [tag | p | ]; simpl; try discriminate.
    destruct (Byte.eqb tag "O").
    + destruct (consumeObjectFuel E fuel data o1
                  match field with Some f => f | None => dummyObject end)
        as [[[subV' o2] [e2 | ]] | p | ] eqn:Hsub; simpl; try discriminate;
        [intros H; inv_Ret H; reflexivity | ].
      apply IHo in Hsub; simpl in Hsub.
      intros H; apply IHe in H. destruct e; simpl in *; lia.
    + destruct (consumeNext E data o1)
        as [[[value o2] [e2 | ]] | p | ] eqn:Hval; simpl; try discriminate;
        [intros H; inv_Ret H; reflexivity | ].
      apply consumeNext_sound in Hval; simpl in Hval.
      destruct field as [f | ].
      * destruct (setField f value) as [f' | p | ]; simpl; try discriminate.
        intros H; apply IHe in H. destruct e; simpl in *; lia.
      * intros H; apply IHe in H. destruct e; simpl in *; lia.
Qed.

Lemma consumeObject_sound data offset v v' o e :
  consumeObject E data offset v = Ret (v', o, e) -> sound_result data offset o e.
Proof. apply object_forward. Qed.

(** [consumeObject] returns or panics: the fuel it is given is enough. *)
Lemma object_fuel_enough fuel :
  (forall data offset v,
      len data - offset < Z.of_nat fuel -> (0 < fuel)%nat ->
      consumeObjectFuel E fuel data offset v <> Diverge)
  /\ (forall data i length offset v,
         len data - offset < Z.of_nat fuel -> (0 < fuel)%nat ->
         elements E fuel data i length offset v <> Diverge).
Proof.
  induction fuel as [ | fuel [IHo IHe]]; [split; intros; lia | ].
  split.
  - intros data offset v Hfuel _; rewrite consumeObjectFuel_S.
    destruct (checkType data "O" offset) eqn:Hc; simpl; [ | discriminate].
    apply checkType_true in Hc.
    apply bind_halts; [apply consumeStringRealPart_halts | ].
    intros [[cls o1] [e1 | ]] Hcls; [discriminate | ].
    apply consumeStringRealPart_sound in Hcls; simpl in Hcls.
    apply bind_halts; [apply consumeIntPart_halts | ].
    intros [[length o2] [e2 | ]] Hcnt; [discriminate | ].
    apply consumeIntPart_sound in Hcnt; simpl in Hcnt.
    apply IHe; lia.
  - intros data i length offset v Hfuel _; rewrite elements_S.
    destruct (i <? length); [ | discriminate].
    apply bind_halts; [apply consumeString_halts | ].
    intros [[key o1] [e1 | ]] Hkey; [discriminate | ].
    apply consumeString_sound in Hkey; simpl in Hkey.
    apply bind_halts; [apply lift_halts | intros name _].
    apply bind_halts; [destruct v; discriminate | intros field _].
    unfold pairValue.
    apply bind_halts; [apply index_halts | intros tag _].
    destruct (Byte.eqb tag "O").
    + apply bind_halts; [apply IHo; lia | ].
      intros [[subV' o2] [e2 | ]] Hsub; [discriminate | ].
      apply object_forward in Hsub; simpl in Hsub.
      apply IHe; lia.
    + apply bind_halts; [apply consumeNext_halts | ].
      intros [[value o2] [e2 | ]] Hval; [discriminate | ].
      apply consumeNext_sound in Hval; simpl in Hval.
      destruct field as [f | ]; [ | apply IHe; lia].
      apply bind_halts; [apply setField_halts | intros f' _].
      apply IHe; lia.
Qed.

Lemma consumeObject_returns data offset v :
  consumeObject E data offset v <> Diverge.
Proof.
  unfold consumeObject.
  destruct (Z_lt_dec offset 0) as [Hneg | Hpos].
  - rewrite consumeObjectFuel_S.
    destruct (checkType data "O" offset) eqn:Hc; simpl; [ | discriminate].
    apply checkType_true in Hc; lia.
  - apply object_fuel_enough; unfold len; lia.
Qed.

End ConsumerFacts.

Lemma run_sound E c data offset o e :
  run E c data offset = Ret (o, e) -> sound_result data offset o e.
Proof.
  destruct c; simpl; intros H; apply outcome_Ret in H; destruct H as [a H].
  - eapply consumeNil_sound; eassumption.
  - eapply consumeBool_sound; eassumption.
  - eapply consumeInt_sound; eassumption.
  - eapply consumeFloat_sound; eassumption.
  - eapply consumeString_sound; eassumption.
  - eapply consumeNext_sound; eassumption.
  - eapply consumeIntPart_sound; eassumption.
  - eapply consumeStringRealPart_sound; eassumption.
  - eapply consumeObject_sound; eassumption.
Qed.

(** C7 (amended).  Whenever a consumer returns an error, the offset it
    returns with it is the sentinel [-1]. *)
Theorem error_offset_is_sentinel E c data offset newOffset err :
  run E c data offset = Ret (newOffset, Some err) -> newOffset = -1.
Proof. intros H; apply run_sound in H; exact H. Qed.

Lemma error_offset_is_sentinel_witness :
  run reference CInt (bytes "x:1;") 0
  = Ret (-1, Some (errorString (bytes "not an integer")))
  /\ -1 = -1.
Proof.
  split; [reflexivity | ].
  exact (error_offset_is_sentinel reference CInt (bytes "x:1;") 0 (-1)
           (errorString (bytes "not an integer")) eq_refl).
Defined.

(** C7, as stated, fails: on the two-byte buffer [b:] the boolean
    consumer passes the tag test and indexes [data[2]]; it panics and
    returns nothing. *)
Lemma failure_by_panic :
  consumeBool (bytes "b:") 0 = Panic IndexOutOfRange
  /\ forall r, run reference CBool (bytes "b:") 0 <> Ret r.
Proof. split; [reflexivity | intros r; discriminate]. Qed.

(** C8.  Whenever a consumer returns without an error, the offset it
    returns is strictly greater than the one it started from. *)
Theorem offsets_move_forward E c data offset newOffset :
  run E c data offset = Ret (newOffset, None) -> offset < newOffset.
Proof. intros H; apply run_sound in H; simpl in H; lia. Qed.

Lemma offsets_move_forward_witness :
  run reference CString (wire "s:5:'hello';") 0 = Ret (12, None) /\ 0 < 12.
Proof.
  split; [reflexivity | ].
  exact (offsets_move_forward reference CString (wire "s:5:'hello';") 0 12
           eq_refl).
Defined.

Lemma slice_from_in_range data offset :
  0 <= offset <= len data ->
  slice_from data offset = Ret (skipn (Z.to_nat offset) data).
Proof.
  intros H; unfold slice_from, slice.
  destruct (0 <=? offset) eqn:H1; [ | lia].
  destruct (offset <=? len data) eqn:H2; [ | lia].
  rewrite Z.leb_refl; simpl. f_equal.
  apply firstn_all2. rewrite length_skipn. unfold len; lia.
Qed.

(** Before the buffer there is no tag byte: [data[offset]] panics.  No
    caller passes such an offset. *)
Lemma consumeNext_before_buffer E data offset :
  offset < 0 -> consumeNext E data offset = Panic IndexOutOfRange.
Proof.
  intros H; unfold consumeNext, index.
  destruct (len data <=? offset) eqn:Hl;
    [apply Z.leb_le in Hl; unfold len in Hl; lia | ].
  destruct (0 <=? offset) eqn:H0; [apply Z.leb_le in H0; lia | reflexivity].
Qed.

(** C5.  [consumeNext] fails with the corrupt-stream error when the
    offset is at or past the end of the buffer.  At an offset inside the
    buffer it returns exactly what the consumer of the tag byte returns
    when that byte is one of N, b, i, d, s, and otherwise fails with the
    unsupported-tag error, whose message ends with the buffer from the
    tag on. *)
Theorem consumeNext_dispatch E data offset :
  (len data <= offset ->
   consumeNext E data offset
   = Ret (DNil, -1, Some (errorString (bytes "corrupt"))))
  /\ (0 <= offset < len data ->
      let tag := nth (Z.to_nat offset) data x00 in
      (tag = "N"%byte -> consumeNext E data offset = consumeNil data offset)
      /\ (tag = "b"%byte ->
          consumeNext E data offset = boxed DBool (consumeBool data offset))
      /\ (tag = "i"%byte ->
          consumeNext E data offset = boxed DInt (consumeInt data offset))
      /\ (tag = "d"%byte ->
          consumeNext E data offset = boxed DFloat (consumeFloat E data offset))
      /\ (tag = "s"%byte ->
          consumeNext E data offset
          = boxed DString (consumeString E data offset))
      /\ (tag <> "N"%byte -> tag <> "b"%byte -> tag <> "i"%byte ->
          tag <> "d"%byte -> tag <> "s"%byte ->
          consumeNext E data offset
          = Ret (DNil, -1,
                 Some (errorString (bytes "can not consume type: "
                                    ++ skipn (Z.to_nat offset) data))))).
Proof.
  split.
  - intros H; unfold consumeNext.
    destruct (len data <=? offset) eqn:Hl; [reflexivity | lia].
  - intros H tag; unfold consumeNext.
    destruct (len data <=? offset) eqn:Hl; [lia | ].
    rewrite (index_in_range data offset H); simpl. fold tag.
    repeat split.
    + intros Ht; rewrite Ht; reflexivity.
    + intros Ht; rewrite Ht; reflexivity.
    + intros Ht; rewrite Ht; reflexivity.
    + intros Ht; rewrite Ht; reflexivity.
    + intros Ht; rewrite Ht; reflexivity.
    + intros HN Hb Hi Hd Hs.
      apply byte_eqb_neq in HN, Hb, Hi, Hd, Hs.
      rewrite HN, Hb, Hi, Hd, Hs.
      rewrite slice_from_in_range by lia. reflexivity.
Qed.

Lemma consumeNext_dispatch_witness :
  consumeNext reference (bytes "i:7;") 4
  = Ret (DNil, -1, Some (errorString (bytes "corrupt")))
  /\ consumeNext reference (wire "a:0:{}") 0
     = Ret (DNil, -1, Some (errorString (bytes "can not consume type: a:0:{}")))
  /\ consumeNext reference (bytes "i:7;") 0 = Ret (DInt 7, 4, None).
Proof.
  destruct (consumeNext_dispatch reference (bytes "i:7;") 4) as [Hpast _].
  destruct (consumeNext_dispatch reference (wire "a:0:{}") 0) as [_ Hin].
  destruct (Hin ltac:(vm_compute; split; [discriminate | reflexivity]))
    as [_ [_ [_ [_ [_ Hbad]]]]].
  destruct (consumeNext_dispatch reference (bytes "i:7;") 0) as [_ Hin'].
  destruct (Hin' ltac:(vm_compute; split; [discriminate | reflexivity]))
    as [_ [_ [Hint _]]].
  split; [ | split].
  - apply Hpast; vm_compute; discriminate.
  - apply Hbad; vm_compute; discriminate.
  - rewrite Hint; reflexivity.
Defined.

(** C6.  Valid literals decode to their value and exact offset: [i:42;]
    to 42 and offset 5, [d:3.5;] to 3.5, [b:1;] to true and offset 4,
    [N;] to null and offset 2, and the string literal of [hello] to the
    five-byte text and offset 12, one past its semicolon.  The float and
    the text are what the two parameters make of the literal [3.5] and
    of an escape-free buffer. *)
Theorem scalar_literals E :
  ParseFloat E (bytes "3.5") = (3.5%float, None) ->
  DecodePHPString E (wire "s:5:'hello';") = Some (wire "s:5:'hello';") ->
  consumeInt (bytes "i:42;") 0 = Ret (42, 5, None)
  /\ consumeFloat E (bytes "d:3.5;") 0 = Ret (3.5%float, 6, None)
  /\ consumeBool (bytes "b:1;") 0 = Ret (true, 4, None)
  /\ consumeNil (bytes "N;") 0 = Ret (DNil, 2, None)
  /\ consumeString E (wire "s:5:'hello';") 0 = Ret (bytes "hello", 12, None)
  /\ len (bytes "hello") = 5
  /\ len (wire "s:5:'hello';") = 12.
Proof.
  intros Hfloat Hdecode.
  repeat split; try reflexivity.
  - unfold consumeFloat.
    change (checkType (bytes "d:3.5;") "d" 0) with true.
    change (consumeStringUntilByte (bytes "d:3.5;") ";" (0 + 2))
      with (Ret (bytes "3.5", 5)).
    simpl. rewrite Hfloat. reflexivity.
  - unfold consumeString, consumeStringRealPart.
    change (checkType (wire "s:5:'hello';") "s" 0) with true.
    change (consumeIntPart (wire "s:5:'hello';") (0 + 2))
      with (Ret (5, 4, @None error)).
    simpl bind. rewrite Hdecode. reflexivity.
Qed.

Lemma scalar_literals_witness :
  consumeFloat reference (bytes "d:3.5;") 0 = Ret (3.5%float, 6, None)
  /\ consumeString reference (wire "s:5:'hello';") 0
     = Ret (bytes "hello", 12, None).
Proof.
  destruct (scalar_literals reference eq_refl eq_refl)
    as [_ [Hf [_ [_ [Hs _]]]]].
  split; [exact Hf | exact Hs].
Defined.

(** C9.  [consumeStringRealPart] has inputs on which it neither succeeds
    nor returns its error: when the count field parses and the declared
    length is negative, or reaches past the end of the decoded text, the
    slice expression is out of range and the call panics. *)
Theorem string_slice_out_of_range E data offset length newOffset text :
  consumeIntPart data offset = Ret (length, newOffset, None) ->
  DecodePHPString E data = Some text ->
  length < 0 \/ len text < newOffset + 1 + length ->
  consumeStringRealPart E data offset = Panic SliceBoundsOutOfRange.
Proof.
  intros Hcount Hdecode Hlen. unfold consumeStringRealPart.
  rewrite Hcount; simpl. rewrite Hdecode; simpl.
  unfold slice.
  destruct ((0 <=? newOffset + 1) && (newOffset + 1 <=? newOffset + 1 + length)
            && (newOffset + 1 + length <=? len text)) eqn:Hb; [ | reflexivity].
  apply andb_prop in Hb; destruct Hb as [Hb H3].
  apply andb_prop in Hb; destruct Hb as [H1 H2]. lia.
Qed.

Lemma string_slice_out_of_range_witness :
  consumeStringRealPart reference (wire "9:'ab';") 0
  = Panic SliceBoundsOutOfRange
  /\ consumeStringRealPart reference (wire "-1:'ab';") 0
     = Panic SliceBoundsOutOfRange.
Proof.
  split.
  - apply (string_slice_out_of_range reference (wire "9:'ab';") 0 9 2
             (wire "9:'ab';")); [reflexivity | reflexivity | right].
    vm_compute; reflexivity.
  - apply (string_slice_out_of_range reference (wire "-1:'ab';") 0 (-1) 3
             (wire "-1:'ab';")); [reflexivity | reflexivity | left].
    lia.
Defined.

(** C3 (amended).  At an offset of a buffer with no [;] at or after
    [offset+2], the integer and the float consumer fail with a parse
    error and the sentinel offset. *)
Theorem truncated_number_rejected E data offset :
  0 <= offset ->
  (forall i, offset + 2 <= i < len data ->
     nth (Z.to_nat i) data x00 <> ";"%byte) ->
  (exists err, consumeInt data offset = Ret (0, -1, Some err))
  /\ (exists err, consumeFloat E data offset = Ret (0%float, -1, Some err)).
Proof.
  intros _ Hno.
  assert (Hfind : (findByte data ";" (offset + 2) <? 0) = true).
  { pose proof (findByte_spec data ";" (offset + 2)) as Hf; simpl in Hf.
    destruct Hf as [[Hr _] | [H1 [H2 [Hat _]]]].
    - rewrite Hr; reflexivity.
    - exfalso; apply (Hno (findByte data ";" (offset + 2))); [lia | exact Hat]. }
  split.
  - unfold consumeInt, consumeStringUntilByte.
    destruct (checkType data "i" offset); simpl; [ | eauto].
    rewrite Hfind; simpl. eauto.
  - unfold consumeFloat, consumeStringUntilByte.
    destruct (checkType data "d" offset); simpl; [ | eauto].
    rewrite Hfind; simpl.
    pose proof (ParseFloat_empty E) as Hnil.
    destruct (ParseFloat E []) as [x [err | ]]; [eauto | now elim Hnil].
Qed.

Lemma truncated_number_rejected_witness :
  (exists err, consumeInt (bytes "i:42") 0 = Ret (0, -1, Some err))
  /\ (exists err,
         consumeFloat reference (bytes "i:42") 0 = Ret (0%float, -1, Some err)).
Proof.
  apply (truncated_number_rejected reference (bytes "i:42") 0); [lia | ].
  intros i Hi. change (len (bytes "i:42")) with 4 in Hi.
  assert (Hcases : i = 2 \/ i = 3) by lia.
  destruct Hcases as [-> | ->]; vm_compute; discriminate.
Defined.

(** C3, as stated, fails: the null, boolean, text and object consumers
    advance by a computed width without looking for the terminator, and
    on a truncated buffer return success with an offset past its end. *)
Lemma truncated_accepted :
  (consumeNil (bytes "N") 0 = Ret (DNil, 2, None) /\ len (bytes "N") < 2)
  /\ (consumeBool (bytes "b:1") 0 = Ret (true, 4, None)
      /\ len (bytes "b:1") < 4)
  /\ (consumeString reference (wire "s:2:'he") 0 = Ret (bytes "he", 9, None)
      /\ len (wire "s:2:'he") < 9)
  /\ (run reference (CObject dummyObject) (wire "O:1:'P':0:") 0
      = Ret (12, None)
      /\ len (wire "O:1:'P':0:") < 12).
Proof. repeat split. Qed.

(** ** Writing a decoded value into a field *)

Lemma setField_storable field value :
  storable field value = false -> setField field value = Panic ReflectPanic.
Proof.
  destruct field as [k n | k n | [ | ] x | b | s | x | fs | ], value;
    simpl; intros H; try reflexivity; discriminate.
Qed.

Lemma setField_stores field value :
  storable field value = true -> exists x, setField field value = Ret x.
Proof.
  destruct field as [k n | k n | [ | ] x | b | s | x | fs | ], value;
    simpl; intros H; try discriminate; eauto.
Qed.

(** C4 (amended).  When the value of a pair is a scalar that [setField]
    cannot store in the matched field, the loop of [consumeObject] does
    not return at all: it panics inside [reflect]. *)
Theorem mismatch_panics E fuel data i length offset v key o1 name f tag
  value o2 :
  i < length ->
  consumeString E data offset = Ret (key, o1, None) ->
  upperCaseFirstLetter E key = Some name ->
  FieldByName v name = Ret (Some f) ->
  index data o1 = Ret tag ->
  tag <> "O"%byte ->
  consumeNext E data o1 = Ret (value, o2, None) ->
  storable f value = false ->
  elements E (S fuel) data i length offset v = Panic ReflectPanic.
Proof.
  intros Hi Hkey Hname Hfield Htag HO Hvalue Hstore.
  rewrite elements_S.
  apply Z.ltb_lt in Hi; rewrite Hi.
  rewrite Hkey; simpl. rewrite Hname; simpl. rewrite Hfield; simpl.
  unfold pairValue. rewrite Htag; simpl.
  apply byte_eqb_neq in HO; rewrite HO.
  rewrite Hvalue; simpl.
  rewrite (setField_storable f value Hstore). reflexivity.
Qed.

Lemma mismatch_panics_witness :
  elements reference 1 (wire "O:1:'P':1:{s:3:'Age';s:3:'Bob';}") 0 1 11
    (VStruct [(bytes "Age", VInt Int 0)])
  = Panic ReflectPanic.
Proof.
  apply (mismatch_panics reference 0 (wire "O:1:'P':1:{s:3:'Age';s:3:'Bob';}")
           0 1 11 (VStruct [(bytes "Age", VInt Int 0)])
           (bytes "Age") 21 (bytes "Age") (VInt Int 0) "s"%byte
           (DString (bytes "Bob")) 31);
    try reflexivity; discriminate.
Defined.

(** C4, as stated, fails: text decoded into an integer field makes
    [consumeObject] panic; no error value of any kind is returned. *)
Lemma mismatch_returns_no_error :
  consumeObject reference (wire "O:1:'P':1:{s:3:'Age';s:3:'Bob';}") 0
    (VStruct [(bytes "Age", VInt Int 0)])
  = Panic ReflectPanic
  /\ forall r,
      consumeObject reference (wire "O:1:'P':1:{s:3:'Age';s:3:'Bob';}") 0
        (VStruct [(bytes "Age", VInt Int 0)]) <> Ret r.
Proof. split; [reflexivity | intros r; discriminate]. Qed.

(** ** Decoding into a record *)

(** The consumers use the parameters only through their values. *)
Section SameExternals.

Variables E E' : Externals.
Hypothesis same_float : forall s, ParseFloat E s = ParseFloat E' s.
Hypothesis same_decode : forall d, DecodePHPString E d = DecodePHPString E' d.
Hypothesis same_upper :
  forall k, upperCaseFirstLetter E k = upperCaseFirstLetter E' k.

Lemma consumeStringRealPart_ext data offset :
  consumeStringRealPart E data offset = consumeStringRealPart E' data offset.
Proof. unfold consumeStringRealPart; rewrite same_decode; reflexivity. Qed.

Lemma consumeString_ext data offset :
  consumeString E data offset = consumeString E' data offset.
Proof.
  unfold consumeString; rewrite consumeStringRealPart_ext; reflexivity.
Qed.

Lemma consumeNext_ext data offset :
  consumeNext E data offset = consumeNext E' data offset.
Proof.
  unfold consumeNext, consumeFloat.
  destruct (len data <=? offset); [reflexivity | ].
  destruct (index data offset) as [tag | p | ]; simpl; try reflexivity.
  rewrite consumeString_ext.
  destruct (Byte.eqb tag "b"); [reflexivity | ].
  destruct (Byte.eqb tag "d"); [ | reflexivity].
  destruct (checkType data "d" offset); simpl; [ | reflexivity].
  destruct (consumeStringUntilByte data ";" (offset + 2))
    as [[alphaNumber newOffset] | p | ]; simpl; try reflexivity.
  rewrite same_float; reflexivity.
Qed.

Lemma consumeObject_ext fuel :
  (forall data offset v,
      consumeObjectFuel E fuel data offset v
      = consumeObjectFuel E' fuel data offset v)
  /\ (forall data i length offset v,
         elements E fuel data i length offset v
         = elements E' fuel data i length offset v).
Proof.
  induction fuel as [ | fuel [IHo IHe]]; [split; reflexivity | ].
  split.
  - intros data offset v. rewrite !consumeObjectFuel_S.
    rewrite consumeStringRealPart_ext.
    destruct (negb (checkType data "O" offset)); [reflexivity | ].
    destruct (consumeStringRealPart E' data (offset + 2))
      as [[[cls o1] [e1 | ]] | p | ]; simpl; try reflexivity.
    destruct (consumeIntPart data o1)
      as [[[length o2] [e2 | ]] | p | ]; simpl; try reflexivity.
    apply IHe.
  - intros data i length offset v. rewrite !elements_S.
    destruct (i <? length); [ | reflexivity].
    rewrite consumeString_ext.
    destruct (consumeString E' data offset)
      as [[[key o1] [e1 | ]] | p | ]; simpl; try reflexivity.
    rewrite same_upper.
    destruct (upperCaseFirstLetter E' key) as [name | ]; simpl;
      try reflexivity.
    destruct (FieldByName v name) as [field | p | ]; simpl; try reflexivity.
    unfold pairValue.
    destruct (index data o1) as [tag | p | ]; simpl; try reflexivity.
    destruct (Byte.eqb tag "O").
    + rewrite IHo.
      destruct (consumeObjectFuel E' fuel data o1
                  match field with Some f => f | None => dummyObject end)
        as [[[subV' o2] [e2 | ]] | p | ]; simpl; try reflexivity.
      apply IHe.
    + rewrite consumeNext_ext.
      destruct (consumeNext E' data o1)
        as [[[value o2] [e2 | ]] | p | ]; simpl; try reflexivity.
      destruct field as [f | ]; [ | apply IHe].
      destruct (setField f value); simpl; try reflexivity. apply IHe.
Qed.

End SameExternals.

(** C1.  Decoding the [Person] payload at offset 0 into a record with a
    text field [Name] and an integer field [Age] sets [Name] to [Bob] and
    [Age] to 30, returns no error, and returns the length of the buffer
    as the offset.  The payload has no escape sequence, so its decoded
    text is itself, and the two keys are already capitalised. *)
Theorem person_decodes E name0 age0 :
  DecodePHPString E person_payload = Some person_payload ->
  upperCaseFirstLetter E (bytes "Name") = Some (bytes "Name") ->
  upperCaseFirstLetter E (bytes "Age") = Some (bytes "Age") ->
  consumeObject E person_payload 0
    (VStruct [(bytes "Name", VString name0); (bytes "Age", VInt Int age0)])
  = Ret (VStruct [(bytes "Name", VString (bytes "Bob"));
                  (bytes "Age", VInt Int 30)],
         len person_payload, None).
Proof.
  intros Hdecode Hname Hage.
  pose (E' :=
    {| ParseFloat := ParseFloat E;
       DecodePHPString := fun d =>
         if bytes_eqb d person_payload then Some person_payload
         else DecodePHPString E d;
       upperCaseFirstLetter := fun k =>
         if bytes_eqb k (bytes "Name") then Some (bytes "Name")
         else if bytes_eqb k (bytes "Age") then Some (bytes "Age")
         else upperCaseFirstLetter E k;
       ParseFloat_empty := ParseFloat_empty E |}).
  unfold consumeObject.
  assert (Hext : forall fuel data offset v,
             consumeObjectFuel E fuel data offset v
             = consumeObjectFuel E' fuel data offset v).
  2: { rewrite Hext. subst E'. vm_compute. reflexivity. }
  intros fuel; apply (consumeObject_ext E E').
  - reflexivity.
  - intros d; simpl. unfold bytes_eqb.
    destruct (list_eq_dec byte_eq_dec d person_payload) as [-> | ];
      [exact Hdecode | reflexivity].
  - intros k; simpl. unfold bytes_eqb.
    destruct (list_eq_dec byte_eq_dec k (bytes "Name")) as [-> | ];
      [exact Hname | ].
    destruct (list_eq_dec byte_eq_dec k (bytes "Age")) as [-> | ];
      [exact Hage | reflexivity].
Qed.

Lemma person_decodes_witness :
  consumeObject reference person_payload 0
    (VStruct [(bytes "Name", VString []); (bytes "Age", VInt Int 0)])
  = Ret (VStruct [(bytes "Name", VString (bytes "Bob"));
                  (bytes "Age", VInt Int 30)],
         53, None).
Proof.
  exact (person_decodes reference [] 0 eq_refl eq_refl eq_refl).
Defined.

(** ** A destination narrower than the wire data *)

Lemma bytes_eqb_eq a b : bytes_eqb a b = true <-> a = b.
Proof.
  unfold bytes_eqb; destruct (list_eq_dec byte_eq_dec a b); split;
    congruence.
Qed.

Lemma bytes_eqb_refl a : bytes_eqb a a = true.
Proof. now apply bytes_eqb_eq. Qed.

Lemma bytes_eqb_neq a b : bytes_eqb a b = false <-> a <> b.
Proof.
  unfold bytes_eqb; destruct (list_eq_dec byte_eq_dec a b); split;
    congruence.
Qed.

Lemma lookup_storeField fs name x m :
  lookupField (storeField fs name x) m =
  if bytes_eqb name m
  then match lookupField fs name with Some _ => Some x | None => None end
  else lookupField fs m.
Proof.
  induction fs as [ | [n f] fs IH]; simpl.
  - destruct (bytes_eqb name m); reflexivity.
  - destruct (bytes_eqb n name) eqn:Hn; simpl.
    + apply bytes_eqb_eq in Hn; subst n.
      destruct (bytes_eqb name m); reflexivity.
    + destruct (bytes_eqb n m) eqn:Hm.
      * destruct (bytes_eqb name m) eqn:Hnm; [ | reflexivity].
        apply bytes_eqb_eq in Hm, Hnm; subst.
        rewrite bytes_eqb_refl in Hn; discriminate.
      * exact IH.
Qed.

Lemma lookup_withoutField fs name m :
  lookupField (withoutField fs name) m =
  if bytes_eqb name m then None else lookupField fs m.
Proof.
  induction fs as [ | [n f] fs IH]; simpl.
  - destruct (bytes_eqb name m); reflexivity.
  - destruct (bytes_eqb n name) eqn:Hn; simpl.
    + apply bytes_eqb_eq in Hn; subst n. rewrite IH.
      destruct (bytes_eqb name m); reflexivity.
    + rewrite IH. destruct (bytes_eqb n m) eqn:Hm; [ | reflexivity].
      destruct (bytes_eqb name m) eqn:Hnm; [ | reflexivity].
      apply bytes_eqb_eq in Hm, Hnm; subst.
      rewrite bytes_eqb_refl in Hn; discriminate.
Qed.

Lemma narrower_withoutField fs name :
  narrower (VStruct (withoutField fs name)) (VStruct fs).
Proof.
  apply narrower_struct; intros m f'. rewrite lookup_withoutField.
  destruct (bytes_eqb name m); [discriminate | ].
  intros H; exists f'; split; [exact H | apply narrower_same].
Qed.

Lemma narrower_fields fs' v :
  narrower (VStruct fs') v ->
  exists fs, v = VStruct fs
    /\ forall name f', lookupField fs' name = Some f' ->
         exists f, lookupField fs name = Some f /\ narrower f' f.
Proof.
  intros H; inversion H; subst.
  - exists fs'; split; [reflexivity | ].
    intros name f' Hf; exists f'; split; [exact Hf | apply narrower_same].
  - exists fs; split; [reflexivity | assumption].
Qed.

Lemma narrower_is_struct v' fs :
  narrower v' (VStruct fs) -> exists fs', v' = VStruct fs'.
Proof. intros H; inversion H; subst; eauto. Qed.

(** Writing related values into the same field of related records. *)
Lemma narrower_store fs' fs name x' x :
  narrower (VStruct fs') (VStruct fs) -> narrower x' x ->
  narrower (VStruct (storeField fs' name x')) (VStruct (storeField fs name x)).
Proof.
  intros Hv Hx. apply narrower_fields in Hv.
  destruct Hv as [fs0 [Heq Hv]]; inversion Heq; subst fs0.
  apply narrower_struct; intros m f'. rewrite !lookup_storeField.
  destruct (bytes_eqb name m).
  - destruct (lookupField fs' name) as [f0 | ] eqn:Hf0; [ | discriminate].
    intros H; inversion H; subst f'.
    destruct (Hv name f0 Hf0) as [f [Hf _]]. rewrite Hf. eauto.
  - apply Hv.
Qed.

(** A write into a field the narrower record does not have. *)
Lemma narrower_store_absent fs' fs name x :
  narrower (VStruct fs') (VStruct fs) -> lookupField fs' name = None ->
  narrower (VStruct fs') (VStruct (storeField fs name x)).
Proof.
  intros Hv Habsent. apply narrower_fields in Hv.
  destruct Hv as [fs0 [Heq Hv]]; inversion Heq; subst fs0.
  apply narrower_struct; intros m f' Hm. rewrite lookup_storeField.
  destruct (bytes_eqb name m) eqn:Hnm; [ | apply Hv; exact Hm].
  apply bytes_eqb_eq in Hnm; subst m. congruence.
Qed.

Lemma setField_narrower f' f value x :
  narrower f' f -> setField f value = Ret x -> f' = f.
Proof.
  intros H; inversion H; subst; [reflexivity | ].
  destruct value; simpl; discriminate.
Qed.

Lemma stands_for_fields v' fs :
  stands_for v' (VStruct fs) ->
  exists fs', v' = VStruct fs'
    /\ forall name f', lookupField fs' name = Some f' ->
         narrower v' (VStruct fs)
         /\ exists f, lookupField fs name = Some f /\ narrower f' f.
Proof.
  intros [H | H].
  - destruct (narrower_is_struct _ _ H) as [fs' ->].
    exists fs'; split; [reflexivity | ].
    intros name f' Hf; split; [exact H | ].
    apply narrower_fields in H. destruct H as [fs0 [Heq Hall]].
    inversion Heq; subst fs0. apply Hall; exact Hf.
  - subst v'; exists []; split; [reflexivity | ].
    intros name f' Hf; discriminate.
Qed.

Section Narrowing.

Variable E : Externals.

Lemma kept_refl v' v : kept v' v v' v.
Proof. split; auto. Qed.

Lemma narrow_simulation fuel :
  (forall data offset v v' r o e,
      stands_for v' v ->
      consumeObjectFuel E fuel data offset v = Ret (r, o, e) ->
      exists r', consumeObjectFuel E fuel data offset v' = Ret (r', o, e)
                 /\ kept v' v r' r)
  /\ (forall data i length offset v v' r o e,
         stands_for v' v ->
         elements E fuel data i length offset v = Ret (r, o, e) ->
         exists r', elements E fuel data i length offset v' = Ret (r', o, e)
                    /\ kept v' v r' r).
Proof.
  induction fuel as [ | fuel [IHo IHe]]; [split; intros; discriminate | ].
  split.
  - intros data offset v v' r o e Hv. rewrite !consumeObjectFuel_S.
    destruct (negb (checkType data "O" offset)).
    { intros H; inv_Ret H; exists v'; split; [reflexivity | apply kept_refl]. }
    destruct (consumeStringRealPart E data (offset + 2))
      as [[[cls o1] [e1 | ]] | p | ]; simpl; try discriminate.
    { intros H; inv_Ret H; exists v'; split; [reflexivity | apply kept_refl]. }
    destruct (consumeIntPart data o1)
      as [[[length o2] [e2 | ]] | p | ]; simpl; try discriminate.
    { intros H; inv_Ret H; exists v'; split; [reflexivity | apply kept_refl]. }
    apply IHe; exact Hv.
  - intros data i length offset v v' r o e Hv. rewrite !elements_S.
    destruct (i <? length).
    2: { intros H; inv_Ret H; exists v'; split; [reflexivity | apply kept_refl]. }
    destruct (consumeString E data offset)
      as [[[key o1] [e1 | ]] | p | ]; simpl; try discriminate.
    { intros H; inv_Ret H; exists v'; split; [reflexivity | apply kept_refl]. }
    destruct (upperCaseFirstLetter E key) as [name | ]; simpl;
      try discriminate.
    destruct v as [ | | | | | | fs | ]; simpl; try discriminate.
    destruct (stands_for_fields _ _ Hv) as [fs' [-> Hfields]]; simpl.
    unfold pairValue.
    destruct (index data o1) as [tag | p | ]; simpl; try discriminate.
    destruct (lookupField fs' name) as [f' | ] eqn:Hf'.
    + (* the key names a field of both records *)
      destruct (Hfields name f' Hf') as [Hnarrow [f [Hf Hff]]]. rewrite Hf.
      destruct (Byte.eqb tag "O").
      * destruct (consumeObjectFuel E fuel data o1 f)
          as [[[sub o2] e2] | p | ] eqn:Hsub; simpl; try discriminate.
        destruct (IHo _ _ _ f' _ _ _ (or_introl Hff) Hsub)
          as [sub' [Hsub' [Hkept _]]].
        rewrite Hsub'; simpl.
        pose proof (narrower_store _ _ name _ _ Hnarrow (Hkept Hff)) as Hnew.
        destruct e2 as [e2 | ].
        -- intros H; inv_Ret H. eexists; split; [reflexivity | ].
           split; [intros _; exact Hnew | intros Hd; inversion Hd; subst; discriminate].
        -- intros H.
           destruct (IHe _ _ _ _ _ _ _ _ _ (or_introl Hnew) H)
             as [r' [Hr' [Hk _]]].
           exists r'; split; [exact Hr' | ].
           split; [intros _; exact (Hk Hnew)
                  | intros Hd; inversion Hd; subst; discriminate].
      * destruct (consumeNext E data o1)
          as [[[value o2] [e2 | ]] | p | ]; simpl; try discriminate.
        { intros H; inv_Ret H. eexists; split; [reflexivity | apply kept_refl]. }
        destruct (setField f value) as [x | p | ] eqn:Hset; simpl;
          try discriminate.
        rewrite (setField_narrower _ _ _ _ Hff Hset), Hset; simpl.
        pose proof (narrower_store _ _ name x x Hnarrow (narrower_same x))
          as Hnew.
        intros H.
        destruct (IHe _ _ _ _ _ _ _ _ _ (or_introl Hnew) H)
          as [r' [Hr' [Hk _]]].
        exists r'; split; [exact Hr' | ].
        split; [intros _; exact (Hk Hnew)
               | intros Hd; inversion Hd; subst; discriminate].
    + (* the key names no field of the narrower record *)
      assert (Hstill : forall x,
                 stands_for (VStruct fs')
                   (match lookupField fs name with
                    | Some _ => VStruct (storeField fs name x)
                    | None => VStruct fs
                    end)
                 /\ (narrower (VStruct fs') (VStruct fs) ->
                     narrower (VStruct fs')
                       (match lookupField fs name with
                        | Some _ => VStruct (storeField fs name x)
                        | None => VStruct fs
                        end))).
      { intros x.
        assert (Hn : narrower (VStruct fs') (VStruct fs) ->
                     narrower (VStruct fs')
                       (match lookupField fs name with
                        | Some _ => VStruct (storeField fs name x)
                        | None => VStruct fs
                        end)).
        { intros Hn; destruct (lookupField fs name); [ | exact Hn].
          apply narrower_store_absent; assumption. }
        split; [ | exact Hn].
        destruct Hv as [Hv | Hv]; [left; apply Hn; exact Hv | right; exact Hv]. }
      destruct (Byte.eqb tag "O").
      * destruct (consumeObjectFuel E fuel data o1
                    match lookupField fs name with
                    | Some f => f
                    | None => dummyObject
                    end) as [[[sub o2] e2] | p | ] eqn:Hsub; simpl;
          try discriminate.
        destruct (IHo _ _ _ dummyObject _ _ _ (or_intror eq_refl) Hsub)
          as [sub' [Hsub' _]].
        rewrite Hsub'; simpl.
        destruct (Hstill sub) as [Hs Hn].
        destruct e2 as [e2 | ].
        -- intros H; inv_Ret H. eexists; split; [reflexivity | ].
           split; [exact Hn | auto].
        -- intros H.
           destruct (IHe _ _ _ _ _ _ _ _ _ Hs H) as [r' [Hr' [Hk1 Hk2]]].
           exists r'; split; [exact Hr' | ].
           split; [intros Hnar; apply Hk1, Hn, Hnar | exact Hk2].
      * destruct (consumeNext E data o1)
          as [[[value o2] [e2 | ]] | p | ]; simpl; try discriminate.
        { intros H; inv_Ret H. eexists; split; [reflexivity | apply kept_refl]. }
        destruct (lookupField fs name) as [f | ] eqn:Hf.
        -- destruct (setField f value) as [x | p | ]; simpl; try discriminate.
           destruct (Hstill x) as [Hs Hn].
           intros H.
           destruct (IHe _ _ _ _ _ _ _ _ _ Hs H) as [r' [Hr' [Hk1 Hk2]]].
           exists r'; split; [exact Hr' | ].
           split; [intros Hnar; apply Hk1, Hn, Hnar | exact Hk2].
        -- intros H.
           destruct (IHe _ _ _ _ _ _ _ _ _ Hv H) as [r' [Hr' Hk]].
           exists r'; split; [exact Hr' | exact Hk].
Qed.

End Narrowing.

(** C2.  When the destination lacks fields that the wire data names,
    [consumeObject] succeeds wherever it succeeds on the record that has
    them, with the same final offset and no error: the unmatched pairs
    are consumed and dropped, a nested object through the discard sink.
    The fields that remain are written as before. *)
Theorem unmatched_key_skipped E data offset v v' r newOffset :
  narrower v' v ->
  consumeObject E data offset v = Ret (r, newOffset, None) ->
  exists r',
    consumeObject E data offset v' = Ret (r', newOffset, None)
    /\ narrower r' r.
Proof.
  intros Hv H. unfold consumeObject in *.
  destruct (narrow_simulation E (S (List.length data))) as [Hsim _].
  destruct (Hsim _ _ _ v' _ _ _ (or_introl Hv) H) as [r' [Hr' [Hk _]]].
  exists r'; split; [exact Hr' | exact (Hk Hv)].
Qed.

Lemma unmatched_key_skipped_witness :
  exists r',
    consumeObject reference
      (wire "O:1:'P':3:{s:4:'name';s:3:'Bob';s:3:'zip';O:1:'Z':1:{s:1:'n';i:7;}s:3:'age';i:30;}")
      0
      (VStruct
         (withoutField
            (withoutField
               [(bytes "Name", VString []);
                (bytes "Zip", VStruct [(bytes "N", VInt Int32 0)]);
                (bytes "Age", VInt Int 0)]
               (bytes "Name"))
            (bytes "Zip")))
    = Ret (r', 82, None)
    /\ narrower r'
         (VStruct [(bytes "Name", VString (bytes "Bob"));
                   (bytes "Zip", VStruct [(bytes "N", VInt Int32 7)]);
                   (bytes "Age", VInt Int 30)]).
Proof.
  apply (unmatched_key_skipped reference _ 0
           (VStruct [(bytes "Name", VString []);
                     (bytes "Zip", VStruct [(bytes "N", VInt Int32 0)]);
                     (bytes "Age", VInt Int 0)])).
  - apply narrower_struct; intros name f' Hf'.
    rewrite !lookup_withoutField in Hf'.
    destruct (bytes_eqb (bytes "Zip") name); [discriminate | ].
    destruct (bytes_eqb (bytes "Name") name); [discriminate | ].
    exists f'; split; [exact Hf' | apply narrower_same].
  - reflexivity.
Defined.

(** ** Which bytes a consumer looks at *)

Lemma findByte_found data b offset r :
  0 <= offset <= r -> r < len data ->
  nth (Z.to_nat r) data x00 = b ->
  (forall i, offset <= i < r -> nth (Z.to_nat i) data x00 <> b) ->
  findByte data b offset = r.
Proof.
  intros Hr Hlen Hat Hbefore.
  pose proof (findByte_spec data b offset) as Hf; simpl in Hf.
  destruct Hf as [[_ Hnone] | [H1 [H2 [Hat' Hbefore']]]].
  - exfalso; apply (Hnone ltac:(lia) r); [lia | exact Hat].
  - destruct (Z.lt_trichotomy (findByte data b offset) r) as [Hlt | [Heq | Hgt]].
    + exfalso; apply (Hbefore (findByte data b offset)); [lia | exact Hat'].
    + exact Heq.
    + exfalso; apply (Hbefore' r); [lia | exact Hat].
Qed.

Lemma findByte_none data b offset :
  (0 <= offset ->
   forall i, offset <= i < len data -> nth (Z.to_nat i) data x00 <> b) ->
  findByte data b offset = -1.
Proof.
  intros Hnone.
  pose proof (findByte_spec data b offset) as Hf; simpl in Hf.
  destruct Hf as [[Hr _] | [H1 [H2 [Hat _]]]]; [exact Hr | ].
  exfalso; apply (Hnone ltac:(lia) (findByte data b offset)); [lia | exact Hat].
Qed.

Lemma reaches_within {A : Type} hi (r : go (A * Z * option error)) data offset :
  reaches hi r ->
  (forall x o e, r = Ret (x, o, e) -> sound_result data offset o e) ->
  within hi offset.
Proof.
  destruct hi as [h | ]; simpl; [ | trivial].
  destruct r as [[[x o] [e | ]] | p | ]; try contradiction.
  intros Ho Hs. specialize (Hs x o None eq_refl); simpl in Hs; lia.
Qed.

Lemma checkType_local lo hi data data' c offset :
  agree lo hi data data' -> lo <= offset -> within hi offset ->
  checkType data' c offset = checkType data c offset.
Proof.
  intros [Hlen Hnth] Hlo Hw.
  unfold checkType. rewrite <- Hlen.
  destruct ((0 <=? offset) && (offset <? len data)); simpl; [ | reflexivity].
  rewrite (Hnth offset Hlo Hw); reflexivity.
Qed.

Lemma index_local lo hi data data' offset :
  agree lo hi data data' -> lo <= offset -> within hi offset ->
  index data' offset = index data offset.
Proof.
  intros [Hlen Hnth] Hlo Hw.
  unfold index. rewrite <- Hlen.
  destruct ((0 <=? offset) && (offset <? len data)); simpl; [ | reflexivity].
  rewrite (Hnth offset Hlo Hw); reflexivity.
Qed.

Lemma findByte_local lo hi data data' b offset :
  agree lo hi data data' -> lo <= offset ->
  match hi with
  | Some h => 0 <= findByte data b offset < h
  | None => True
  end ->
  findByte data' b offset = findByte data b offset.
Proof.
  intros [Hlen Hnth] Hlo Hbound.
  pose proof (findByte_spec data b offset) as Hf; simpl in Hf.
  destruct Hf as [[Hr Hnone] | [H1 [H2 [Hat Hbefore]]]].
  - rewrite Hr in *. destruct hi as [h | ]; [lia | ].
    apply findByte_none. intros H0 i Hi.
    rewrite <- (Hnth i ltac:(lia) I). apply Hnone; [exact H0 | lia].
  - assert (Hw : forall i, offset <= i <= findByte data b offset -> within hi i).
    { intros i Hi; destruct hi as [h | ]; simpl; [lia | trivial]. }
    apply findByte_found; try lia.
    + rewrite <- (Hnth (findByte data b offset) ltac:(lia)
                    (Hw (findByte data b offset) ltac:(lia))).
      exact Hat.
    + intros i Hi. rewrite <- (Hnth i ltac:(lia) (Hw i ltac:(lia))).
      apply Hbefore; lia.
Qed.

(** A slice of agreeing sequences, taken inside the bound. *)
Lemma slice_local lo hi a b l u :
  agree lo hi a b -> lo <= l ->
  match hi with Some h => u <= h | None => True end ->
  slice b l u = slice a l u.
Proof.
  intros [Hlen Hnth] Hlo Hu. unfold slice. rewrite <- Hlen.
  destruct ((0 <=? l) && (l <=? u) && (u <=? len a)) eqn:Hb; [ | reflexivity].
  apply andb_prop in Hb; destruct Hb as [Hb H3].
  apply andb_prop in Hb; destruct Hb as [H1 H2].
  apply Z.leb_le in H1, H2, H3.
  f_equal. apply nth_ext with (d := x00) (d' := x00).
  - rewrite !length_firstn, !length_skipn. unfold len in Hlen. lia.
  - intros n Hn. rewrite length_firstn in Hn.
    rewrite !nth_firstn, !nth_skipn.
    destruct (n <? Z.to_nat (u - l))%nat eqn:Hlt; [ | reflexivity].
    apply Nat.ltb_lt in Hlt. symmetry.
    replace (Z.to_nat l + n)%nat with (Z.to_nat (l + Z.of_nat n)) by lia.
    apply Hnth; [lia | ].
    destruct hi as [h | ]; simpl; [lia | trivial].
Qed.

Lemma reaches_Some {A : Type} h (r : go (A * Z * option error)) :
  reaches (Some h) r -> exists x o, r = Ret (x, o, None) /\ o <= h.
Proof.
  simpl; destruct r as [[[x o] [e | ]] | p | ]; try contradiction.
  intros Ho; exists x, o; split; [reflexivity | exact Ho].
Qed.

Lemma reaches_boxed {A : Type} (box : A -> decoded) hi r :
  reaches hi (boxed box r) -> reaches hi r.
Proof.
  destruct hi as [h | ]; simpl; [ | trivial].
  destruct r as [[[x o] [e | ]] | p | ]; simpl; trivial.
Qed.

Lemma consumeStringUntilByte_local lo hi data data' b offset :
  agree lo hi data data' -> lo <= offset ->
  match hi with
  | Some h => 0 <= findByte data b offset < h
  | None => True
  end ->
  consumeStringUntilByte data' b offset = consumeStringUntilByte data b offset.
Proof.
  intros Hag Hlo Hbound. unfold consumeStringUntilByte.
  rewrite (findByte_local lo hi data data' b offset Hag Hlo Hbound).
  destruct (findByte data b offset <? 0); [reflexivity | ].
  rewrite (slice_local lo hi data data'); [reflexivity | exact Hag | exact Hlo | ].
  destruct hi as [h | ]; [lia | trivial].
Qed.

Lemma consumeIntPart_local lo hi data data' offset :
  agree lo hi data data' -> lo <= offset ->
  reaches hi (consumeIntPart data offset) ->
  consumeIntPart data' offset = consumeIntPart data offset.
Proof.
  intros Hag Hlo Hr. unfold consumeIntPart.
  rewrite (consumeStringUntilByte_local lo hi data data'); auto.
  destruct hi as [h | ]; [ | trivial].
  apply reaches_Some in Hr. destruct Hr as [x [o [Hr Ho]]].
  apply consumeIntPart_ok in Hr. lia.
Qed.

Lemma consumeStringRealPart_local E lo hi data data' offset :
  agree lo hi data data' ->
  agree_text lo hi (DecodePHPString E data) (DecodePHPString E data') ->
  lo <= offset ->
  reaches hi (consumeStringRealPart E data offset) ->
  consumeStringRealPart E data' offset = consumeStringRealPart E data offset.
Proof.
  intros Hag Htext Hlo Hr.
  assert (Hcount : consumeIntPart data' offset = consumeIntPart data offset).
  { apply (consumeIntPart_local lo hi); auto.
    destruct hi as [h | ]; [ | exact I].
    apply reaches_Some in Hr. destruct Hr as [x [o [Hr Ho]]].
    apply consumeStringRealPart_ok in Hr.
    destruct Hr as [length [newOffset [text [Hi [_ [Hs Hret]]]]]].
    rewrite Hi; simpl. apply slice_Ret in Hs. lia. }
  unfold consumeStringRealPart in *. rewrite Hcount.
  destruct (consumeIntPart data offset)
    as [[[length newOffset] [e | ]] | p | ] eqn:Hi; simpl; try reflexivity.
  apply consumeIntPart_ok in Hi.
  unfold agree_text in Htext.
  destruct (DecodePHPString E data) as [t | ],
           (DecodePHPString E data') as [t' | ];
    try contradiction; simpl; [ | reflexivity].
  rewrite (slice_local lo hi t t'); [reflexivity | exact Htext | lia | ].
  destruct hi as [h | ]; [ | trivial].
  simpl in Hr.
  destruct (slice t (newOffset + 1) (newOffset + 1 + length)) as [sub | p | ] eqn:Hs;
    simpl in Hr; try contradiction.
  apply slice_Ret in Hs. lia.
Qed.

Lemma consumeString_local E lo hi data data' offset :
  agree lo hi data data' ->
  agree_text lo hi (DecodePHPString E data) (DecodePHPString E data') ->
  lo <= offset ->
  reaches hi (consumeString E data offset) ->
  consumeString E data' offset = consumeString E data offset.
Proof.
  intros Hag Htext Hlo Hr.
  pose proof (reaches_within hi _ data offset Hr
                (fun x o e => consumeString_sound E data offset x o e)) as Hw.
  unfold consumeString in *.
  rewrite (checkType_local lo hi data data' _ _ Hag Hlo Hw).
  destruct (checkType data "s" offset); simpl in *; [ | reflexivity].
  apply (consumeStringRealPart_local E lo hi); auto. lia.
Qed.

Lemma consumeNil_local lo hi data data' offset :
  agree lo hi data data' -> lo <= offset ->
  reaches hi (consumeNil data offset) ->
  consumeNil data' offset = consumeNil data offset.
Proof.
  intros Hag Hlo Hr.
  pose proof (reaches_within hi _ data offset Hr
                (fun x o e => consumeNil_sound data offset x o e)) as Hw.
  unfold consumeNil.
  rewrite (checkType_local lo hi data data' _ _ Hag Hlo Hw). reflexivity.
Qed.

Lemma consumeBool_local lo hi data data' offset :
  agree lo hi data data' -> lo <= offset ->
  reaches hi (consumeBool data offset) ->
  consumeBool data' offset = consumeBool data offset.
Proof.
  intros Hag Hlo Hr.
  pose proof (reaches_within hi _ data offset Hr
                (fun x o e => consumeBool_sound data offset x o e)) as Hw.
  unfold consumeBool in *.
  rewrite (checkType_local lo hi data data' _ _ Hag Hlo Hw).
  destruct (checkType data "b" offset); simpl in *; [ | reflexivity].
  rewrite (index_local lo hi data data'); [reflexivity | exact Hag | lia | ].
  destruct hi as [h | ]; simpl in *; [ | trivial].
  destruct (index data (offset + 2)); simpl in Hr; try contradiction. lia.
Qed.

Lemma number_literal_local {A : Type} lo hi data data' offset
  (parse : list byte * Z -> go (A * Z * option error)) :
  agree lo hi data data' -> lo <= offset ->
  (forall s n x o, parse (s, n) = Ret (x, o, None) -> o = n + 1) ->
  reaches hi (bind (consumeStringUntilByte data ";" (offset + 2)) parse) ->
  (forall x o, parse ([], -1) <> Ret (x, o, None)) ->
  consumeStringUntilByte data' ";" (offset + 2)
  = consumeStringUntilByte data ";" (offset + 2).
Proof.
  intros Hag Hlo Hparse Hr Hnil.
  apply (consumeStringUntilByte_local lo hi); [exact Hag | lia | ].
  destruct hi as [h | ]; [ | trivial].
  apply reaches_Some in Hr. destruct Hr as [x [o [Hr Ho]]].
  apply bind_Ret in Hr. destruct Hr as [[s n] [Hs Hp]].
  apply consumeStringUntilByte_Ret in Hs.
  destruct Hs as [[Hn Hs] | [H1 [H2 [H3 _]]]].
  - subst. elim (Hnil x o Hp).
  - apply Hparse in Hp. lia.
Qed.

Lemma consumeInt_local lo hi data data' offset :
  agree lo hi data data' -> lo <= offset ->
  reaches hi (consumeInt data offset) ->
  consumeInt data' offset = consumeInt data offset.
Proof.
  intros Hag Hlo Hr.
  pose proof (reaches_within hi _ data offset Hr
                (fun x o e => consumeInt_sound data offset x o e)) as Hw.
  unfold consumeInt in *.
  rewrite (checkType_local lo hi data data' _ _ Hag Hlo Hw).
  destruct (checkType data "i" offset); simpl in *; [ | reflexivity].
  pose proof (fun p q =>
    number_literal_local lo hi data data' offset _ Hag Hlo p Hr q) as Hs.
  rewrite Hs; [reflexivity | | ].
  - intros s n x o; simpl.
    destruct (Atoi s) as [i [err | ]]; intros H; inv_Ret H; reflexivity.
  - intros x o; simpl; discriminate.
Qed.

Lemma consumeFloat_local E lo hi data data' offset :
  agree lo hi data data' -> lo <= offset ->
  reaches hi (consumeFloat E data offset) ->
  consumeFloat E data' offset = consumeFloat E data offset.
Proof.
  intros Hag Hlo Hr.
  pose proof (reaches_within hi _ data offset Hr
                (fun x o e => consumeFloat_sound E data offset x o e)) as Hw.
  unfold consumeFloat in *.
  rewrite (checkType_local lo hi data data' _ _ Hag Hlo Hw).
  destruct (checkType data "d" offset); simpl in *; [ | reflexivity].
  pose proof (fun p q =>
    number_literal_local lo hi data data' offset _ Hag Hlo p Hr q) as Hs.
  rewrite Hs; [reflexivity | | ].
  - intros s n x o; simpl.
    destruct (ParseFloat E s) as [v [err | ]]; intros H; inv_Ret H; reflexivity.
  - intros x o; simpl. pose proof (ParseFloat_empty E) as Hnil.
    destruct (ParseFloat E []) as [v [err | ]]; [discriminate | now elim Hnil].
Qed.

Lemma consumeNext_local E lo hi data data' offset :
  agree lo hi data data' ->
  agree_text lo hi (DecodePHPString E data) (DecodePHPString E data') ->
  lo <= offset ->
  reaches hi (consumeNext E data offset) ->
  consumeNext E data' offset = consumeNext E data offset.
Proof.
  intros Hag Htext Hlo Hr.
  pose proof (reaches_within hi _ data offset Hr
                (fun x o e => consumeNext_sound E data offset x o e)) as Hw.
  unfold consumeNext in *.
  rewrite (index_local lo hi data data' _ Hag Hlo Hw).
  destruct Hag as [Hlen Hnth]. rewrite <- Hlen.
  pose proof (conj Hlen Hnth : agree lo hi data data') as Hag.
  destruct (len data <=? offset); [reflexivity | ].
  destruct (index data offset) as [tag | p | ]; simpl in *; try reflexivity.
  destruct (Byte.eqb tag "b").
  { apply reaches_boxed in Hr.
    rewrite (consumeBool_local lo hi data data'); auto. }
  destruct (Byte.eqb tag "d").
  { apply reaches_boxed in Hr.
    rewrite (consumeFloat_local E lo hi data data'); auto. }
  destruct (Byte.eqb tag "i").
  { apply reaches_boxed in Hr.
    rewrite (consumeInt_local lo hi data data'); auto. }
  destruct (Byte.eqb tag "s").
  { apply reaches_boxed in Hr.
    rewrite (consumeString_local E lo hi data data'); auto. }
  destruct (Byte.eqb tag "N").
  { apply (consumeNil_local lo hi); auto. }
  unfold slice_from in *. rewrite <- Hlen.
  destruct hi as [h | ].
  - simpl in Hr. destruct (slice data offset (len data)); simpl in Hr; contradiction.
  - rewrite (slice_local lo None data data'); [reflexivity | exact Hag | exact Hlo | exact I].
Qed.

(** Two buffers that agree from [lo] to their end: every call of the
    object consumer at or after [lo] has the same outcome on both. *)
Lemma object_local_suffix E lo data data' :
  agree lo None data data' ->
  agree_text lo None (DecodePHPString E data) (DecodePHPString E data') ->
  forall fuel,
    (forall offset v, lo <= offset ->
        consumeObjectFuel E fuel data' offset v
        = consumeObjectFuel E fuel data offset v)
    /\ (forall i length offset v, lo <= offset ->
           elements E fuel data' i length offset v
           = elements E fuel data i length offset v).
Proof.
  intros Hag Htext.
  induction fuel as [ | fuel [IHo IHe]]; [split; reflexivity | ].
  split.
  - intros offset v Hlo. rewrite !consumeObjectFuel_S.
    rewrite (checkType_local lo None data data' _ _ Hag Hlo I).
    destruct (checkType data "O" offset) eqn:Hc; simpl; [ | reflexivity].
    rewrite (consumeStringRealPart_local E lo None data data');
      [ | exact Hag | exact Htext | lia | exact I].
    destruct (consumeStringRealPart E data (offset + 2))
      as [[[cls o1] [e1 | ]] | p | ] eqn:Hcls; simpl; try reflexivity.
    apply consumeStringRealPart_sound in Hcls; simpl in Hcls.
    rewrite (consumeIntPart_local lo None data data');
      [ | exact Hag | lia | exact I].
    destruct (consumeIntPart data o1)
      as [[[length o2] [e2 | ]] | p | ] eqn:Hcnt; simpl; try reflexivity.
    apply consumeIntPart_sound in Hcnt; simpl in Hcnt.
    apply IHe; lia.
  - intros i length offset v Hlo. rewrite !elements_S.
    destruct (i <? length); [ | reflexivity].
    rewrite (consumeString_local E lo None data data');
      [ | exact Hag | exact Htext | exact Hlo | exact I].
    destruct (consumeString E data offset)
      as [[[key o1] [e1 | ]] | p | ] eqn:Hkey; simpl; try reflexivity.
    apply consumeString_sound in Hkey; simpl in Hkey.
    destruct (upperCaseFirstLetter E key) as [name | ]; simpl;
      try reflexivity.
    destruct (FieldByName v name) as [field | p | ]; simpl; try reflexivity.
    unfold pairValue.
    rewrite (index_local lo None data data'); [ | exact Hag | lia | exact I].
    destruct (index data o1) as [tag | p | ]; simpl; try reflexivity.
    destruct (Byte.eqb tag "O").
    + rewrite IHo by lia.
      destruct (consumeObjectFuel E fuel data o1
                  match field with Some f => f | None => dummyObject end)
        as [[[sub o2] [e2 | ]] | p | ] eqn:Hsub; simpl; try reflexivity.
      apply object_forward in Hsub; simpl in Hsub.
      apply IHe; lia.
    + rewrite (consumeNext_local E lo None data data');
        [ | exact Hag | exact Htext | lia | exact I].
      destruct (consumeNext E data o1)
        as [[[value o2] [e2 | ]] | p | ] eqn:Hval; simpl; try reflexivity.
      apply consumeNext_sound in Hval; simpl in Hval.
      destruct field as [f | ]; [ | apply IHe; lia].
      destruct (setField f value); simpl; try reflexivity.
      apply IHe; lia.
Qed.

(** Two buffers that agree from [lo] up to [h]: a call of the object
    consumer at or after [lo] that succeeds on the first with a final
    offset of at most [h+1] succeeds alike on the second. *)
Lemma object_local_success E lo h data data' :
  agree lo (Some h) data data' ->
  agree_text lo (Some h) (DecodePHPString E data) (DecodePHPString E data') ->
  forall fuel,
    (forall offset v r o, lo <= offset ->
        consumeObjectFuel E fuel data offset v = Ret (r, o, None) ->
        o - 1 <= h ->
        consumeObjectFuel E fuel data' offset v = Ret (r, o, None))
    /\ (forall i length offset v r o, lo <= offset ->
           elements E fuel data i length offset v = Ret (r, o, None) ->
           o - 1 <= h ->
           elements E fuel data' i length offset v = Ret (r, o, None)).
Proof.
  intros Hag Htext.
  induction fuel as [ | fuel [IHo IHe]]; [split; intros; discriminate | ].
  split.
  - intros offset v r o Hlo H Ho. rewrite consumeObjectFuel_S in H |- *.
    destruct (checkType data "O" offset) eqn:Hc; simpl in H; [ | discriminate].
    destruct (consumeStringRealPart E data (offset + 2))
      as [[[cls o1] [e1 | ]] | p | ] eqn:Hcls; simpl in H; try discriminate.
    destruct (consumeIntPart data o1)
      as [[[length o2] [e2 | ]] | p | ] eqn:Hcnt; simpl in H; try discriminate.
    pose proof (consumeStringRealPart_sound _ _ _ _ _ _ Hcls) as B1.
    pose proof (consumeIntPart_sound _ _ _ _ _ Hcnt) as B2.
    pose proof (proj2 (object_forward E fuel) _ _ _ _ _ _ _ _ H) as B3.
    simpl in B1, B2, B3.
    rewrite (checkType_local lo (Some h) data data' _ _ Hag Hlo);
      [ | simpl; lia].
    rewrite Hc; simpl.
    rewrite (consumeStringRealPart_local E lo (Some h) data data');
      [ | exact Hag | exact Htext | lia | rewrite Hcls; simpl; lia].
    rewrite Hcls; simpl.
    rewrite (consumeIntPart_local lo (Some h) data data');
      [ | exact Hag | lia | rewrite Hcnt; simpl; lia].
    rewrite Hcnt; simpl.
    apply IHe; [lia | exact H | exact Ho].
  - intros i length offset v r o Hlo H Ho. rewrite elements_S in H |- *.
    destruct (i <? length); [ | exact H].
    destruct (consumeString E data offset)
      as [[[key o1] [e1 | ]] | p | ] eqn:Hkey; simpl in H; try discriminate.
    pose proof (consumeString_sound _ _ _ _ _ _ Hkey) as B1; simpl in B1.
    destruct (upperCaseFirstLetter E key) as [name | ] eqn:Hname; simpl in H;
      try discriminate.
    destruct (FieldByName v name) as [field | p | ] eqn:Hfield; simpl in H;
      try discriminate.
    unfold pairValue in H.
    destruct (index data o1) as [tag | p | ] eqn:Htag; simpl in H;
      try discriminate.
    assert (Hstart : o1 + 1 < o /\
      pairValue E fuel data' i length o1 v name field = Ret (r, o, None)).
    { unfold pairValue.
      destruct (Byte.eqb tag "O") eqn:HO.
      - destruct (consumeObjectFuel E fuel data o1
                    match field with Some f => f | None => dummyObject end)
          as [[[sub o2] [e2 | ]] | p | ] eqn:Hsub; simpl in H;
          try discriminate.
        pose proof (proj1 (object_forward E fuel) _ _ _ _ _ _ Hsub) as B2.
        pose proof (proj2 (object_forward E fuel) _ _ _ _ _ _ _ _ H) as B3.
        simpl in B2, B3. split; [lia | ].
        rewrite (index_local lo (Some h) data data');
          [ | exact Hag | lia | simpl; lia].
        rewrite Htag; simpl. rewrite HO.
        rewrite (IHo o1 _ sub o2); [ | lia | exact Hsub | lia]. simpl.
        apply IHe; [lia | exact H | exact Ho].
      - destruct (consumeNext E data o1)
          as [[[value o2] [e2 | ]] | p | ] eqn:Hval; simpl in H;
          try discriminate.
        pose proof (consumeNext_sound _ _ _ _ _ _ Hval) as B2; simpl in B2.
        assert (B3 : o2 < o).
        { destruct field as [f | ].
          - destruct (setField f value); simpl in H; try discriminate.
            exact (proj2 (object_forward E fuel) _ _ _ _ _ _ _ _ H).
          - exact (proj2 (object_forward E fuel) _ _ _ _ _ _ _ _ H). }
        split; [lia | ].
        rewrite (index_local lo (Some h) data data');
          [ | exact Hag | lia | simpl; lia].
        rewrite Htag; simpl. rewrite HO.
        rewrite (consumeNext_local E lo (Some h) data data');
          [ | exact Hag | exact Htext | lia | rewrite Hval; simpl; lia].
        rewrite Hval; simpl.
        destruct field as [f | ]; [ | apply IHe; [lia | exact H | exact Ho]].
        destruct (setField f value); simpl in H |- *; try discriminate.
        apply IHe; [lia | exact H | exact Ho]. }
    destruct Hstart as [Hstart Hpair].
    rewrite (consumeString_local E lo (Some h) data data');
      [ | exact Hag | exact Htext | exact Hlo | rewrite Hkey; simpl; lia].
    rewrite Hkey; simpl. rewrite Hname; simpl. rewrite Hfield; simpl.
    exact Hpair.
Qed.

(** ** The braces of an object node *)

Lemma consumeObject_header E data offset v p1 :
  openBrace E data offset = Some p1 ->
  exists cls o1 length,
    checkType data "O" offset = true
    /\ consumeStringRealPart E data (offset + 2) = Ret (cls, o1, None)
    /\ consumeIntPart data o1 = Ret (length, p1, None)
    /\ 0 <= offset < o1 /\ o1 < p1
    /\ consumeObject E data offset v
       = elements E (List.length data) data 0 length (p1 + 1) v.
Proof.
  unfold openBrace, consumeObject. rewrite consumeObjectFuel_S.
  destruct (checkType data "O" offset) eqn:Hc; [ | discriminate].
  destruct (consumeStringRealPart E data (offset + 2))
    as [[[cls o1] [e1 | ]] | p | ] eqn:Hcls; try discriminate.
  destruct (consumeIntPart data o1)
    as [[[length o2] [e2 | ]] | p | ] eqn:Hcnt; try discriminate.
  intros H; inv_Ret H. exists cls, o1, length.
  pose proof (checkType_true _ _ _ Hc) as B0.
  pose proof (consumeStringRealPart_sound _ _ _ _ _ _ Hcls) as B1.
  pose proof (consumeIntPart_sound _ _ _ _ _ Hcnt) as B2.
  simpl in B1, B2.
  split; [reflexivity | split; [reflexivity | split; [exact Hcnt | ]]].
  split; [lia | split; [lia | ]].
  simpl. rewrite Hcnt. reflexivity.
Qed.

Lemma closeBrace_after_open E data offset v p2 :
  closeBrace E data offset v = Some p2 ->
  exists p1, openBrace E data offset = Some p1 /\ p1 < p2.
Proof.
  unfold closeBrace.
  destruct (openBrace E data offset) as [p1 | ] eqn:Hopen.
  - destruct (consumeObject_header E data offset v p1 Hopen)
      as [cls [o1 [length [_ [_ [_ [_ [_ Hobj]]]]]]]].
    rewrite Hobj.
    destruct (elements E (List.length data) data 0 length (p1 + 1) v)
      as [[[r o] [e | ]] | p | ] eqn:Hel; try discriminate.
    apply object_forward in Hel; simpl in Hel.
    intros H; inv_Ret H. exists p1; split; [reflexivity | lia].
  - unfold openBrace in Hopen. unfold consumeObject.
    rewrite consumeObjectFuel_S.
    destruct (checkType data "O" offset); simpl; [ | discriminate].
    destruct (consumeStringRealPart E data (offset + 2))
      as [[[cls o1] [e1 | ]] | p | ]; simpl; try discriminate.
    destruct (consumeIntPart data o1)
      as [[[length o2] [e2 | ]] | p | ]; simpl; discriminate.
Qed.

Lemma agree_except E data offset v a a' lo hi :
  differ_at_braces E data offset v a a' ->
  0 <= lo ->
  (forall i, lo <= i -> within hi i ->
     openBrace E data offset <> Some i /\ closeBrace E data offset v <> Some i) ->
  agree lo hi a a'.
Proof.
  intros [Hlen Hdiff] Hlo Hnot. split; [exact Hlen | ].
  intros i Hi Hw.
  destruct (Byte.byte_eq_dec (nth (Z.to_nat i) a x00) (nth (Z.to_nat i) a' x00))
    as [Heq | Hne]; [exact Heq | ].
  destruct (Hnot i Hi Hw) as [H1 H2].
  destruct (Hdiff i ltac:(lia) Hne); contradiction.
Qed.

Lemma agree_text_except E data offset v t t' lo hi :
  match t, t' with
  | Some a, Some a' => differ_at_braces E data offset v a a'
  | None, None => True
  | _, _ => False
  end ->
  0 <= lo ->
  (forall i, lo <= i -> within hi i ->
     openBrace E data offset <> Some i /\ closeBrace E data offset v <> Some i) ->
  agree_text lo hi t t'.
Proof.
  destruct t as [a | ], t' as [a' | ]; simpl; trivial.
  apply agree_except.
Qed.

(** C10.  [consumeObject] does not look at the bytes where the opening
    and the closing brace are expected: on two buffers that differ at
    most there, and whose decoded texts differ at most there, it returns
    the same result, with the same error, the same destination and the
    same final offset. *)
Theorem braces_not_inspected E data data' offset v :
  differ_at_braces E data offset v data data' ->
  match DecodePHPString E data, DecodePHPString E data' with
  | Some t, Some t' => differ_at_braces E data offset v t t'
  | None, None => True
  | _, _ => False
  end ->
  consumeObject E data' offset v = consumeObject E data offset v.
Proof.
  intros Hdata Htext.
  assert (Hfuel : List.length data' = List.length data).
  { destruct Hdata as [Hlen _]. unfold len in Hlen. lia. }
  destruct (openBrace E data offset) as [p1 | ] eqn:Hopen.
  - (* the header parses *)
    destruct (consumeObject_header E data offset v p1 Hopen)
      as [cls [o1 [length [Hc [Hcls [Hcnt [B1 [B2 Hobj]]]]]]]].
    assert (Hhead : forall i, 0 <= i -> within (Some p1) i ->
              openBrace E data offset <> Some i
              /\ closeBrace E data offset v <> Some i).
    { intros i Hi Hw; simpl in Hw. split.
      - rewrite Hopen; intros H; inv_Ret H; lia.
      - intros H. apply closeBrace_after_open in H.
        destruct H as [p [Hp Hlt]]. rewrite Hopen in Hp; inv_Ret Hp. lia. }
    pose proof (agree_except _ _ _ _ _ _ 0 (Some p1) Hdata
                  ltac:(lia) Hhead) as Hag.
    pose proof (agree_text_except _ _ _ _ _ _ 0 (Some p1) Htext
                  ltac:(lia) Hhead) as Htx.
    rewrite Hobj. unfold consumeObject. rewrite Hfuel, consumeObjectFuel_S.
    rewrite (checkType_local 0 (Some p1) data data' _ _ Hag);
      [ | lia | simpl; lia].
    rewrite Hc; simpl.
    rewrite (consumeStringRealPart_local E 0 (Some p1) data data');
      [ | exact Hag | exact Htx | lia | rewrite Hcls; simpl; lia].
    rewrite Hcls; simpl.
    rewrite (consumeIntPart_local 0 (Some p1) data data');
      [ | exact Hag | lia | rewrite Hcnt; simpl; lia].
    rewrite Hcnt; simpl.
    destruct (closeBrace E data offset v) as [p2 | ] eqn:Hclose.
    + (* the call succeeds *)
      assert (Hel : exists r,
                 elements E (List.length data) data 0 length (p1 + 1) v
                 = Ret (r, p2 + 1, None)).
      { unfold closeBrace in Hclose. rewrite Hobj in Hclose.
        destruct (elements E (List.length data) data 0 length (p1 + 1) v)
          as [[[r o] [e | ]] | p | ]; try discriminate.
        inv_Ret Hclose. exists r. do 2 f_equal. f_equal. lia. }
      destruct Hel as [r Hel]. rewrite Hel.
      assert (Hbody : forall i, p1 + 1 <= i -> within (Some p2) i ->
                openBrace E data offset <> Some i
                /\ closeBrace E data offset v <> Some i).
      { intros i Hi Hw; simpl in Hw. split.
        - rewrite Hopen; intros H; inv_Ret H; lia.
        - rewrite Hclose; intros H; inv_Ret H; lia. }
      assert (H0 : 0 <= p1 + 1) by lia.
      apply (object_local_success E (p1 + 1) p2 data data'
               (agree_except _ _ _ _ _ _ _ _ Hdata H0 Hbody)
               (agree_text_except _ _ _ _ _ _ _ _ Htext H0 Hbody));
        [lia | exact Hel | lia].
    + (* the call fails or panics: only the opening brace may differ *)
      assert (Hbody : forall i, p1 + 1 <= i -> within None i ->
                openBrace E data offset <> Some i
                /\ closeBrace E data offset v <> Some i).
      { intros i Hi _. split; [ | rewrite Hclose; discriminate].
        rewrite Hopen; intros H; inv_Ret H; lia. }
      assert (H0 : 0 <= p1 + 1) by lia.
      apply (object_local_suffix E (p1 + 1) data data'
               (agree_except _ _ _ _ _ _ _ _ Hdata H0 Hbody)
               (agree_text_except _ _ _ _ _ _ _ _ Htext H0 Hbody)).
      lia.
  - (* no header, no brace: the buffers are the same *)
    assert (Hclose : closeBrace E data offset v = None).
    { destruct (closeBrace E data offset v) as [p2 | ] eqn:Hclose;
        [ | reflexivity].
      apply closeBrace_after_open in Hclose.
      destruct Hclose as [p1 [Hp _]]; congruence. }
    assert (Hall : forall i, 0 <= i -> within None i ->
              openBrace E data offset <> Some i
              /\ closeBrace E data offset v <> Some i).
    { intros i _ _; rewrite Hopen, Hclose; split; discriminate. }
    pose proof (agree_except _ _ _ _ _ _ 0 None Hdata ltac:(lia) Hall) as Hag.
    pose proof (agree_text_except _ _ _ _ _ _ 0 None Htext ltac:(lia) Hall)
      as Htx.
    unfold consumeObject. rewrite Hfuel.
    destruct (Z_lt_dec offset 0) as [Hneg | Hpos].
    + rewrite !consumeObjectFuel_S.
      destruct (checkType data "O" offset) eqn:Hc;
        [apply checkType_true in Hc; lia | ].
      destruct (checkType data' "O" offset) eqn:Hc';
        [apply checkType_true in Hc'; lia | reflexivity].
    + apply (object_local_suffix E 0 data data' Hag Htx). lia.
Qed.

Lemma differ_at_bracesb_sound E data offset v a a' :
  differ_at_bracesb E data offset v a a' = true ->
  differ_at_braces E data offset v a a'.
Proof.
  unfold differ_at_bracesb; intros H.
  apply andb_prop in H; destruct H as [Hlen Hall].
  apply Z.eqb_eq in Hlen. split; [exact Hlen | ].
  intros i Hi Hne.
  destruct (Z_lt_dec i (len a)) as [Hin | Hout].
  - rewrite forallb_forall in Hall.
    specialize (Hall (Z.to_nat i)).
    rewrite in_seq in Hall. unfold len in Hin.
    specialize (Hall ltac:(lia)).
    rewrite Z2Nat.id in Hall by lia.
    apply orb_prop in Hall; destruct Hall as [Hall | Hclose].
    + apply orb_prop in Hall; destruct Hall as [Heq | Hopen].
      * apply byte_eqb_eq in Heq; contradiction.
      * left. unfold at_position in Hopen.
        destruct (openBrace E data offset) as [q | ]; [ | discriminate].
        apply Z.eqb_eq in Hopen; subst; reflexivity.
    + right. unfold at_position in Hclose.
      destruct (closeBrace E data offset v) as [q | ]; [ | discriminate].
      apply Z.eqb_eq in Hclose; subst; reflexivity.
  - exfalso; apply Hne. unfold len in *.
    rewrite !nth_overflow by lia. reflexivity.
Qed.

Lemma braces_not_inspected_witness :
  consumeObject reference (wire "O:1:'P':2:<s:1:'a';i:5;s:1:'b';O:1:'Q':0:{}>") 0
    (VStruct [(bytes "A", VInt Int 0); (bytes "B", VStruct [])])
  = consumeObject reference (wire "O:1:'P':2:{s:1:'a';i:5;s:1:'b';O:1:'Q':0:{}}") 0
      (VStruct [(bytes "A", VInt Int 0); (bytes "B", VStruct [])]).
Proof.
  apply (braces_not_inspected reference).
  - apply differ_at_bracesb_sound. vm_compute. reflexivity.
  - apply differ_at_bracesb_sound. vm_compute. reflexivity.
Defined.

(** A brace position does reach [DecodePHPString], which is handed the
    whole buffer: with the decoder that undoes backslash escapes, a
    backslash where the opening brace is expected moves every later
    slice of the text by one, the key no longer names the field, and
    the field keeps its old value. *)
Lemma braces_reach_decoder :
  differ_at_braces escaping (wire "O:1:'P':1:{s:1:'a';i:5;}") 0
    (VStruct [(bytes "A", VInt Int 0)])
    (wire "O:1:'P':1:{s:1:'a';i:5;}")
    (wire "O:1:'P':1:" ++ x5c :: wire "s:1:'a';i:5;}")
  /\ consumeObject escaping (wire "O:1:'P':1:{s:1:'a';i:5;}") 0
       (VStruct [(bytes "A", VInt Int 0)])
     = Ret (VStruct [(bytes "A", VInt Int 5)], 24, None)
  /\ consumeObject escaping
       (wire "O:1:'P':1:" ++ x5c :: wire "s:1:'a';i:5;}") 0
       (VStruct [(bytes "A", VInt Int 0)])
     = Ret (VStruct [(bytes "A", VInt Int 0)], 24, None)
  /\ consumeObject escaping
       (wire "O:1:'P':1:" ++ x5c :: wire "s:1:'a';i:5;}") 0
       (VStruct [(bytes "A", VInt Int 0)])
     <> consumeObject escaping (wire "O:1:'P':1:{s:1:'a';i:5;}") 0
          (VStruct [(bytes "A", VInt Int 0)]).
Proof.
  split; [ | split; [ | split]]; try (vm_compute; reflexivity).
  - apply differ_at_bracesb_sound. vm_compute. reflexivity.
  - vm_compute. discriminate.
Qed.

(** * Further properties of the consumers *)

(** ** [strconv.Atoi] *)

Lemma digit_range c d : digit c = Some d -> 0 <= d <= 9.
Proof.
  unfold digit.
  destruct ((48 <=? Z.of_N (to_N c)) && (Z.of_N (to_N c) <=? 57)) eqn:H;
    [ | discriminate].
  intros Hd; inversion Hd; subst. apply andb_prop in H. lia.
Qed.

Lemma parseDigits_grows s : forall acc n,
  0 <= acc <= maxUint64 -> parseDigits s acc = inl n -> acc <= n <= maxUint64.
Proof.
  induction s as [ | c s IH]; intros acc n Hacc; cbn [parseDigits].
  - intros H; inversion H; subst; lia.
  - destruct (digit c) as [d | ] eqn:Hd; [ | discriminate].
    apply digit_range in Hd.
    destruct ((maxUint64 / 10 + 1 <=? acc) || (maxUint64 <? acc * 10 + d))
      eqn:Hb; [discriminate | ].
    apply orb_false_elim in Hb; destruct Hb as [_ Hb].
    apply Z.ltb_ge in Hb.
    intros H; apply IH in H; lia.
Qed.

Lemma decimalValue_grows ds : forall acc,
  0 <= acc -> allDigits ds = true -> acc <= decimalValue ds acc.
Proof.
  induction ds as [ | c ds IH]; intros acc Hacc;
    cbn [decimalValue allDigits forallb]; [lia | ].
  destruct (digit c) as [d | ] eqn:Hd; [ | discriminate].
  apply digit_range in Hd. cbn [andb]. intros Hall.
  specialize (IH (acc * 10 + d) ltac:(lia) Hall). lia.
Qed.

Lemma parseDigits_value ds : forall acc,
  0 <= acc -> allDigits ds = true -> decimalValue ds acc <= maxUint64 ->
  parseDigits ds acc = inl (decimalValue ds acc).
Proof.
  induction ds as [ | c ds IH]; intros acc Hacc;
    cbn [parseDigits decimalValue allDigits forallb]; [reflexivity | ].
  destruct (digit c) as [d | ] eqn:Hd; [ | discriminate].
  pose proof (digit_range _ _ Hd) as Hr. cbn [andb]. intros Hall Hmax.
  pose proof (decimalValue_grows ds (acc * 10 + d) ltac:(lia) Hall) as Hg.
  assert (Hcut : (maxUint64 / 10 + 1 <=? acc) = false).
  { apply Z.leb_gt. unfold maxUint64 in *.
    change (2 ^ 64 - 1) with 18446744073709551615 in *.
    change (18446744073709551615 / 10 + 1) with 1844674407370955162. lia. }
  assert (Hover : (maxUint64 <? acc * 10 + d) = false)
    by (apply Z.ltb_ge; lia).
  rewrite Hcut, Hover; simpl. apply IH; [lia | exact Hall | exact Hmax].
Qed.

Lemma digit_not_sign c d :
  digit c = Some d -> Byte.eqb c "-" || Byte.eqb c "+" = false.
Proof.
  intros Hd.
  destruct (Byte.eqb c "-") eqn:Hm;
    [apply byte_eqb_eq in Hm; subst; discriminate | ].
  destruct (Byte.eqb c "+") eqn:Hp;
    [apply byte_eqb_eq in Hp; subst; discriminate | reflexivity].
Qed.

Lemma Atoi_range s x :
  Atoi s = (x, None) -> - 2 ^ 63 <= x < 2 ^ 63.
Proof.
  unfold Atoi. cbv zeta.
  destruct s as [ | c s']; [intros H; discriminate H | ].
  destruct (parseUint
              (if Byte.eqb c "-" || Byte.eqb c "+" then s' else c :: s'))
    as [un | [ | ]] eqn:Hp; try discriminate.
  assert (Hun : 0 <= un).
  { unfold parseUint in Hp.
    destruct (if Byte.eqb c "-" || Byte.eqb c "+" then s' else c :: s');
      [discriminate | ].
    apply parseDigits_grows in Hp; [lia | unfold maxUint64; lia]. }
  destruct (Byte.eqb c "-"); cbn [negb andb].
  - destruct (2 ^ 63 <? un) eqn:Hlt; [discriminate | ].
    apply Z.ltb_ge in Hlt. intros H; inversion H; subst; lia.
  - destruct (2 ^ 63 <=? un) eqn:Hle; [discriminate | ].
    apply Z.leb_gt in Hle. intros H; inversion H; subst; lia.
Qed.

Lemma Atoi_digits ds :
  allDigits ds = true -> ds <> [] -> decimalValue ds 0 < 2 ^ 63 ->
  Atoi ds = (decimalValue ds 0, None).
Proof.
  intros Hall Hne Hmax. unfold Atoi.
  destruct ds as [ | c ds']; [contradiction | ]. cbv zeta.
  assert (Hsign : Byte.eqb c "-" || Byte.eqb c "+" = false).
  { simpl in Hall. destruct (digit c) as [d | ] eqn:Hd; [ | discriminate].
    exact (digit_not_sign c d Hd). }
  rewrite Hsign. apply orb_false_elim in Hsign; destruct Hsign as [Hm _].
  rewrite Hm. unfold parseUint.
  rewrite (parseDigits_value (c :: ds') 0 ltac:(lia) Hall)
    by (unfold maxUint64; lia).
  cbn [negb andb].
  destruct (2 ^ 63 <=? decimalValue (c :: ds') 0) eqn:Hle;
    [apply Z.leb_le in Hle; lia | reflexivity].
Qed.

Lemma Atoi_minus ds :
  allDigits ds = true -> ds <> [] -> decimalValue ds 0 <= 2 ^ 63 ->
  Atoi ("-"%byte :: ds) = (- decimalValue ds 0, None).
Proof.
  intros Hall Hne Hmax. unfold Atoi. cbv zeta.
  change (Byte.eqb "-" "-") with true. cbn [orb negb andb].
  unfold parseUint. destruct ds as [ | c ds']; [contradiction | ].
  rewrite (parseDigits_value (c :: ds') 0 ltac:(lia) Hall)
    by (unfold maxUint64; lia).
  destruct (2 ^ 63 <? decimalValue (c :: ds') 0) eqn:Hlt;
    [apply Z.ltb_lt in Hlt; lia | reflexivity].
Qed.

(** ** The literal region of a node *)

Lemma slice_nth data lo hi s :
  slice data lo hi = Ret s ->
  len s = hi - lo
  /\ forall k, 0 <= k < hi - lo ->
       nth (Z.to_nat k) s x00 = nth (Z.to_nat (lo + k)) data x00.
Proof.
  intros H; apply slice_Ret in H. destruct H as [H1 [H2 Hs]]; subst s.
  unfold len in *. split.
  - rewrite length_firstn, length_skipn. lia.
  - intros k Hk. rewrite nth_firstn, nth_skipn.
    destruct (Z.to_nat k <? Z.to_nat (hi - lo))%nat eqn:Hlt.
    + f_equal; lia.
    + apply Nat.ltb_ge in Hlt; lia.
Qed.

(** X1.  From an offset that is not negative [consumeStringUntilByte]
    always returns.  When the byte occurs at or after the offset, it
    returns the position [n] of its first occurrence and the
    [n - offset] bytes before it, none of which is that byte; when it
    does not occur there, the empty text and [-1]. *)
Theorem until_byte_excludes_delimiter data b offset :
  0 <= offset ->
  exists s n,
    consumeStringUntilByte data b offset = Ret (s, n)
    /\ ((n = -1 /\ s = []
         /\ forall i, offset <= i < len data ->
              nth (Z.to_nat i) data x00 <> b)
        \/ (offset <= n < len data
            /\ nth (Z.to_nat n) data x00 = b
            /\ len s = n - offset
            /\ forall k, 0 <= k < n - offset ->
                 nth (Z.to_nat k) s x00 = nth (Z.to_nat (offset + k)) data x00
                 /\ nth (Z.to_nat k) s x00 <> b)).
Proof.
  intros Hoff. unfold consumeStringUntilByte.
  pose proof (findByte_spec data b offset) as Hf; simpl in Hf.
  destruct Hf as [[Hr Hnone] | [H1 [H2 [Hat Hbefore]]]].
  - rewrite Hr. exists [], (-1). split; [reflexivity | left; auto].
  - destruct (findByte data b offset <? 0) eqn:Hneg;
      [apply Z.ltb_lt in Hneg; lia | ].
    destruct (slice data offset (findByte data b offset)) as [s | p | ] eqn:Hs.
    + exists s, (findByte data b offset). split; [reflexivity | right].
      apply slice_nth in Hs. destruct Hs as [Hlen Hnth].
      repeat split; try lia; try assumption.
      * apply Hnth; lia.
      * rewrite Hnth by lia. apply Hbefore; lia.
    + exfalso. unfold slice in Hs.
      destruct ((0 <=? offset) && (offset <=? findByte data b offset)
                && (findByte data b offset <=? len data)) eqn:Hb;
        [discriminate | ].
      apply andb_false_iff in Hb. destruct Hb as [Hb | Hb].
      * apply andb_false_iff in Hb. destruct Hb as [Hb | Hb];
          [apply Z.leb_gt in Hb | apply Z.leb_gt in Hb]; lia.
      * apply Z.leb_gt in Hb; lia.
    + exfalso; exact (slice_halts _ _ _ Hs).
Qed.

Lemma until_byte_excludes_delimiter_witness :
  exists s n,
    consumeStringUntilByte (bytes "i:42;N;") ";" 2 = Ret (s, n)
    /\ ((n = -1 /\ s = []
         /\ forall i, 2 <= i < len (bytes "i:42;N;") ->
              nth (Z.to_nat i) (bytes "i:42;N;") x00 <> ";"%byte)
        \/ (2 <= n < len (bytes "i:42;N;")
            /\ nth (Z.to_nat n) (bytes "i:42;N;") x00 = ";"%byte
            /\ len s = n - 2
            /\ forall k, 0 <= k < n - 2 ->
                 nth (Z.to_nat k) s x00
                 = nth (Z.to_nat (2 + k)) (bytes "i:42;N;") x00
                 /\ nth (Z.to_nat k) s x00 <> ";"%byte)).
Proof.
  apply (until_byte_excludes_delimiter (bytes "i:42;N;") ";" 2). lia.
Defined.

(** Where the literal of a number or count starts, and its delimiter. *)
Lemma literal_region data b start parse_ok s n :
  consumeStringUntilByte data b start = Ret (s, n) ->
  parse_ok s = true -> (parse_ok [] = false) ->
  0 <= start /\ start + 1 <= n /\ n < len data
  /\ nth (Z.to_nat n) data x00 = b
  /\ (forall i, start <= i < n -> nth (Z.to_nat i) data x00 <> b)
  /\ slice data start n = Ret s.
Proof.
  intros Hs Hok Hnil.
  pose proof (consumeStringUntilByte_Ret _ _ _ _ _ Hs) as Hc.
  destruct Hc as [[Hn He] | [H1 [H2 [H3 H4]]]]; [subst; congruence | ].
  pose proof (findByte_spec data b start) as Hf; simpl in Hf.
  destruct Hf as [[Hr _] | [_ [_ [Hat Hbefore]]]]; [lia | ].
  rewrite <- H3 in Hat, Hbefore.
  assert (Hne : start <> n).
  { intros Heq; subst n. apply slice_nth in H4. destruct H4 as [Hl _].
    destruct s; [congruence | ]. unfold len in Hl; simpl in Hl; lia. }
  repeat split; try lia; assumption.
Qed.

Lemma consumeInt_literal data offset x o :
  consumeInt data offset = Ret (x, o, None) ->
  checkType data "i" offset = true
  /\ offset + 4 <= o <= len data
  /\ nth (Z.to_nat (o - 1)) data x00 = ";"%byte
  /\ (forall i, offset + 2 <= i < o - 1 -> nth (Z.to_nat i) data x00 <> ";"%byte)
  /\ exists s, slice data (offset + 2) (o - 1) = Ret s /\ Atoi s = (x, None).
Proof.
  unfold consumeInt.
  destruct (checkType data "i" offset) eqn:Hc; simpl; [ | discriminate].
  destruct (consumeStringUntilByte data ";" (offset + 2))
    as [[s n] | p | ] eqn:Hs; simpl; try discriminate.
  destruct (Atoi s) as [i [err | ]] eqn:HA; [discriminate | ].
  intros H; inv_Ret H.
  destruct (literal_region data ";" (offset + 2)
              (fun s => match snd (Atoi s) with None => true | _ => false end)
              s n Hs) as [H0 [H1 [H2 [H3 [H4 H5]]]]].
  - rewrite HA; reflexivity.
  - reflexivity.
  - rewrite Z.add_simpl_r.
    split; [reflexivity | ]. split; [lia | ]. split; [exact H3 | ].
    split; [exact H4 | ]. exists s; split; assumption.
Qed.

Lemma consumeFloat_literal E data offset x o :
  consumeFloat E data offset = Ret (x, o, None) ->
  checkType data "d" offset = true
  /\ offset + 4 <= o <= len data
  /\ nth (Z.to_nat (o - 1)) data x00 = ";"%byte
  /\ (forall i, offset + 2 <= i < o - 1 -> nth (Z.to_nat i) data x00 <> ";"%byte)
  /\ exists s, slice data (offset + 2) (o - 1) = Ret s
               /\ ParseFloat E s = (x, None).
Proof.
  unfold consumeFloat.
  destruct (checkType data "d" offset) eqn:Hc; simpl; [ | discriminate].
  destruct (consumeStringUntilByte data ";" (offset + 2))
    as [[s n] | p | ] eqn:Hs; simpl; try discriminate.
  destruct (ParseFloat E s) as [v [err | ]] eqn:HA; [discriminate | ].
  intros H; inv_Ret H.
  destruct (literal_region data ";" (offset + 2)
              (fun s => match snd (ParseFloat E s) with
                        | None => true
                        | _ => false
                        end)
              s n Hs) as [H0 [H1 [H2 [H3 [H4 H5]]]]].
  - rewrite HA; reflexivity.
  - pose proof (ParseFloat_empty E) as Hnil.
    destruct (snd (ParseFloat E [])); [reflexivity | now elim Hnil].
  - rewrite Z.add_simpl_r.
    split; [reflexivity | ]. split; [lia | ]. split; [exact H3 | ].
    split; [exact H4 | ]. exists s; split; assumption.
Qed.

Lemma consumeIntPart_literal data offset x o :
  consumeIntPart data offset = Ret (x, o, None) ->
  offset + 2 <= o <= len data
  /\ nth (Z.to_nat (o - 1)) data x00 = ":"%byte
  /\ (forall i, offset <= i < o - 1 -> nth (Z.to_nat i) data x00 <> ":"%byte).
Proof.
  unfold consumeIntPart.
  destruct (consumeStringUntilByte data ":" offset)
    as [[s n] | p | ] eqn:Hs; simpl; try discriminate.
  destruct (Atoi s) as [i [err | ]] eqn:HA; [discriminate | ].
  intros H; inv_Ret H.
  destruct (literal_region data ":" offset
              (fun s => match snd (Atoi s) with None => true | _ => false end)
              s n Hs) as [H0 [H1 [H2 [H3 [H4 H5]]]]].
  - rewrite HA; reflexivity.
  - reflexivity.
  - rewrite Z.add_simpl_r. split; [lia | ]. split; [exact H3 | exact H4].
Qed.

(** X2.  A number that decodes ends inside the buffer: the offset an
    integer or float consumer returns is at most the length of the
    buffer, the byte before it is the first [;] after the tag and its
    separator, and at least one byte of literal lies between.  The same
    holds of a count field and its [:]. *)
Theorem literal_ends_at_delimiter E data offset newOffset :
  (run E CInt data offset = Ret (newOffset, None)
   \/ run E CFloat data offset = Ret (newOffset, None) ->
   offset + 4 <= newOffset <= len data
   /\ nth (Z.to_nat (newOffset - 1)) data x00 = ";"%byte
   /\ forall i, offset + 2 <= i < newOffset - 1 ->
        nth (Z.to_nat i) data x00 <> ";"%byte)
  /\ (run E CIntPart data offset = Ret (newOffset, None) ->
      offset + 2 <= newOffset <= len data
      /\ nth (Z.to_nat (newOffset - 1)) data x00 = ":"%byte
      /\ forall i, offset <= i < newOffset - 1 ->
           nth (Z.to_nat i) data x00 <> ":"%byte).
Proof.
  split.
  - intros [H | H]; simpl in H; apply outcome_Ret in H; destruct H as [x H].
    + apply consumeInt_literal in H. destruct H as [_ [H1 [H2 [H3 _]]]]. auto.
    + apply consumeFloat_literal in H. destruct H as [_ [H1 [H2 [H3 _]]]]. auto.
  - intros H; simpl in H; apply outcome_Ret in H; destruct H as [x H].
    apply consumeIntPart_literal in H. exact H.
Qed.

Lemma literal_ends_at_delimiter_witness :
  (5 + 4 <= 11 <= len (bytes "b:1;xi:-77;N;")
   /\ nth (Z.to_nat (11 - 1)) (bytes "b:1;xi:-77;N;") x00 = ";"%byte)
  /\ (2 + 2 <= 4 <= len (wire "s:5:'hello';")
      /\ nth (Z.to_nat (4 - 1)) (wire "s:5:'hello';") x00 = ":"%byte).
Proof.
  destruct (literal_ends_at_delimiter reference (bytes "b:1;xi:-77;N;") 5 11)
    as [Hnum _].
  destruct (literal_ends_at_delimiter reference (wire "s:5:'hello';") 2 4)
    as [_ Hcount].
  destruct (Hnum ltac:(left; reflexivity)) as [H1 [H2 _]].
  destruct (Hcount ltac:(reflexivity)) as [H3 [H4 _]].
  split; split; assumption.
Defined.

(** X3.  An integer that decodes fits Go's 64-bit [int]: the value of
    [consumeInt], the count of [consumeIntPart] and an integer value of
    [consumeNext] lie between [-2^63] and [2^63 - 1]. *)
Theorem decoded_integers_fit_int64 E data offset x newOffset :
  consumeInt data offset = Ret (x, newOffset, None)
  \/ consumeIntPart data offset = Ret (x, newOffset, None)
  \/ consumeNext E data offset = Ret (DInt x, newOffset, None) ->
  - 2 ^ 63 <= x <= 2 ^ 63 - 1.
Proof.
  assert (Hint : forall off o y,
             consumeInt data off = Ret (y, o, None) -> - 2 ^ 63 <= y < 2 ^ 63).
  { intros off o y H. apply consumeInt_literal in H.
    destruct H as [_ [_ [_ [_ [s [_ HA]]]]]]. exact (Atoi_range _ _ HA). }
  intros [H | [H | H]].
  - apply Hint in H; lia.
  - apply consumeIntPart_ok in H. destruct H as [_ [_ [_ [s [_ HA]]]]].
    apply Atoi_range in HA; lia.
  - unfold consumeNext in H.
    destruct (len data <=? offset); [discriminate | ].
    destruct (index data offset) as [tag | p | ]; simpl in H; try discriminate.
    destruct (Byte.eqb tag "b").
    { unfold boxed in H. destruct (consumeBool data offset) as [[[a o] e] | | ];
        simpl in H; discriminate. }
    destruct (Byte.eqb tag "d").
    { unfold boxed in H.
      destruct (consumeFloat E data offset) as [[[a o] e] | | ];
        simpl in H; discriminate. }
    destruct (Byte.eqb tag "i").
    { unfold boxed in H.
      destruct (consumeInt data offset) as [[[a o] e] | | ] eqn:Hi;
        simpl in H; try discriminate.
      inv_Ret H. apply Hint in Hi; lia. }
    destruct (Byte.eqb tag "s").
    { unfold boxed in H.
      destruct (consumeString E data offset) as [[[a o] e] | | ];
        simpl in H; discriminate. }
    destruct (Byte.eqb tag "N").
    { unfold consumeNil in H.
      destruct (negb (checkType data "N" offset)); discriminate. }
    destruct (slice_from data offset); simpl in H; discriminate.
Qed.

Lemma decoded_integers_fit_int64_witness :
  - 2 ^ 63 <= - 2 ^ 63 <= 2 ^ 63 - 1.
Proof.
  exact (decoded_integers_fit_int64 reference
           (bytes "i:-9223372036854775808;") 0 (- 2 ^ 63) 23
           ltac:(left; vm_compute; reflexivity)).
Defined.

(** ** The recursion of the object consumer *)

Lemma bind_cong {A B : Type} (c : go A) (k k' : A -> go B) :
  (forall a, c = Ret a -> k a = k' a) -> bind c k = bind c k'.
Proof. destruct c; simpl; auto. Qed.

Lemma bind_not_Diverge {A B : Type} (c : go A) (k : A -> go B) :
  bind c k <> Diverge ->
  c <> Diverge /\ forall a, c = Ret a -> k a <> Diverge.
Proof.
  destruct c as [a | p | ]; simpl; intros H.
  - split; [discriminate | intros a' Ha; inversion Ha; subst; exact H].
  - split; [discriminate | intros a' Ha; discriminate].
  - contradiction.
Qed.

(** A call that does not run out of fuel has the same outcome with any
    larger amount. *)
Lemma object_fuel_monotone E fuel :
  (forall data offset v more,
      consumeObjectFuel E fuel data offset v <> Diverge ->
      consumeObjectFuel E (fuel + more) data offset v
      = consumeObjectFuel E fuel data offset v)
  /\ (forall data i length offset v more,
         elements E fuel data i length offset v <> Diverge ->
         elements E (fuel + more) data i length offset v
         = elements E fuel data i length offset v).
Proof.
  induction fuel as [ | fuel [IHo IHe]];
    [split; intros; simpl in *; contradiction | ].
  split.
  - intros data offset v more. cbn [Nat.add]. rewrite !consumeObjectFuel_S.
    destruct (negb (checkType data "O" offset)); [reflexivity | ].
    intros H. apply bind_cong. intros [[cls o1] [e1 | ]] Hcls; [reflexivity | ].
    apply bind_not_Diverge in H. destruct H as [_ H].
    specialize (H _ Hcls). cbv beta iota in H.
    apply bind_cong. intros [[length o2] [e2 | ]] Hcnt; [reflexivity | ].
    apply bind_not_Diverge in H. destruct H as [_ H].
    specialize (H _ Hcnt). cbv beta iota in H.
    apply IHe; exact H.
  - intros data i length offset v more. cbn [Nat.add]. rewrite !elements_S.
    destruct (i <? length); [ | reflexivity].
    intros H. apply bind_cong. intros [[key o1] [e1 | ]] Hkey; [reflexivity | ].
    apply bind_not_Diverge in H. destruct H as [_ H].
    specialize (H _ Hkey). cbv beta iota in H.
    apply bind_cong. intros name Hname.
    apply bind_not_Diverge in H. destruct H as [_ H]. specialize (H _ Hname).
    apply bind_cong. intros field Hfield.
    apply bind_not_Diverge in H. destruct H as [_ H]. specialize (H _ Hfield).
    unfold pairValue in *.
    apply bind_cong. intros tag Htag.
    apply bind_not_Diverge in H. destruct H as [_ H]. specialize (H _ Htag).
    cbv beta in H.
    destruct (Byte.eqb tag "O").
    + apply bind_not_Diverge in H. destruct H as [Hsub H].
      rewrite (IHo _ _ _ more Hsub).
      apply bind_cong. intros [[sub o2] [e2 | ]] Hs; [reflexivity | ].
      specialize (H _ Hs). cbv beta iota in H. apply IHe; exact H.
    + apply bind_cong. intros [[value o2] [e2 | ]] Hval; [reflexivity | ].
      apply bind_not_Diverge in H. destruct H as [_ H].
      specialize (H _ Hval). cbv beta iota in H.
      destruct field as [f | ]; [ | apply IHe; exact H].
      apply bind_cong. intros f' Hset.
      apply bind_not_Diverge in H. destruct H as [_ H].
      specialize (H _ Hset). apply IHe; exact H.
Qed.

(** X4.  [consumeObject] comes to an end on every buffer, whatever the
    count field declares: it returns or panics, and one unit of fuel per
    byte of the buffer, and one more, is all the recursion needs; any
    larger amount gives the same outcome. *)
Theorem consumeObject_fuel_independent E fuel data offset v :
  (List.length data < fuel)%nat ->
  consumeObjectFuel E fuel data offset v = consumeObject E data offset v
  /\ consumeObject E data offset v <> Diverge.
Proof.
  intros Hfuel.
  assert (Hret : consumeObject E data offset v <> Diverge).
  { unfold consumeObject.
    destruct (Z_lt_dec offset 0) as [Hneg | Hpos].
    - rewrite consumeObjectFuel_S.
      destruct (checkType data "O" offset) eqn:Hc; simpl; [ | discriminate].
      apply checkType_true in Hc; lia.
    - apply object_fuel_enough; unfold len; lia. }
  split; [ | exact Hret].
  unfold consumeObject in *.
  replace fuel with (S (List.length data) + (fuel - S (List.length data)))%nat
    by lia.
  apply (proj1 (object_fuel_monotone E (S (List.length data)))). exact Hret.
Qed.

Lemma consumeObject_fuel_independent_witness :
  consumeObjectFuel reference 100 (wire "O:1:'P':9223372036854775807:{") 0
    dummyObject
  = consumeObject reference (wire "O:1:'P':9223372036854775807:{") 0 dummyObject
  /\ consumeObject reference (wire "O:1:'P':9223372036854775807:{") 0 dummyObject
     <> Diverge.
Proof.
  apply (consumeObject_fuel_independent reference 100). vm_compute. lia.
Defined.

(** ** A node behind a prefix *)

Lemma len_app a b : len (a ++ b) = len a + len b.
Proof. unfold len; rewrite length_app; lia. Qed.

Lemma len_nonneg a : 0 <= len a.
Proof. unfold len; lia. Qed.

Lemma nth_behind pre data k :
  0 <= k ->
  nth (Z.to_nat (len pre + k)) (pre ++ data) x00 = nth (Z.to_nat k) data x00.
Proof.
  intros Hk. rewrite app_nth2 by (unfold len; lia).
  f_equal. unfold len; lia.
Qed.

Lemma checkType_behind pre data c offset :
  0 <= offset ->
  checkType (pre ++ data) c (len pre + offset) = checkType data c offset.
Proof.
  intros H. unfold checkType. rewrite len_app, nth_behind by exact H.
  pose proof (len_nonneg pre) as Hp.
  destruct (0 <=? offset) eqn:H0; [ | lia].
  destruct (0 <=? len pre + offset) eqn:H1; [ | lia].
  destruct (offset <? len data) eqn:H2;
    destruct (len pre + offset <? len pre + len data) eqn:H3;
    try reflexivity; lia.
Qed.

Lemma index_behind pre data offset :
  0 <= offset -> index (pre ++ data) (len pre + offset) = index data offset.
Proof.
  intros H. unfold index. rewrite len_app, nth_behind by exact H.
  pose proof (len_nonneg pre) as Hp.
  destruct (0 <=? offset) eqn:H0; [ | lia].
  destruct (0 <=? len pre + offset) eqn:H1; [ | lia].
  destruct (offset <? len data) eqn:H2;
    destruct (len pre + offset <? len pre + len data) eqn:H3;
    try reflexivity; lia.
Qed.

Lemma slice_behind pre data lo hi :
  0 <= lo ->
  slice (pre ++ data) (len pre + lo) (len pre + hi) = slice data lo hi.
Proof.
  intros H. unfold slice. rewrite len_app.
  pose proof (len_nonneg pre) as Hp.
  destruct (0 <=? lo) eqn:H0; [ | lia].
  destruct (0 <=? len pre + lo) eqn:H1; [ | lia].
  destruct (lo <=? hi) eqn:H2;
    destruct (len pre + lo <=? len pre + hi) eqn:H3; try lia;
    [ | reflexivity].
  destruct (hi <=? len data) eqn:H4;
    destruct (len pre + hi <=? len pre + len data) eqn:H5; try lia;
    [ | reflexivity].
  simpl. f_equal.
  replace (len pre + hi - (len pre + lo)) with (hi - lo) by lia.
  f_equal.
  replace (Z.to_nat (len pre + lo))
    with (List.length pre + Z.to_nat lo)%nat by (unfold len; lia).
  rewrite skipn_app, skipn_all2 by lia. simpl.
  replace (List.length pre + Z.to_nat lo - List.length pre)%nat
    with (Z.to_nat lo) by lia.
  reflexivity.
Qed.

Lemma findByte_behind pre data b offset :
  0 <= offset ->
  findByte (pre ++ data) b (len pre + offset)
  = (if findByte data b offset <? 0 then -1
     else len pre + findByte data b offset).
Proof.
  intros H. pose proof (len_nonneg pre) as Hp.
  pose proof (findByte_spec data b offset) as Hf; simpl in Hf.
  destruct Hf as [[Hr Hnone] | [H1 [H2 [Hat Hbefore]]]].
  - rewrite Hr; simpl. apply findByte_none. intros _ i Hi.
    rewrite len_app in Hi.
    replace i with (len pre + (i - len pre)) by lia.
    rewrite nth_behind by lia. apply Hnone; lia.
  - destruct (findByte data b offset <? 0) eqn:Hneg;
      [apply Z.ltb_lt in Hneg; lia | ].
    apply findByte_found.
    + lia.
    + rewrite len_app; lia.
    + rewrite nth_behind by lia. exact Hat.
    + intros i Hi.
      replace i with (len pre + (i - len pre)) by lia.
      rewrite nth_behind by lia. apply Hbefore; lia.
Qed.

Lemma consumeStringUntilByte_behind pre data b offset :
  0 <= offset ->
  consumeStringUntilByte (pre ++ data) b (len pre + offset)
  = match consumeStringUntilByte data b offset with
    | Ret (s, n) => Ret (s, if n <? 0 then -1 else len pre + n)
    | r => r
    end.
Proof.
  intros H. unfold consumeStringUntilByte.
  rewrite findByte_behind by exact H.
  pose proof (len_nonneg pre) as Hp.
  destruct (findByte data b offset <? 0) eqn:Hneg; [reflexivity | ].
  apply Z.ltb_ge in Hneg.
  destruct (len pre + findByte data b offset <? 0) eqn:Hneg';
    [apply Z.ltb_lt in Hneg'; lia | ].
  rewrite slice_behind by exact H.
  destruct (slice data offset (findByte data b offset)); simpl;
    try reflexivity.
  destruct (findByte data b offset <? 0) eqn:Hn; [ | reflexivity].
  apply Z.ltb_lt in Hn; lia.
Qed.

(** What a literal consumer makes of the text up to the delimiter. *)
Lemma literal_behind {A : Type} pre data b start
  (parse : list byte -> A * option error) (zero : A) :
  0 <= start ->
  (exists err, snd (parse []) = Some err) ->
  bind (consumeStringUntilByte (pre ++ data) b (len pre + start))
       (fun x => let (s, n) := x in
                 match parse s with
                 | (_, Some err) => Ret (zero, -1, Some err)
                 | (v, None) => Ret (v, n + 1, None)
                 end)
  = shift (len pre)
      (bind (consumeStringUntilByte data b start)
            (fun x => let (s, n) := x in
                      match parse s with
                      | (_, Some err) => Ret (zero, -1, Some err)
                      | (v, None) => Ret (v, n + 1, None)
                      end)).
Proof.
  intros H [err Hnil].
  rewrite consumeStringUntilByte_behind by exact H.
  destruct (consumeStringUntilByte data b start) as [[s n] | p | ] eqn:Hs;
    simpl; try reflexivity.
  apply consumeStringUntilByte_Ret in Hs.
  destruct Hs as [[Hn He] | [H1 [H2 _]]].
  - subst. simpl. destruct (parse []) as [v [e | ]]; simpl in *;
      [reflexivity | discriminate].
  - destruct (n <? 0) eqn:Hneg; [apply Z.ltb_lt in Hneg; lia | ].
    destruct (parse s) as [v [e | ]]; simpl; [reflexivity | ].
    do 2 f_equal. f_equal. lia.
Qed.

Lemma consumeInt_behind pre data offset :
  0 <= offset ->
  consumeInt (pre ++ data) (len pre + offset)
  = shift (len pre) (consumeInt data offset).
Proof.
  intros H. unfold consumeInt. rewrite checkType_behind by exact H.
  destruct (checkType data "i" offset); simpl negb; cbv iota;
    [ | reflexivity].
  replace (len pre + offset + 2) with (len pre + (offset + 2)) by lia.
  apply (literal_behind pre data ";" (offset + 2) Atoi 0); [lia | ].
  rewrite Atoi_nil; simpl; eauto.
Qed.

Lemma consumeFloat_behind E pre data offset :
  0 <= offset ->
  consumeFloat E (pre ++ data) (len pre + offset)
  = shift (len pre) (consumeFloat E data offset).
Proof.
  intros H. unfold consumeFloat. rewrite checkType_behind by exact H.
  destruct (checkType data "d" offset); simpl negb; cbv iota;
    [ | reflexivity].
  replace (len pre + offset + 2) with (len pre + (offset + 2)) by lia.
  apply (literal_behind pre data ";" (offset + 2) (ParseFloat E) 0%float);
    [lia | ].
  pose proof (ParseFloat_empty E) as Hnil.
  destruct (snd (ParseFloat E [])) as [err | ]; [eauto | now elim Hnil].
Qed.

Lemma consumeIntPart_behind pre data offset :
  0 <= offset ->
  consumeIntPart (pre ++ data) (len pre + offset)
  = shift (len pre) (consumeIntPart data offset).
Proof.
  intros H. unfold consumeIntPart.
  apply (literal_behind pre data ":" offset Atoi 0); [lia | ].
  rewrite Atoi_nil; simpl; eauto.
Qed.

Lemma consumeNil_behind pre data offset :
  0 <= offset ->
  consumeNil (pre ++ data) (len pre + offset)
  = shift (len pre) (consumeNil data offset).
Proof.
  intros H. unfold consumeNil. rewrite checkType_behind by exact H.
  destruct (checkType data "N" offset); simpl; [ | reflexivity].
  do 2 f_equal. f_equal. lia.
Qed.

Lemma consumeBool_behind pre data offset :
  0 <= offset ->
  consumeBool (pre ++ data) (len pre + offset)
  = shift (len pre) (consumeBool data offset).
Proof.
  intros H. unfold consumeBool. rewrite checkType_behind by exact H.
  destruct (checkType data "b" offset); simpl negb; cbv iota;
    [ | reflexivity].
  replace (len pre + offset + 2) with (len pre + (offset + 2)) by lia.
  rewrite index_behind by lia.
  destruct (index data (offset + 2)); simpl; try reflexivity.
  do 2 f_equal. f_equal. lia.
Qed.

Lemma consumeStringRealPart_behind E pre data offset :
  0 <= offset -> decodes_alike E pre data ->
  consumeStringRealPart E (pre ++ data) (len pre + offset)
  = shift (len pre) (consumeStringRealPart E data offset).
Proof.
  intros H Hdec. unfold consumeStringRealPart.
  rewrite consumeIntPart_behind by exact H.
  destruct (consumeIntPart data offset)
    as [[[length newOffset] [e | ]] | p | ] eqn:Hcnt; simpl; try reflexivity.
  apply consumeIntPart_ok in Hcnt.
  unfold decodes_alike in Hdec.
  destruct (DecodePHPString E data) as [t | ],
           (DecodePHPString E (pre ++ data)) as [t2 | ];
    try contradiction; simpl; [ | reflexivity].
  destruct Hdec as [pre' [-> Hlen]]. rewrite <- Hlen.
  replace (newOffset + len pre' + 1) with (len pre' + (newOffset + 1)) by lia.
  replace (len pre' + (newOffset + 1) + length)
    with (len pre' + (newOffset + 1 + length)) by lia.
  rewrite slice_behind by lia.
  destruct (slice t (newOffset + 1) (newOffset + 1 + length)); simpl;
    try reflexivity.
  do 2 f_equal. f_equal. lia.
Qed.

Lemma consumeString_behind E pre data offset :
  0 <= offset -> decodes_alike E pre data ->
  consumeString E (pre ++ data) (len pre + offset)
  = shift (len pre) (consumeString E data offset).
Proof.
  intros H Hdec. unfold consumeString. rewrite checkType_behind by exact H.
  destruct (checkType data "s" offset); simpl negb; cbv iota;
    [ | reflexivity].
  replace (len pre + offset + 2) with (len pre + (offset + 2)) by lia.
  apply consumeStringRealPart_behind; [lia | exact Hdec].
Qed.

Lemma boxed_shift {A : Type} (box : A -> decoded) k r :
  boxed box (shift k r) = shift k (boxed box r).
Proof.
  destruct r as [[[a o] [e | ]] | p | ]; reflexivity.
Qed.

Lemma consumeNext_behind E pre data offset :
  0 <= offset -> decodes_alike E pre data ->
  consumeNext E (pre ++ data) (len pre + offset)
  = shift (len pre) (consumeNext E data offset).
Proof.
  intros H Hdec. unfold consumeNext.
  rewrite len_app, index_behind by exact H.
  destruct (len data <=? offset) eqn:Hl;
    destruct (len pre + len data <=? len pre + offset) eqn:Hl'; try lia;
    [reflexivity | ].
  destruct (index data offset) as [tag | p | ]; simpl; try reflexivity.
  destruct (Byte.eqb tag "b");
    [rewrite consumeBool_behind by exact H; apply boxed_shift | ].
  destruct (Byte.eqb tag "d");
    [rewrite consumeFloat_behind by exact H; apply boxed_shift | ].
  destruct (Byte.eqb tag "i");
    [rewrite consumeInt_behind by exact H; apply boxed_shift | ].
  destruct (Byte.eqb tag "s");
    [rewrite consumeString_behind by assumption; apply boxed_shift | ].
  destruct (Byte.eqb tag "N"); [apply consumeNil_behind; exact H | ].
  unfold slice_from. rewrite len_app, slice_behind by exact H.
  destruct (slice data offset (len data)); reflexivity.
Qed.

Lemma object_behind E pre data :
  decodes_alike E pre data ->
  forall fuel,
    (forall offset v, 0 <= offset ->
        consumeObjectFuel E fuel (pre ++ data) (len pre + offset) v
        = shift (len pre) (consumeObjectFuel E fuel data offset v))
    /\ (forall i length offset v, 0 <= offset ->
           elements E fuel (pre ++ data) i length (len pre + offset) v
           = shift (len pre) (elements E fuel data i length offset v)).
Proof.
  intros Hdec.
  induction fuel as [ | fuel [IHo IHe]]; [split; reflexivity | ].
  split.
  - intros offset v H. rewrite !consumeObjectFuel_S.
    rewrite checkType_behind by exact H.
    destruct (checkType data "O" offset) eqn:Hc; simpl negb; cbv iota;
      [ | reflexivity].
    replace (len pre + offset + 2) with (len pre + (offset + 2)) by lia.
    rewrite consumeStringRealPart_behind by (try lia; exact Hdec).
    destruct (consumeStringRealPart E data (offset + 2))
      as [[[cls o1] [e1 | ]] | p | ] eqn:Hcls; simpl; try reflexivity.
    apply consumeStringRealPart_sound in Hcls; simpl in Hcls.
    replace (o1 + len pre) with (len pre + o1) by lia.
    rewrite consumeIntPart_behind by lia.
    destruct (consumeIntPart data o1)
      as [[[length o2] [e2 | ]] | p | ] eqn:Hcnt; simpl; try reflexivity.
    apply consumeIntPart_sound in Hcnt; simpl in Hcnt.
    replace (o2 + len pre + 1) with (len pre + (o2 + 1)) by lia.
    apply IHe; lia.
  - intros i length offset v H. rewrite !elements_S.
    destruct (i <? length);
      [ | simpl; do 2 f_equal; f_equal; lia].
    rewrite consumeString_behind by assumption.
    destruct (consumeString E data offset)
      as [[[key o1] [e1 | ]] | p | ] eqn:Hkey; simpl; try reflexivity.
    apply consumeString_sound in Hkey; simpl in Hkey.
    destruct (upperCaseFirstLetter E key) as [name | ]; simpl;
      try reflexivity.
    destruct (FieldByName v name) as [field | p | ]; simpl; try reflexivity.
    unfold pairValue.
    replace (o1 + len pre) with (len pre + o1) by lia.
    rewrite index_behind by lia.
    destruct (index data o1) as [tag | p | ]; simpl; try reflexivity.
    destruct (Byte.eqb tag "O").
    + rewrite IHo by lia.
      destruct (consumeObjectFuel E fuel data o1
                  match field with Some f => f | None => dummyObject end)
        as [[[sub o2] [e2 | ]] | p | ] eqn:Hsub; simpl; try reflexivity.
      apply object_forward in Hsub; simpl in Hsub.
      replace (o2 + len pre) with (len pre + o2) by lia.
      apply IHe; lia.
    + rewrite consumeNext_behind by (try lia; exact Hdec).
      destruct (consumeNext E data o1)
        as [[[value o2] [e2 | ]] | p | ] eqn:Hval; simpl; try reflexivity.
      apply consumeNext_sound in Hval; simpl in Hval.
      replace (o2 + len pre) with (len pre + o2) by lia.
      destruct field as [f | ]; [ | apply IHe; lia].
      destruct (setField f value); simpl; try reflexivity.
      apply IHe; lia.
Qed.

(** X5.  A node decodes the same wherever it sits: behind any prefix,
    [consumeNext] and [consumeObject] return at the moved offset what
    they return without the prefix, with the returned offset moved as
    far; errors, panics and the destination are the same. *)
Theorem position_independent E pre data offset v :
  0 <= offset -> decodes_alike E pre data ->
  consumeNext E (pre ++ data) (len pre + offset)
  = shift (len pre) (consumeNext E data offset)
  /\ consumeObject E (pre ++ data) (len pre + offset) v
     = shift (len pre) (consumeObject E data offset v).
Proof.
  intros H Hdec. split; [apply consumeNext_behind; assumption | ].
  unfold consumeObject at 1.
  rewrite (proj1 (object_behind E pre data Hdec _)) by exact H.
  f_equal.
  replace (S (List.length (pre ++ data)))
    with (S (List.length data) + List.length pre)%nat
    by (rewrite length_app; lia).
  apply (proj1 (object_fuel_monotone E (S (List.length data)))).
  unfold consumeObject.
  destruct (Z_lt_dec offset 0) as [Hneg | Hpos]; [lia | ].
  apply object_fuel_enough; unfold len; lia.
Qed.

Lemma position_independent_witness :
  consumeNext reference (bytes "b:0;" ++ bytes "i:-5;x") (4 + 0)
  = Ret (DInt (-5), 9, None)
  /\ consumeObject reference
       (wire "s:1:'k';" ++ wire "O:1:'P':1:{s:1:'a';i:5;}") (8 + 0)
       (VStruct [(bytes "A", VInt Int16 0)])
     = Ret (VStruct [(bytes "A", VInt Int16 5)], 32, None).
Proof.
  destruct (position_independent reference (bytes "b:0;") (bytes "i:-5;x") 0
              dummyObject) as [Hnext _].
  { lia. }
  { exists (bytes "b:0;"); split; reflexivity. }
  destruct (position_independent reference (wire "s:1:'k';")
              (wire "O:1:'P':1:{s:1:'a';i:5;}") 0
              (VStruct [(bytes "A", VInt Int16 0)])) as [_ Hobj].
  { lia. }
  { exists (wire "s:1:'k';"); split; reflexivity. }
  split.
  - exact Hnext.
  - exact Hobj.
Defined.

(** ** Literals written in decimal *)

Lemma digit_digitByte d : 0 <= d <= 9 -> digit (digitByte d) = Some d.
Proof.
  intros H.
  assert (Hd : d = 0 \/ d = 1 \/ d = 2 \/ d = 3 \/ d = 4 \/ d = 5 \/ d = 6
               \/ d = 7 \/ d = 8 \/ d = 9) by lia.
  repeat (destruct Hd as [-> | Hd]; [reflexivity | ]). subst; reflexivity.
Qed.

Lemma allDigits_app a b :
  allDigits (a ++ b) = allDigits a && allDigits b.
Proof. unfold allDigits; apply forallb_app. Qed.

Lemma decimalValue_app a b acc :
  decimalValue (a ++ b) acc = decimalValue b (decimalValue a acc).
Proof.
  revert acc; induction a as [ | c a IH]; intros acc; simpl;
    [reflexivity | apply IH].
Qed.

Lemma digitsOf_spec fuel : forall n,
  (0 < fuel)%nat -> 0 <= n < 10 ^ Z.of_nat fuel ->
  allDigits (digitsOf fuel n) = true
  /\ digitsOf fuel n <> []
  /\ decimalValue (digitsOf fuel n) 0 = n.
Proof.
  induction fuel as [ | fuel IH]; intros n Hfuel Hn.
  - lia.
  - cbn [digitsOf]. destruct (n <? 10) eqn:Hlt.
    + apply Z.ltb_lt in Hlt.
      cbn [allDigits forallb decimalValue].
      rewrite digit_digitByte by lia.
      split; [reflexivity | split; [discriminate | lia]].
    + apply Z.ltb_ge in Hlt.
      assert (Hq : 0 <= n / 10 < 10 ^ Z.of_nat fuel).
      { split; [apply Z.div_pos; lia | ].
        apply Z.div_lt_upper_bound; [lia | ].
        rewrite Nat2Z.inj_succ, Z.pow_succ_r in Hn by lia. lia. }
      assert (Hpos : (0 < fuel)%nat).
      { destruct fuel; [simpl in Hq; lia | lia]. }
      destruct (IH _ Hpos Hq) as [Hall [Hne Hval]].
      pose proof (Z.mod_pos_bound n 10 ltac:(lia)) as Hm.
      rewrite allDigits_app, decimalValue_app, Hall, Hval.
      cbn [allDigits forallb decimalValue andb].
      rewrite digit_digitByte by lia.
      split; [reflexivity | split].
      * intros Heq; apply app_eq_nil in Heq; destruct Heq; discriminate.
      * pose proof (Z.div_mod n 10 ltac:(lia)). lia.
Qed.

Lemma digits_no_delimiter ds c :
  allDigits ds = true -> In c ds -> c <> ";"%byte /\ c <> ":"%byte.
Proof.
  unfold allDigits; rewrite forallb_forall. intros Hall Hin.
  specialize (Hall c Hin).
  split; intros ->; discriminate.
Qed.

Lemma itoa_spec n :
  - 2 ^ 63 <= n < 2 ^ 63 ->
  Atoi (itoa n) = (n, None)
  /\ forall c, In c (itoa n) -> c <> ";"%byte /\ c <> ":"%byte.
Proof.
  intros Hn. unfold itoa.
  assert (Hpow : 2 ^ 63 < 10 ^ Z.of_nat 20) by (vm_compute; reflexivity).
  destruct (n <? 0) eqn:Hneg.
  - apply Z.ltb_lt in Hneg.
    destruct (digitsOf_spec 20 (- n) ltac:(lia) ltac:(lia))
      as [Hall [Hne Hval]].
    split.
    + rewrite Atoi_minus by (try assumption; lia).
      rewrite Hval. f_equal; lia.
    + intros c [<- | Hin]; [split; discriminate | ].
      exact (digits_no_delimiter _ _ Hall Hin).
  - apply Z.ltb_ge in Hneg.
    destruct (digitsOf_spec 20 n ltac:(lia) ltac:(lia))
      as [Hall [Hne Hval]].
    split.
    + rewrite Atoi_digits by (try assumption; lia).
      rewrite Hval; reflexivity.
    + intros c Hin. exact (digits_no_delimiter _ _ Hall Hin).
Qed.

Lemma slice_prefix a b : slice (a ++ b) 0 (len a) = Ret a.
Proof.
  unfold slice. rewrite len_app.
  pose proof (len_nonneg a) as Ha. pose proof (len_nonneg b) as Hb.
  destruct (0 <=? 0) eqn:H0; [ | discriminate].
  destruct (0 <=? len a) eqn:H1; [ | lia].
  destruct (len a <=? len a + len b) eqn:H2; [ | lia].
  simpl. f_equal. rewrite Z.sub_0_r. unfold len. rewrite Nat2Z.id.
  rewrite firstn_app, Nat.sub_diag, firstn_all. simpl. apply app_nil_r.
Qed.

Lemma consumeStringUntilByte_first lit b rest :
  (forall c, In c lit -> c <> b) ->
  consumeStringUntilByte (lit ++ b :: rest) b 0 = Ret (lit, len lit).
Proof.
  intros Hno. unfold consumeStringUntilByte.
  pose proof (len_nonneg lit) as Hl.
  assert (Hfind : findByte (lit ++ b :: rest) b 0 = len lit).
  { apply findByte_found.
    - lia.
    - rewrite len_app. unfold len in *. cbn [List.length]. lia.
    - unfold len. rewrite Nat2Z.id, nth_middle. reflexivity.
    - intros i Hi. rewrite app_nth1 by (unfold len in Hi; lia).
      apply Hno, nth_In. unfold len in Hi; lia. }
  rewrite Hfind.
  destruct (len lit <? 0) eqn:Hneg; [apply Z.ltb_lt in Hneg; lia | ].
  rewrite slice_prefix. reflexivity.
Qed.

(** X6.  Every 64-bit integer written in decimal decodes to itself:
    [consumeInt] on [i:], the notation of [n], [;] and anything after
    returns [n] and the offset just past the [;]. *)
Theorem integer_round_trip n rest :
  - 2 ^ 63 <= n < 2 ^ 63 ->
  consumeInt (bytes "i:" ++ itoa n ++ ";"%byte :: rest) 0
  = Ret (n, len (itoa n) + 3, None).
Proof.
  intros Hn. destruct (itoa_spec n Hn) as [HA Hchars].
  unfold consumeInt.
  change (checkType (bytes "i:" ++ itoa n ++ ";"%byte :: rest) "i" 0)
    with true.
  cbn [negb].
  pose proof (consumeStringUntilByte_behind (bytes "i:")
                (itoa n ++ ";"%byte :: rest) ";" 0 ltac:(lia)) as Hs.
  change (len (bytes "i:") + 0) with (0 + 2) in Hs. rewrite Hs.
  rewrite consumeStringUntilByte_first by (intros c Hc; apply Hchars, Hc).
  pose proof (len_nonneg (itoa n)) as Hl.
  destruct (len (itoa n) <? 0) eqn:Hneg; [apply Z.ltb_lt in Hneg; lia | ].
  cbn [bind]. rewrite HA.
  change (len (bytes "i:")) with 2. do 2 f_equal. f_equal. lia.
Qed.

Lemma integer_round_trip_witness :
  consumeInt (bytes "i:" ++ itoa (-1200) ++ ";"%byte :: bytes "N;") 0
  = Ret (-1200, 8, None).
Proof.
  apply (integer_round_trip (-1200) (bytes "N;")). lia.
Defined.

Lemma consumeIntPart_first n rest :
  - 2 ^ 63 <= n < 2 ^ 63 ->
  consumeIntPart (itoa n ++ ":"%byte :: rest) 0
  = Ret (n, len (itoa n) + 1, None).
Proof.
  intros Hn. destruct (itoa_spec n Hn) as [HA Hchars].
  unfold consumeIntPart.
  rewrite consumeStringUntilByte_first by (intros c Hc; apply Hchars, Hc).
  cbn [bind]. rewrite HA. reflexivity.
Qed.

(** X7.  Length-prefixed text is binary-safe: for any bytes [payload],
    quotes, semicolons and colons among them, [consumeString] on [s:],
    the decimal length, [:], the quoted payload, [;] and anything after
    returns exactly [payload] and the offset just past the [;], provided
    the decoder leaves the buffer as it is. *)
Theorem string_round_trip E payload rest :
  let data :=
    bytes "s:" ++ itoa (len payload)
      ++ ":"%byte :: x22 :: payload ++ x22 :: ";"%byte :: rest in
  len payload < 2 ^ 63 ->
  DecodePHPString E data = Some data ->
  consumeString E data 0 = Ret (payload, len data - len rest, None).
Proof.
  intros data Hlen Hdec.
  pose proof (len_nonneg payload) as Hp.
  pose proof (len_nonneg (itoa (len payload))) as Hl.
  pose proof (len_nonneg rest) as Hr.
  assert (Hdata : len data = len (itoa (len payload)) + len payload + len rest + 6).
  { unfold data. rewrite !len_app. change (len (bytes "s:")) with 2.
    unfold len in *. cbn [List.length]. rewrite length_app.
    cbn [List.length]. lia. }
  unfold consumeString.
  rewrite (checkType_tag data "s" 0) by (try reflexivity; lia).
  cbn [negb]. unfold consumeStringRealPart.
  pose proof (consumeIntPart_behind (bytes "s:")
                (itoa (len payload)
                   ++ ":"%byte :: x22 :: payload ++ x22 :: ";"%byte :: rest)
                0 ltac:(lia)) as Hcount.
  change (len (bytes "s:") + 0) with (0 + 2) in Hcount.
  fold data in Hcount. rewrite Hcount.
  rewrite consumeIntPart_first by lia.
  cbn [shift bind]. rewrite Hdec. cbn [lift bind].
  change (len (bytes "s:")) with 2.
  assert (Hsplit : data
                   = (bytes "s:" ++ itoa (len payload) ++ [":"%byte; x22])
                       ++ payload ++ x22 :: ";"%byte :: rest).
  { unfold data. rewrite <- !app_assoc. reflexivity. }
  assert (Hpre : len (bytes "s:" ++ itoa (len payload) ++ [":"%byte; x22])
                 = len (itoa (len payload)) + 1 + 2 + 1).
  { rewrite !len_app. change (len (bytes "s:")) with 2.
    change (len [":"%byte; x22]) with 2. lia. }
  rewrite Hsplit at 1.
  rewrite <- Hpre.
  replace (len (bytes "s:" ++ itoa (len payload) ++ [":"%byte; x22]))
    with (len (bytes "s:" ++ itoa (len payload) ++ [":"%byte; x22]) + 0)
    at 1 by lia.
  rewrite slice_behind by lia.
  rewrite slice_prefix. cbn [bind].
  do 2 f_equal. f_equal. lia.
Qed.

Lemma string_round_trip_witness :
  consumeString reference
    (bytes "s:" ++ itoa (len (wire "a';s:9:'b"))
       ++ ":"%byte :: x22 :: wire "a';s:9:'b" ++ x22 :: ";"%byte :: bytes "N;")
    0
  = Ret (wire "a';s:9:'b", 16, None).
Proof.
  apply (string_round_trip reference (wire "a';s:9:'b") (bytes "N;"));
    [vm_compute; reflexivity | reflexivity].
Defined.

(** ** Text and its declared length *)

(** X8.  A text that decodes has exactly the declared number of bytes.
    The count is the literal between the separator of the tag and the
    first [:] after it, at position [p]; the text is the [count] bytes
    of the decoded text from position [p + 2] on, one byte being
    skipped for the opening quote; and the returned offset is
    [p + count + 4], two bytes past the end of the text, whatever those
    two bytes are. *)
Theorem text_has_declared_length E data offset s newOffset :
  consumeString E data offset = Ret (s, newOffset, None) ->
  exists count p text,
    offset + 3 <= p < len data
    /\ nth (Z.to_nat p) data x00 = ":"%byte
    /\ (forall i, offset + 2 <= i < p ->
          nth (Z.to_nat i) data x00 <> ":"%byte)
    /\ consumeIntPart data (offset + 2) = Ret (count, p + 1, None)
    /\ DecodePHPString E data = Some text
    /\ 0 <= count /\ len s = count
    /\ (forall k, 0 <= k < count ->
          nth (Z.to_nat k) s x00 = nth (Z.to_nat (p + 2 + k)) text x00)
    /\ newOffset = p + count + 4
    /\ newOffset <= len text + 2.
Proof.
  unfold consumeString.
  destruct (checkType data "s" offset); simpl; [ | discriminate].
  intros H. apply consumeStringRealPart_ok in H.
  destruct H as [count [c [text [Hcount [Hdec [Hs Ho]]]]]].
  exists count, (c - 1), text.
  pose proof (consumeIntPart_literal _ _ _ _ Hcount) as [Hc [Hat Hbefore]].
  pose proof (slice_Ret _ _ _ _ Hs) as Hb.
  apply slice_nth in Hs. destruct Hs as [Hlen Hnth].
  replace (c - 1 + 1) with c by lia.
  split; [lia | ]. split; [exact Hat | ]. split; [exact Hbefore | ].
  split; [exact Hcount | ]. split; [exact Hdec | ].
  split; [lia | ]. split; [lia | ].
  split; [ | lia].
  intros k Hk. rewrite (Hnth k ltac:(lia)). f_equal. lia.
Qed.

Lemma text_has_declared_length_witness :
  exists count p text,
    0 + 3 <= p < len (wire "s:5:'hello';")
    /\ nth (Z.to_nat p) (wire "s:5:'hello';") x00 = ":"%byte
    /\ (forall i, 0 + 2 <= i < p ->
          nth (Z.to_nat i) (wire "s:5:'hello';") x00 <> ":"%byte)
    /\ consumeIntPart (wire "s:5:'hello';") (0 + 2)
       = Ret (count, p + 1, None)
    /\ DecodePHPString reference (wire "s:5:'hello';") = Some text
    /\ 0 <= count /\ len (bytes "hello") = count
    /\ (forall k, 0 <= k < count ->
          nth (Z.to_nat k) (bytes "hello") x00
          = nth (Z.to_nat (p + 2 + k)) text x00)
    /\ 12 = p + count + 4
    /\ 12 <= len text + 2.
Proof.
  exact (text_has_declared_length reference (wire "s:5:'hello';") 0
           (bytes "hello") 12 eq_refl).
Defined.

(** ** Writing an integer *)

(** X9.  An integer is stored in an integer field of any width without
    a check: what is stored is the value reduced to the width of the
    field, equal to the value when that fits, and otherwise the value
    that differs from it by a multiple of [2^width]. *)
Theorem setField_int_wraps k old n :
  exists m,
    setField (VInt k old) (DInt n) = Ret (VInt k m)
    /\ - 2 ^ (bits k - 1) <= m < 2 ^ (bits k - 1)
    /\ (m - n) mod 2 ^ bits k = 0
    /\ (- 2 ^ (bits k - 1) <= n < 2 ^ (bits k - 1) -> m = n).
Proof.
  exists (wrapInt (bits k) n). split; [reflexivity | ].
  unfold wrapInt.
  assert (Hw : 2 ^ bits k = 2 * 2 ^ (bits k - 1) /\ 0 < 2 ^ (bits k - 1)).
  { destruct k; vm_compute; split; reflexivity. }
  destruct Hw as [Hw Hh]. rewrite Hw.
  set (h := 2 ^ (bits k - 1)) in *.
  pose proof (Z.mod_pos_bound (n + h) (2 * h) ltac:(lia)) as Hm.
  pose proof (Z.div_mod (n + h) (2 * h) ltac:(lia)) as Hd.
  split; [lia | split].
  - replace ((n + h) mod (2 * h) - h - n)
      with (- ((n + h) / (2 * h)) * (2 * h)) by lia.
    apply Z.mod_mul; lia.
  - intros Hn. rewrite Z.mod_small by lia. lia.
Qed.

(** ** An object with no pair to read *)

(** X10.  A count of zero or less reads no pair: after a header that
    parses, [consumeObject] returns at once, two bytes past the count
    field, with the destination as it was, whatever its kind. *)
Theorem nonpositive_count_reads_nothing E data offset v cls o1 count p1 :
  checkType data "O" offset = true ->
  consumeStringRealPart E data (offset + 2) = Ret (cls, o1, None) ->
  consumeIntPart data o1 = Ret (count, p1, None) ->
  count <= 0 ->
  consumeObject E data offset v = Ret (v, p1 + 2, None).
Proof.
  intros Hc Hcls Hcnt Hcount. unfold consumeObject.
  rewrite consumeObjectFuel_S, Hc; simpl. rewrite Hcls; simpl.
  rewrite Hcnt; simpl.
  apply checkType_true in Hc.
  destruct (List.length data) as [ | fuel] eqn:Hlen;
    [unfold len in Hc; rewrite Hlen in Hc; simpl in Hc; lia | ].
  rewrite elements_S.
  destruct (0 <? count) eqn:Hlt; [apply Z.ltb_lt in Hlt; lia | ].
  do 2 f_equal. f_equal. lia.
Qed.

Lemma nonpositive_count_reads_nothing_witness :
  consumeObject reference (wire "O:1:'P':-3:{s:1:'a';i:5;}") 0 (VInt Int8 7)
  = Ret (VInt Int8 7, 11 + 2, None).
Proof.
  apply (nonpositive_count_reads_nothing reference
           (wire "O:1:'P':-3:{s:1:'a';i:5;}") 0 (VInt Int8 7) (bytes "P") 8
           (-3) 11); try reflexivity. lia.
Defined.

(** ** The value of [consumeNext] *)

(** X11.  The kind of a decoded value is the kind its tag announces:
    null for [N], a boolean for [b], an integer for [i], a float for [d]
    and text for [s]. *)
Theorem value_kind_follows_tag E data offset x newOffset :
  consumeNext E data offset = Ret (x, newOffset, None) ->
  nth (Z.to_nat offset) data x00
  = match x with
    | DNil => "N"
    | DBool _ => "b"
    | DInt _ => "i"
    | DFloat _ => "d"
    | DString _ => "s"
    end%byte.
Proof.
  unfold consumeNext.
  destruct (len data <=? offset); [discriminate | ].
  destruct (index data offset) as [tag | p | ] eqn:Hi; simpl;
    try discriminate.
  apply index_Ret in Hi. destruct Hi as [_ ->].
  set (tag := nth (Z.to_nat offset) data x00).
  destruct (Byte.eqb tag "b") eqn:Hb.
  { apply byte_eqb_eq in Hb. unfold boxed.
    destruct (consumeBool data offset) as [[[a o] e] | | ]; simpl;
      try discriminate.
    intros H; inv_Ret H. exact Hb. }
  destruct (Byte.eqb tag "d") eqn:Hd.
  { apply byte_eqb_eq in Hd. unfold boxed.
    destruct (consumeFloat E data offset) as [[[a o] e] | | ]; simpl;
      try discriminate.
    intros H; inv_Ret H. exact Hd. }
  destruct (Byte.eqb tag "i") eqn:Hint.
  { apply byte_eqb_eq in Hint. unfold boxed.
    destruct (consumeInt data offset) as [[[a o] e] | | ]; simpl;
      try discriminate.
    intros H; inv_Ret H. exact Hint. }
  destruct (Byte.eqb tag "s") eqn:Hs.
  { apply byte_eqb_eq in Hs. unfold boxed.
    destruct (consumeString E data offset) as [[[a o] e] | | ]; simpl;
      try discriminate.
    intros H; inv_Ret H. exact Hs. }
  destruct (Byte.eqb tag "N") eqn:HN.
  { apply byte_eqb_eq in HN. unfold consumeNil.
    destruct (negb (checkType data "N" offset)); intros H; inv_Ret H.
    exact HN. }
  destruct (slice_from data offset); simpl; discriminate.
Qed.

Lemma value_kind_follows_tag_witness :
  nth (Z.to_nat 4) (bytes "b:0;d:2.5;") x00 = "d"%byte.
Proof.
  exact (value_kind_follows_tag reference (bytes "b:0;d:2.5;") 4
           (DFloat 2.5%float) 10 eq_refl).
Defined.

(** ** The class name *)

Lemma slice_same_length a b lo hi :
  len a = len b ->
  (forall s, slice a lo hi = Ret s -> exists s', slice b lo hi = Ret s')
  /\ (forall p, slice a lo hi = Panic p -> slice b lo hi = Panic p).
Proof.
  intros Hlen. unfold slice. rewrite <- Hlen.
  destruct ((0 <=? lo) && (lo <=? hi) && (hi <=? len a)); split;
    intros x H; try discriminate; eauto.
Qed.

(** X12.  The class name of an object is read over and not used: two
    buffers of one length that differ only within the bytes of the class
    name, and whose decoded texts differ only there, give the same
    result, with the same destination, offset and error. *)
Theorem class_name_ignored E data data' offset v count c :
  consumeIntPart data (offset + 2) = Ret (count, c, None) ->
  agree_outside (c + 1) (c + 1 + count) data data' ->
  match DecodePHPString E data, DecodePHPString E data' with
  | Some t, Some t' => agree_outside (c + 1) (c + 1 + count) t t'
  | None, None => True
  | _, _ => False
  end ->
  consumeObject E data' offset v = consumeObject E data offset v.
Proof.
  intros Hcount Hdata Htext.
  pose proof (consumeIntPart_ok _ _ _ _ Hcount) as [Hoff _].
  assert (Hfuel : List.length data' = List.length data).
  { destruct Hdata as [Hlen _]. unfold len in Hlen. lia. }
  assert (Hbefore : forall a b, agree_outside (c + 1) (c + 1 + count) a b ->
                      agree 0 (Some (c + 1)) a b).
  { intros a b [Hl Hn]. split; [exact Hl | ].
    intros i Hi Hw; simpl in Hw. apply Hn; lia. }
  assert (Hafter : forall a b, agree_outside (c + 1) (c + 1 + count) a b ->
                     agree (c + 1 + count) None a b).
  { intros a b [Hl Hn]. split; [exact Hl | ].
    intros i Hi _.
    destruct (Z_lt_dec i 0) as [Hneg | Hpos].
    - replace (Z.to_nat i) with (Z.to_nat 0) by lia.
      destruct (Z_lt_dec 0 (c + 1 + count)); [lia | ].
      apply Hn; lia.
    - apply Hn; lia. }
  unfold consumeObject. rewrite Hfuel, !consumeObjectFuel_S.
  destruct (Z_lt_dec offset 0) as [Hneg | Hpos].
  { destruct (checkType data "O" offset) eqn:Hc;
      [apply checkType_true in Hc; lia | ].
    destruct (checkType data' "O" offset) eqn:Hc';
      [apply checkType_true in Hc'; lia | reflexivity]. }
  rewrite (checkType_local 0 (Some (c + 1)) data data' _ _ (Hbefore _ _ Hdata))
    by (simpl; lia).
  destruct (checkType data "O" offset); simpl; [ | reflexivity].
  unfold consumeStringRealPart.
  rewrite (consumeIntPart_local 0 (Some (c + 1)) data data' _
             (Hbefore _ _ Hdata)) by (try lia; rewrite Hcount; simpl; lia).
  rewrite Hcount; simpl.
  destruct (DecodePHPString E data) as [t | ] eqn:Hd,
           (DecodePHPString E data') as [t' | ] eqn:Hd';
    try contradiction; simpl; [ | reflexivity].
  destruct (slice_same_length t t' (c + 1) (c + 1 + count) (proj1 Htext))
    as [Hsome Hpanic].
  destruct (slice t (c + 1) (c + 1 + count)) as [sub | p | ] eqn:Hs.
  - destruct (Hsome sub eq_refl) as [sub' Hs'].
    rewrite Hs'; simpl.
    apply slice_Ret in Hs. destruct Hs as [Hb _].
    rewrite (consumeIntPart_local (c + 1 + count) None data data' _
               (Hafter _ _ Hdata)) by (try lia; exact I).
    destruct (consumeIntPart data (c + 1 + count + 2))
      as [[[length p1] [e2 | ]] | p | ] eqn:Hcnt; simpl; try reflexivity.
    apply consumeIntPart_sound in Hcnt; simpl in Hcnt.
    assert (Htx : agree_text (c + 1 + count) None
                    (DecodePHPString E data) (DecodePHPString E data')).
    { rewrite Hd, Hd'. exact (Hafter _ _ Htext). }
    apply (object_local_suffix E (c + 1 + count) data data'
             (Hafter _ _ Hdata) Htx). lia.
  - rewrite (Hpanic p eq_refl). reflexivity.
  - exfalso; exact (slice_halts _ _ _ Hs).
Qed.

Lemma class_name_ignored_witness :
  consumeObject reference (wire "O:6:'Client':1:{s:3:'age';i:30;}") 0
    (VStruct [(bytes "Age", VInt Int 0)])
  = consumeObject reference (wire "O:6:'Person':1:{s:3:'age';i:30;}") 0
      (VStruct [(bytes "Age", VInt Int 0)]).
Proof.
  assert (Hag : agree_outside (4 + 1) (4 + 1 + 6)
                  (wire "O:6:'Person':1:{s:3:'age';i:30;}")
                  (wire "O:6:'Client':1:{s:3:'age';i:30;}")).
  { split; [reflexivity | ]. intros i Hi Hout.
    destruct (Z_lt_dec i 5) as [Hlow | Hhigh].
    - assert (Hc : i = 0 \/ i = 1 \/ i = 2 \/ i = 3 \/ i = 4) by lia.
      repeat (destruct Hc as [-> | Hc]; [reflexivity | ]). subst; reflexivity.
    - replace i with (11 + (i - 11)) by lia.
      change (wire "O:6:'Person':1:{s:3:'age';i:30;}")
        with (wire "O:6:'Person" ++ wire "':1:{s:3:'age';i:30;}").
      change (wire "O:6:'Client':1:{s:3:'age';i:30;}")
        with (wire "O:6:'Client" ++ wire "':1:{s:3:'age';i:30;}").
      change 11 with (len (wire "O:6:'Person")) at 1.
      change 11 with (len (wire "O:6:'Client")) at 2.
      rewrite !nth_behind by lia. reflexivity. }
  apply (class_name_ignored reference _ _ 0 _ 6 4);
    [reflexivity | exact Hag | exact Hag].
Defined.

(** ** The discard sink *)

Ltac case_branch :=
  match goal with
  | |- context [match ?x with _ => _ end] => destruct x eqn:?; simpl
  | |- context [if ?x then _ else _] => destruct x eqn:?; simpl
  end.

(** The consumers of scalars and text never touch [reflect]. *)
Lemma bind_no_reflect {A B : Type} (c : go A) (k : A -> go B) :
  c <> Panic ReflectPanic -> (forall a, k a <> Panic ReflectPanic) ->
  bind c k <> Panic ReflectPanic.
Proof.
  destruct c as [a | p | ]; simpl; intros Hc Hk;
    [apply Hk | | discriminate].
  intros H; apply Hc; inversion H; reflexivity.
Qed.

Lemma slice_no_reflect data lo hi : slice data lo hi <> Panic ReflectPanic.
Proof. unfold slice; case_branch; discriminate. Qed.

Lemma index_no_reflect data i : index data i <> Panic ReflectPanic.
Proof. unfold index; case_branch; discriminate. Qed.

Lemma lift_no_reflect {A : Type} (r : option A) : lift r <> Panic ReflectPanic.
Proof. destruct r; discriminate. Qed.

Lemma consumeStringUntilByte_no_reflect data b offset :
  consumeStringUntilByte data b offset <> Panic ReflectPanic.
Proof.
  unfold consumeStringUntilByte. case_branch; [discriminate | ].
  apply bind_no_reflect; [apply slice_no_reflect | discriminate].
Qed.

Lemma consumeIntPart_no_reflect data offset :
  consumeIntPart data offset <> Panic ReflectPanic.
Proof.
  unfold consumeIntPart.
  apply bind_no_reflect; [apply consumeStringUntilByte_no_reflect | ].
  intros [s n]. destruct (Atoi s) as [x [e | ]]; discriminate.
Qed.

Lemma consumeStringRealPart_no_reflect E data offset :
  consumeStringRealPart E data offset <> Panic ReflectPanic.
Proof.
  unfold consumeStringRealPart.
  apply bind_no_reflect; [apply consumeIntPart_no_reflect | ].
  intros [[length newOffset] [e | ]]; [discriminate | ].
  apply bind_no_reflect; [apply lift_no_reflect | intros text].
  apply bind_no_reflect; [apply slice_no_reflect | discriminate].
Qed.

Lemma consumeString_no_reflect E data offset :
  consumeString E data offset <> Panic ReflectPanic.
Proof.
  unfold consumeString; case_branch;
    [discriminate | apply consumeStringRealPart_no_reflect].
Qed.

Lemma boxed_no_reflect {A : Type} (box : A -> decoded) r :
  r <> Panic ReflectPanic -> boxed box r <> Panic ReflectPanic.
Proof.
  intros Hr; unfold boxed; apply bind_no_reflect; [exact Hr | ].
  intros [[a o] e]; discriminate.
Qed.

Lemma consumeNext_no_reflect E data offset :
  consumeNext E data offset <> Panic ReflectPanic.
Proof.
  unfold consumeNext; case_branch; [discriminate | ].
  apply bind_no_reflect; [apply index_no_reflect | intros tag].
  repeat case_branch; try (apply boxed_no_reflect).
  - unfold consumeBool; case_branch; [discriminate | ].
    apply bind_no_reflect; [apply index_no_reflect | discriminate].
  - unfold consumeFloat; case_branch; [discriminate | ].
    apply bind_no_reflect; [apply consumeStringUntilByte_no_reflect | ].
    intros [s n]. destruct (ParseFloat E s) as [x [e | ]]; discriminate.
  - unfold consumeInt; case_branch; [discriminate | ].
    apply bind_no_reflect; [apply consumeStringUntilByte_no_reflect | ].
    intros [s n]. destruct (Atoi s) as [x [e | ]]; discriminate.
  - apply consumeString_no_reflect.
  - unfold consumeNil; case_branch; discriminate.
  - apply bind_no_reflect; [apply slice_no_reflect | discriminate].
Qed.

Lemma panic_retype {A B : Type} p :
  @Panic A p <> Panic ReflectPanic -> @Panic B p <> Panic ReflectPanic.
Proof. intros H Heq; apply H; inversion Heq; reflexivity. Qed.

Lemma dummy_inert E fuel :
  (forall data offset,
      consumeObjectFuel E fuel data offset dummyObject <> Panic ReflectPanic
      /\ forall r o e,
           consumeObjectFuel E fuel data offset dummyObject = Ret (r, o, e) ->
           r = dummyObject)
  /\ (forall data i length offset,
         elements E fuel data i length offset dummyObject
         <> Panic ReflectPanic
         /\ forall r o e,
              elements E fuel data i length offset dummyObject
              = Ret (r, o, e) ->
              r = dummyObject).
Proof.
  induction fuel as [ | fuel [IHo IHe]].
  { split; intros; (split; [discriminate | intros; discriminate]). }
  split.
  - intros data offset. rewrite consumeObjectFuel_S.
    destruct (negb (checkType data "O" offset)).
    { split; [discriminate | intros r o e H; inv_Ret H; reflexivity]. }
    pose proof (consumeStringRealPart_no_reflect E data (offset + 2)) as Hn1.
    destruct (consumeStringRealPart E data (offset + 2))
      as [[[cls o1] [e1 | ]] | p | ]; simpl.
    + split; [discriminate | intros r o e H; inv_Ret H; reflexivity].
    + pose proof (consumeIntPart_no_reflect data o1) as Hn2.
      destruct (consumeIntPart data o1)
        as [[[length o2] [e2 | ]] | p | ]; simpl.
      * split; [discriminate | intros r o e H; inv_Ret H; reflexivity].
      * apply IHe.
      * split; [exact (panic_retype _ Hn2) | discriminate].
      * split; discriminate.
    + split; [exact (panic_retype _ Hn1) | discriminate].
    + split; discriminate.
  - intros data i length offset. rewrite elements_S.
    destruct (i <? length).
    2: { split; [discriminate | intros r o e H; inv_Ret H; reflexivity]. }
    pose proof (consumeString_no_reflect E data offset) as Hn1.
    destruct (consumeString E data offset)
      as [[[key o1] [e1 | ]] | p | ]; simpl.
    + split; [discriminate | intros r o e H; inv_Ret H; reflexivity].
    + destruct (upperCaseFirstLetter E key) as [name | ]; simpl;
        [ | split; discriminate].
      unfold pairValue.
      pose proof (index_no_reflect data o1) as Hn2.
      destruct (index data o1) as [tag | p | ]; simpl.
      * destruct (Byte.eqb tag "O").
        -- destruct (IHo data o1) as [Hp Hr].
           destruct (consumeObjectFuel E fuel data o1 dummyObject)
             as [[[sub o2] [e2 | ]] | p | ]; simpl.
           ++ split; [discriminate | intros r o e H; inv_Ret H; reflexivity].
           ++ apply IHe.
           ++ split; [exact (panic_retype _ Hp) | discriminate].
           ++ split; discriminate.
        -- pose proof (consumeNext_no_reflect E data o1) as Hn3.
           destruct (consumeNext E data o1)
             as [[[value o2] [e2 | ]] | p | ]; simpl.
           ++ split; [discriminate | intros r o e H; inv_Ret H; reflexivity].
           ++ apply IHe.
           ++ split; [exact (panic_retype _ Hn3) | discriminate].
           ++ split; discriminate.
      * split; [exact (panic_retype _ Hn2) | discriminate].
      * split; discriminate.
    + split; [exact (panic_retype _ Hn1) | discriminate].
    + split; discriminate.
Qed.

(** X13.  The destination without fields takes any object: decoding
    into it never panics inside [reflect] and leaves it empty, and
    wherever decoding into some destination returns, decoding into it
    returns the same offset and the same error. *)
Theorem discard_sink_takes_anything E data offset :
  consumeObject E data offset dummyObject <> Panic ReflectPanic
  /\ (forall r o e,
        consumeObject E data offset dummyObject = Ret (r, o, e) ->
        r = dummyObject)
  /\ (forall v r o e,
        consumeObject E data offset v = Ret (r, o, e) ->
        consumeObject E data offset dummyObject = Ret (dummyObject, o, e)).
Proof.
  unfold consumeObject.
  destruct (proj1 (dummy_inert E (S (List.length data))) data offset)
    as [Hp Hr].
  split; [exact Hp | split; [exact Hr | ]].
  intros v r o e H.
  destruct (proj1 (narrow_simulation E (S (List.length data)))
              _ _ _ dummyObject _ _ _ (or_intror eq_refl) H)
    as [r' [Hr' _]].
  rewrite Hr'. rewrite (Hr _ _ _ Hr'). reflexivity.
Qed.

Lemma discard_sink_takes_anything_witness :
  consumeObject reference person_payload 0 dummyObject
  = Ret (dummyObject, 53, None).
Proof.
  destruct (discard_sink_takes_anything reference person_payload 0)
    as [_ [_ Hsame]].
  exact (Hsame (VStruct [(bytes "Name", VString []); (bytes "Age", VInt Int 0)])
           _ 53 None eq_refl).
Defined.

(** ** The type of the destination *)

Lemma sameShape_refl : forall v, sameShape v v.
Proof.
  fix IH 1. intros [k n | k n | k x | b | s | x | fs | ];
    try (constructor; fail).
  apply shape_struct.
  induction fs as [ | [name f] fs IHfs]; constructor; [apply IH | exact IHfs].
Qed.

Lemma setField_shape a f value x :
  sameShape a f -> setField f value = Ret x -> sameShape a x.
Proof.
  intros Ha H.
  destruct f as [k n | k n | [ | ] y | b | s | y | fs | ], value;
    simpl in H; try discriminate; inv_Ret H; inversion Ha; subst;
    constructor.
Qed.

Lemma storeField_shape fs : forall ws name f x,
  sameFields ws fs -> lookupField fs name = Some f ->
  (forall a, sameShape a f -> sameShape a x) ->
  sameFields ws (storeField fs name x).
Proof.
  induction fs as [ | [n g] fs IH]; intros ws name f x Hws Hf Hx;
    [discriminate | ].
  inversion Hws as [ | n' g0 g' ws' fs' Hg Hrest]; subst.
  simpl in *. destruct (bytes_eqb n name).
  - inv_Ret Hf. constructor; [apply Hx; exact Hg | exact Hrest].
  - constructor; [exact Hg | ]. exact (IH _ _ _ _ Hrest Hf Hx).
Qed.

Lemma shape_kept E fuel :
  (forall data offset v r o e a,
      sameShape a v ->
      consumeObjectFuel E fuel data offset v = Ret (r, o, e) ->
      sameShape a r)
  /\ (forall data i length offset v r o e a,
         sameShape a v ->
         elements E fuel data i length offset v = Ret (r, o, e) ->
         sameShape a r).
Proof.
  induction fuel as [ | fuel [IHo IHe]]; [split; intros; discriminate | ].
  split.
  - intros data offset v r o e a Ha. rewrite consumeObjectFuel_S.
    destruct (negb (checkType data "O" offset));
      [intros H; inv_Ret H; exact Ha | ].
    destruct (consumeStringRealPart E data (offset + 2))
      as [[[cls o1] [e1 | ]] | p | ]; simpl; try discriminate;
      [intros H; inv_Ret H; exact Ha | ].
    destruct (consumeIntPart data o1)
      as [[[length o2] [e2 | ]] | p | ]; simpl; try discriminate;
      [intros H; inv_Ret H; exact Ha | ].
    apply IHe; exact Ha.
  - intros data i length offset v r o e a Ha. rewrite elements_S.
    destruct (i <? length); [ | intros H; inv_Ret H; exact Ha].
    destruct (consumeString E data offset)
      as [[[key o1] [e1 | ]] | p | ]; simpl; try discriminate;
      [intros H; inv_Ret H; exact Ha | ].
    destruct (upperCaseFirstLetter E key) as [name | ]; simpl;
      try discriminate.
    destruct v as [ | | | | | | fs | ]; simpl; try discriminate.
    inversion Ha as [ | | | | | | ws fs' Hws | ]; subst.
    unfold pairValue.
    destruct (index data o1) as [tag | p | ]; simpl; try discriminate.
    destruct (lookupField fs name) as [f | ] eqn:Hf.
    + assert (Hstore : forall x, (forall b, sameShape b f -> sameShape b x) ->
                sameShape (VStruct ws) (VStruct (storeField fs name x))).
      { intros x Hx. apply shape_struct.
        exact (storeField_shape fs ws name f x Hws Hf Hx). }
      destruct (Byte.eqb tag "O").
      * destruct (consumeObjectFuel E fuel data o1 f)
          as [[[sub o2] e2] | p | ] eqn:Hsub; simpl; try discriminate.
        assert (Hnew : sameShape (VStruct ws) (VStruct (storeField fs name sub))).
        { apply Hstore. intros b Hb. exact (IHo _ _ _ _ _ _ b Hb Hsub). }
        destruct e2 as [e2 | ]; [intros H; inv_Ret H; exact Hnew | ].
        apply IHe; exact Hnew.
      * destruct (consumeNext E data o1)
          as [[[value o2] [e2 | ]] | p | ]; simpl; try discriminate;
          [intros H; inv_Ret H; exact Ha | ].
        destruct (setField f value) as [x | p | ] eqn:Hset; simpl;
          try discriminate.
        apply IHe. apply Hstore.
        intros b Hb. exact (setField_shape b f value x Hb Hset).
    + destruct (Byte.eqb tag "O").
      * destruct (consumeObjectFuel E fuel data o1 dummyObject)
          as [[[sub o2] [e2 | ]] | p | ]; simpl; try discriminate;
          [intros H; inv_Ret H; exact Ha | ].
        apply IHe; exact Ha.
      * destruct (consumeNext E data o1)
          as [[[value o2] [e2 | ]] | p | ]; simpl; try discriminate;
          [intros H; inv_Ret H; exact Ha | ].
        apply IHe; exact Ha.
Qed.

(** X14.  Decoding keeps the type of the destination: whenever
    [consumeObject] returns, with or without an error, the destination
    has the fields it had, under the same names, in the same order and of
    the same kinds, at every depth; only values change. *)
Theorem shape_preserved E data offset v r newOffset err :
  consumeObject E data offset v = Ret (r, newOffset, err) -> sameShape v r.
Proof.
  intros H. unfold consumeObject in H.
  exact (proj1 (shape_kept E _) _ _ _ _ _ _ v (sameShape_refl v) H).
Qed.

Lemma shape_preserved_witness :
  sameShape
    (VStruct [(bytes "Name", VString []); (bytes "Age", VInt Int 0)])
    (VStruct [(bytes "Name", VString (bytes "Bob"));
              (bytes "Age", VInt Int 30)]).
Proof.
  exact (shape_preserved reference person_payload 0
           (VStruct [(bytes "Name", VString []); (bytes "Age", VInt Int 0)])
           _ 53 None eq_refl).
Defined.

(** ** The errors of [consumeNext] *)

Lemma Atoi_error s x e :
  Atoi s = (x, Some e) -> exists k, e = NumError (bytes "Atoi") s k.
Proof.
  unfold Atoi. cbv zeta.
  destruct s as [ | c s']; [intros H; inversion H; eauto | ].
  destruct (parseUint
              (if Byte.eqb c "-" || Byte.eqb c "+" then s' else c :: s'))
    as [un | [ | ]]; try (intros H; inversion H; eauto; fail).
  destruct (negb (Byte.eqb c "-") && (2 ^ 63 <=? un));
    [intros H; inversion H; eauto | ].
  destruct (Byte.eqb c "-" && (2 ^ 63 <? un));
    [intros H; inversion H; eauto | discriminate].
Qed.

Lemma literal_error {A : Type} data b start (zero : A)
  (parse : list byte -> A * option error) x o e :
  bind (consumeStringUntilByte data b start)
       (fun y => let (s, n) := y in
                 match parse s with
                 | (_, Some err) => Ret (zero, -1, Some err)
                 | (v, None) => Ret (v, n + 1, None)
                 end)
  = Ret (x, o, Some e) ->
  exists s, snd (parse s) = Some e.
Proof.
  destruct (consumeStringUntilByte data b start) as [[s n] | p | ]; simpl;
    try discriminate.
  destruct (parse s) as [v [err | ]] eqn:Hp; intros H; inv_Ret H.
  exists s; rewrite Hp; reflexivity.
Qed.

(** X15.  The errors [consumeNext] can return: the corrupt-stream error
    at or past the end of the buffer; the unsupported-tag error with the
    rest of the buffer for a tag outside N, b, i, d, s; the error of
    [Atoi] for the literal of an integer or the count of a text; the
    error of [ParseFloat] for the literal of a float.  A null or a
    boolean, once its tag is seen, returns no error.  Every error comes
    with the offset [-1]. *)
Theorem consumeNext_errors E data offset x newOffset e :
  consumeNext E data offset = Ret (x, newOffset, Some e) ->
  let tag := nth (Z.to_nat offset) data x00 in
  newOffset = -1 /\
  ((len data <= offset /\ e = errorString (bytes "corrupt"))
  \/ (0 <= offset < len data
      /\ tag <> "N"%byte /\ tag <> "b"%byte /\ tag <> "i"%byte
      /\ tag <> "d"%byte /\ tag <> "s"%byte
      /\ e = errorString (bytes "can not consume type: "
                          ++ skipn (Z.to_nat offset) data))
  \/ (0 <= offset < len data /\ (tag = "i"%byte \/ tag = "s"%byte)
      /\ exists s k, e = NumError (bytes "Atoi") s k)
  \/ (0 <= offset < len data /\ tag = "d"%byte
      /\ exists s, snd (ParseFloat E s) = Some e)).
Proof.
  intros H tag.
  split; [exact (consumeNext_sound E _ _ _ _ _ H) | ].
  unfold consumeNext in H.
  destruct (len data <=? offset) eqn:Hl.
  { apply Z.leb_le in Hl. inv_Ret H. left; split; [exact Hl | reflexivity]. }
  apply Z.leb_gt in Hl.
  destruct (index data offset) as [t | p | ] eqn:Hi; simpl in H;
    try discriminate.
  apply index_Ret in Hi. destruct Hi as [Hin Ht]. fold tag in Ht. subst t.
  right.
  destruct (Byte.eqb tag "b") eqn:Hb.
  { exfalso. apply byte_eqb_eq in Hb.
    unfold boxed, consumeBool in H.
    rewrite (checkType_tag data "b" offset Hin Hb) in H. simpl in H.
    destruct (index data (offset + 2)); simpl in H; discriminate. }
  destruct (Byte.eqb tag "d") eqn:Hd.
  { apply byte_eqb_eq in Hd. right; right.
    split; [exact Hin | split; [exact Hd | ]].
    unfold boxed in H.
    destruct (consumeFloat E data offset) as [[[a o] err] | | ] eqn:Hf;
      simpl in H; try discriminate.
    inv_Ret H. unfold consumeFloat in Hf.
    rewrite (checkType_tag data "d" offset Hin Hd) in Hf. simpl in Hf.
    exact (literal_error data ";" (offset + 2) 0%float (ParseFloat E)
             _ _ _ Hf). }
  destruct (Byte.eqb tag "i") eqn:Hint.
  { apply byte_eqb_eq in Hint. right; left.
    split; [exact Hin | split; [left; exact Hint | ]].
    unfold boxed in H.
    destruct (consumeInt data offset) as [[[a o] err] | | ] eqn:Hf;
      simpl in H; try discriminate.
    inv_Ret H. unfold consumeInt in Hf.
    rewrite (checkType_tag data "i" offset Hin Hint) in Hf. simpl in Hf.
    destruct (literal_error data ";" (offset + 2) 0 Atoi _ _ _ Hf) as [s Hs].
    destruct (Atoi s) as [v err] eqn:HA. simpl in Hs; subst err.
    destruct (Atoi_error _ _ _ HA) as [k Hk]. eauto. }
  destruct (Byte.eqb tag "s") eqn:Hs.
  { apply byte_eqb_eq in Hs. right; left.
    split; [exact Hin | split; [right; exact Hs | ]].
    unfold boxed in H.
    destruct (consumeString E data offset) as [[[a o] err] | | ] eqn:Hf;
      simpl in H; try discriminate.
    inv_Ret H. unfold consumeString in Hf.
    rewrite (checkType_tag data "s" offset Hin Hs) in Hf. simpl in Hf.
    unfold consumeStringRealPart in Hf.
    destruct (consumeIntPart data (offset + 2))
      as [[[length c] [err | ]] | | ] eqn:Hc; simpl in Hf; try discriminate.
    - inv_Ret Hf. unfold consumeIntPart in Hc.
      destruct (literal_error data ":" (offset + 2) 0 Atoi _ _ _ Hc)
        as [s Hse].
      destruct (Atoi s) as [v err] eqn:HA. simpl in Hse; subst err.
      destruct (Atoi_error _ _ _ HA) as [k Hk]. eauto.
    - destruct (DecodePHPString E data); simpl in Hf; try discriminate.
      destruct (slice l (c + 1) (c + 1 + length)); simpl in Hf;
        discriminate. }
  destruct (Byte.eqb tag "N") eqn:HN.
  { exfalso. apply byte_eqb_eq in HN. unfold consumeNil in H.
    rewrite (checkType_tag data "N" offset Hin HN) in H. discriminate. }
  left. rewrite slice_from_in_range in H by lia. simpl in H. inv_Ret H.
  apply byte_eqb_neq in Hb, Hd, Hint, Hs, HN.
  repeat split; try assumption; lia.
Qed.

Lemma consumeNext_errors_witness :
  -1 = -1
  /\ exists s k,
       NumError (bytes "Atoi") (bytes "4x") ErrSyntax
       = NumError (bytes "Atoi") s k.
Proof.
  destruct (consumeNext_errors reference (bytes "i:4x;") 0 (DInt 0) (-1)
              (NumError (bytes "Atoi") (bytes "4x") ErrSyntax) eq_refl)
    as [Hoff [[Hl _] | [[_ [_ [_ [Hi _]]]] | [[_ [_ Hs]] | [_ [Hd _]]]]]];
    (split; [exact Hoff | ]).
  - vm_compute in Hl. elim Hl; reflexivity.
  - elim Hi; reflexivity.
  - exact Hs.
  - discriminate Hd.
Defined.

(** ** A node and the bytes around it *)

(** X16.  A node that decodes is decided by its own bytes: on a second
    buffer of the same length that agrees with the first from the
    starting offset up to the returned one (for an object, up to its last
    byte, which is not read), and whose decoded text agrees there,
    [consumeNext] and [consumeObject] return the same value or
    destination and the same offset. *)
Theorem node_decided_by_its_bytes E data data' offset v :
  (forall x o,
      consumeNext E data offset = Ret (x, o, None) ->
      agree offset (Some o) data data' ->
      agree_text offset (Some o)
        (DecodePHPString E data) (DecodePHPString E data') ->
      consumeNext E data' offset = Ret (x, o, None))
  /\ (forall r o,
         consumeObject E data offset v = Ret (r, o, None) ->
         agree offset (Some (o - 1)) data data' ->
         agree_text offset (Some (o - 1))
           (DecodePHPString E data) (DecodePHPString E data') ->
         consumeObject E data' offset v = Ret (r, o, None)).
Proof.
  split.
  - intros x o H Hag Htx.
    rewrite (consumeNext_local E offset (Some o) data data');
      [exact H | exact Hag | exact Htx | lia | rewrite H; simpl; lia].
  - intros r o H Hag Htx. unfold consumeObject in *.
    assert (Hfuel : List.length data' = List.length data).
    { destruct Hag as [Hlen _]. unfold len in Hlen. lia. }
    rewrite Hfuel.
    apply (proj1 (object_local_success E offset (o - 1) data data' Hag Htx _));
      [lia | exact H | lia].
Qed.

Lemma agree_prefix a b h :
  len a = len b -> firstn h a = firstn h b ->
  agree 0 (Some (Z.of_nat h)) a b.
Proof.
  intros Hlen Hpre. split; [exact Hlen | ].
  intros i Hi Hw; simpl in Hw.
  assert (Hlt : (Z.to_nat i <? h)%nat = true) by (apply Nat.ltb_lt; lia).
  pose proof (nth_firstn h a (Z.to_nat i) x00) as Ha.
  pose proof (nth_firstn h b (Z.to_nat i) x00) as Hb.
  rewrite Hlt in Ha, Hb. rewrite <- Ha, <- Hb, Hpre. reflexivity.
Qed.

Lemma node_decided_by_its_bytes_witness :
  consumeNext reference (bytes "i:42;N;b:1;") 0 = Ret (DInt 42, 5, None)
  /\ consumeObject reference (wire "O:1:'P':1:{s:1:'a';i:5;};;;") 0
       (VStruct [(bytes "A", VInt Int 0)])
     = Ret (VStruct [(bytes "A", VInt Int 5)], 24, None).
Proof.
  destruct (node_decided_by_its_bytes reference
              (bytes "i:42;s:00:;") (bytes "i:42;N;b:1;") 0 dummyObject)
    as [Hnext _].
  destruct (node_decided_by_its_bytes reference
              (wire "O:1:'P':1:{s:1:'a';i:5;}i:0")
              (wire "O:1:'P':1:{s:1:'a';i:5;};;;")
              0 (VStruct [(bytes "A", VInt Int 0)]))
    as [_ Hobj].
  split.
  - apply (Hnext (DInt 42) 5 eq_refl);
      apply (agree_prefix _ _ 5%nat); reflexivity.
  - apply (Hobj _ 24 eq_refl);
      apply (agree_prefix _ _ 23%nat); reflexivity.
Defined.

(** ** The values already in the destination *)

Lemma lookup_sameFields fs : forall fs' name,
  sameFields fs fs' ->
  match lookupField fs name, lookupField fs' name with
  | Some f, Some f' => sameShape f f'
  | None, None => True
  | _, _ => False
  end.
Proof.
  induction fs as [ | [n f] fs IH]; intros fs' name H;
    inversion H as [ | n' f0 f' fs0 fs0' Hf Hrest]; subst; simpl;
    [exact I | ].
  destruct (bytes_eqb n name); [exact Hf | apply IH; exact Hrest].
Qed.

Lemma storeField_sameFields fs : forall fs' name x x',
  sameFields fs fs' -> sameShape x x' ->
  sameFields (storeField fs name x) (storeField fs' name x').
Proof.
  induction fs as [ | [n f] fs IH]; intros fs' name x x' H Hx;
    inversion H as [ | n' f0 f' fs0 fs0' Hf Hrest]; subst; simpl;
    [constructor | ].
  destruct (bytes_eqb n name); constructor; auto.
Qed.

Lemma setField_alike f f' value :
  sameShape f f' ->
  match setField f value, setField f' value with
  | Ret x, Ret x' => sameShape x x'
  | Panic p, Panic p' => p = p'
  | _, _ => False
  end.
Proof.
  intros H; inversion H; subst; destruct value; simpl;
    try reflexivity; try (constructor; fail);
    match goal with
    | k : FloatKind |- _ => destruct k; simpl; try reflexivity; constructor
    | _ => idtac
    end.
Qed.

Lemma alike_same v v' o e :
  sameShape v v' -> alike (Ret (v, o, e)) (Ret (v', o, e)).
Proof. intros H; simpl; auto. Qed.

Lemma alike_bind {A : Type} (c : go A)
  (k k' : A -> go (gval * Z * option error)) :
  (forall a, c = Ret a -> alike (k a) (k' a)) -> alike (bind c k) (bind c k').
Proof.
  destruct c as [a | p | ]; simpl; intros H; [apply H | | ]; reflexivity.
Qed.

Lemma type_decides E fuel :
  (forall data offset v v',
      sameShape v v' ->
      alike (consumeObjectFuel E fuel data offset v)
            (consumeObjectFuel E fuel data offset v'))
  /\ (forall data i length offset v v',
         sameShape v v' ->
         alike (elements E fuel data i length offset v)
               (elements E fuel data i length offset v')).
Proof.
  induction fuel as [ | fuel [IHo IHe]]; [split; intros; exact I | ].
  split.
  - intros data offset v v' Hv. rewrite !consumeObjectFuel_S.
    destruct (negb (checkType data "O" offset)); [apply alike_same, Hv | ].
    apply alike_bind. intros [[cls o1] [e1 | ]] _; [apply alike_same, Hv | ].
    apply alike_bind. intros [[length o2] [e2 | ]] _; [apply alike_same, Hv | ].
    apply IHe, Hv.
  - intros data i length offset v v' Hv. rewrite !elements_S.
    destruct (i <? length); [ | apply alike_same, Hv].
    apply alike_bind. intros [[key o1] [e1 | ]] _; [apply alike_same, Hv | ].
    apply alike_bind. intros name _.
    inversion Hv as [ | | | | | | fs fs' Hfs | ]; subst; simpl;
      try reflexivity.
    unfold pairValue. apply alike_bind. intros tag _.
    pose proof (lookup_sameFields fs fs' name Hfs) as Hlook.
    destruct (lookupField fs name) as [f | ],
             (lookupField fs' name) as [f' | ]; try contradiction.
    + destruct (Byte.eqb tag "O").
      * pose proof (IHo data o1 f f' Hlook) as Hsub.
        destruct (consumeObjectFuel E fuel data o1 f)
          as [[[sub o2] e2] | p | ],
                 (consumeObjectFuel E fuel data o1 f')
          as [[[sub' o2'] e2'] | p' | ]; simpl in Hsub; try contradiction;
          simpl; try exact Hsub.
        destruct Hsub as [Hs [-> ->]].
        assert (Hnew : sameShape (VStruct (storeField fs name sub))
                         (VStruct (storeField fs' name sub'))).
        { constructor. apply storeField_sameFields; assumption. }
        destruct e2' as [e2 | ]; [apply alike_same, Hnew | apply IHe, Hnew].
      * apply alike_bind. intros [[value o2] [e2 | ]] _;
          [apply alike_same, Hv | ].
        pose proof (setField_alike f f' value Hlook) as Hset.
        destruct (setField f value) as [x | p | ],
                 (setField f' value) as [x' | p' | ]; try contradiction;
          simpl; try exact Hset.
        apply IHe. constructor. apply storeField_sameFields; assumption.
    + destruct (Byte.eqb tag "O").
      * pose proof (IHo data o1 dummyObject dummyObject
                      (sameShape_refl dummyObject)) as Hsub.
        destruct (consumeObjectFuel E fuel data o1 dummyObject)
          as [[[sub o2] [e2 | ]] | p | ]; simpl; try reflexivity;
          [apply alike_same, Hv | apply IHe, Hv].
      * apply alike_bind. intros [[value o2] [e2 | ]] _;
          [apply alike_same, Hv | apply IHe, Hv].
Qed.

(** X17.  Decoding never reads the values the destination holds: into
    two destinations of one type, [consumeObject] returns the same
    offset and error and destinations of that type, or panics alike. *)
Theorem outcome_decided_by_type E data offset v v' :
  sameShape v v' ->
  alike (consumeObject E data offset v) (consumeObject E data offset v').
Proof.
  intros Hv. unfold consumeObject. apply type_decides, Hv.
Qed.

Lemma outcome_decided_by_type_witness :
  alike
    (consumeObject reference person_payload 0
       (VStruct [(bytes "Name", VString []); (bytes "Age", VInt Int 0)]))
    (consumeObject reference person_payload 0
       (VStruct [(bytes "Name", VString (bytes "Eve"));
                 (bytes "Age", VInt Int 99)])).
Proof.
  apply (outcome_decided_by_type reference person_payload 0).
  repeat constructor.
Defined.
